(** * clib: dependency build and install orchestration

    A shallow embedding of [clib-build.c] (the build orchestrator, in its
    single-threaded and its pthread configuration) and of [clib-install.c]
    (the install orchestrator and the manifest merge), followed by the
    properties established about them.

    Collaborators that live outside these two files (the file system, the
    package resolver, the JSON library, [system(3)], [path_join]) appear as
    fields of an environment record: the orchestration code is modelled as
    written, over whatever those collaborators answer.

    Throughout, memory allocation succeeds ([path_join], [asprintf],
    [malloc] and [strdup] do not return NULL) and [pthread_create] and
    [pthread_mutex_lock] return 0.  [main] is modelled for the build
    tool compiled without HAVE_PTHREADS; the value it returns is kept
    apart from the exit status of the process, which is its low 8
    bits. *)

From stdpp Require Import gmap strings list fin_maps pretty.
From Stdlib Require Import ZArith Lia Ascii.

Local Open Scope string_scope.
Local Open Scope nat_scope.
Local Open Scope list_scope.

(** ** Shared data *)

(** errno values used by the build tool (Linux numbering). *)
Definition ENOENT : Z := 2.
Definition ENOMEM : Z := 12.

(** [clib_package_dependency_t]: one declared dependency. *)
Record clib_package_dependency := {
  dep_author : string;
  dep_name : string;
  dep_version : string;
}.

(** The fields of [clib_package_t] read by the build tool.  Pointer fields
    that may be NULL are options. *)
Record clib_package := {
  pkg_name : string;
  pkg_makefile : option string;
  pkg_dependencies : option (list clib_package_dependency);
  pkg_development : option (list clib_package_dependency);
}.

(** [struct options] of clib-build.c ([prefix], [skip_cache] and [global]
    are only forwarded to the resolver and are left out). *)
Record options := {
  opts_dir : string;
  opts_force : bool;
  opts_verbose : bool;
  opts_dev : bool;
  opts_clean : option string;
  opts_test : option string;
  opts_concurrency : nat;
}.

(** The environment of a run of the build tool. *)
Record world := {
  (** [path_join(dir, file)] *)
  path_join : string → string → string;
  (** the files that exist; [Some None] is a file [fs_read] cannot read *)
  fs_files : gmap string (option string);
  (** [clib_package_new(json, verbose)] *)
  clib_package_new : string → option clib_package;
  (** [clib_package_new_from_slug(slug, verbose)] *)
  clib_package_new_from_slug : string → option clib_package;
  (** [system(command)] *)
  system : string → Z;
  (** [realpath(path, buf)] *)
  realpath : string → string;
  (** [getcwd] *)
  cwd : string;
  (** [CLIB_VERSION] *)
  CLIB_VERSION : string;
}.

(** One unit of build work: the task that owns [ev_path] got past the
    registry check, found the manifest and a package, and ran the build
    command (if the package has a makefile). *)
Record event := {
  ev_dir : string;
  ev_path : string;
  ev_command : option string;
}.

Global Instance event_eq_dec : EqDecision event.
Proof. solve_decision. Defined.

(** [static const char *package_names[]] *)
Definition package_names : list string := ["clib.json"; "package.json"].

(** [fs_exists(path)]: 0 when the path exists, -1 otherwise. *)
Definition fs_exists (w : world) (path : string) : Z :=
  if fs_files w !! path is Some _ then 0%Z else (-1)%Z.

(** [fs_read(path)]: NULL for a missing or unreadable file. *)
Definition fs_read (w : world) (path : string) : option string :=
  default None (fs_files w !! path).

(** The [asprintf] of the shell command:
    ["cd %s && %s %s %s && make -f %s %s %s"]. *)
Definition build_command (o : options) (dir makefile : string) : string :=
  "cd " +:+ dir +:+ " && "
  +:+ (if opts_clean o is Some _ then "make -f" else ":") +:+ " "
  +:+ (if opts_clean o is Some _ then makefile else ":") +:+ " "
  +:+ default ":" (opts_clean o)
  +:+ " && make -f " +:+ makefile +:+ " "
  +:+ (if opts_force o then "-B" else "") +:+ " "
  +:+ default "" (opts_test o).

(** ["%s/%s@%s"] *)
Definition dependency_slug (d : clib_package_dependency) : string :=
  dep_author d +:+ "/" +:+ dep_name d +:+ "@" +:+ dep_version d.

(** The package found at a manifest path: [clib_package_new] on the text
    read, or [clib_package_new_from_slug(dir)] when the read fails. *)
Definition load_package (w : world) (dir path : string) : option clib_package :=
  match fs_read w path with
  | Some json => clib_package_new w json
  | None => clib_package_new_from_slug w dir
  end.

(** The value stored in the registry for a processed path. *)
Definition built_flag (p : clib_package) : string :=
  if pkg_makefile p is Some _ then "t" else "f".

(** The work event of a package at [path]. *)
Definition work_event (o : options) (dir path : string) (p : clib_package) : event :=
  {| ev_dir := dir; ev_path := path;
     ev_command := build_command o dir <$> pkg_makefile p |}.

(** How often the build work of [path] was done. *)
Definition work_count (path : string) (l : list event) : nat :=
  length (filter (λ e, ev_path e = path) l).

(** ** The build tool without HAVE_PTHREADS *)

Module Sequential.

(** The global [built] hash and the work done so far, oldest first. *)
Record state := {
  built : gmap string string;
  log : list event;
}.

(** What a call does: it returns [rc] in a new state, it dereferences the
    NULL package of a dependency that did not resolve, or the model ran
    out of fuel. *)
Inductive outcome :=
| Ret (rc : Z) (s : state)
| Crash
| OutOfFuel.

Section Body.
Variable w : world.
Variable o : options.
(** [build_package], for the recursive calls *)
Variable build_package_rec : string → state → outcome.

(** The [while ((node = list_iterator_next(iterator)))] loop in its
    [#else] branch: each dependency is built when it is reached and the
    first non-zero [rc] leaves through [goto cleanup]. *)
Fixpoint build_dependencies (deps : list clib_package_dependency)
    (s : state) : outcome :=
  match deps with
  | [] => Ret 0 s
  | dep :: rest =>
    match clib_package_new_from_slug w (dependency_slug dep) with
    | None => Crash
    | Some dependency =>
      match build_package_rec (path_join w (opts_dir o) (pkg_name dependency)) s with
      | Ret rc s' =>
        if decide (rc = 0%Z) then build_dependencies rest s' else Ret rc s'
      | other => other
      end
    end
  end.

Definition build_package_with_package_name (dir file : string)
    (s : state) : outcome :=
  let path := path_join w dir file in
  if decide (is_Some (built s !! path)) then Ret 0 s
  else if decide (fs_exists w path = (-1)%Z) then Ret (- ENOENT) s
  else
    match load_package w dir path with
    | None => Ret (- ENOMEM) s
    | Some package =>
      let rc :=
        match pkg_makefile package with
        | Some makefile => system w (build_command o dir makefile)
        | None => 0%Z
        end in
      let s1 := {| built := <[path := built_flag package]> (built s);
                   log := (log s ++ [work_event o dir path package])%list |} in
      if decide (rc = 0%Z) then
        match
          match pkg_dependencies package with
          | Some deps => build_dependencies deps s1
          | None => Ret rc s1
          end
        with
        | Ret rc' s2 =>
          if decide (rc' = 0%Z) then
            match pkg_development package with
            | Some deps =>
              if opts_dev o then build_dependencies deps s2 else Ret rc' s2
            | None => Ret rc' s2
            end
          else Ret rc' s2
        | other => other
        end
      else Ret rc s1
    end.

(** The [do ... while (NULL != package_names[++i] && 0 != rc)] loop. *)
Fixpoint build_package_names (dir : string) (names : list string)
    (rc : Z) (s : state) : outcome :=
  match names with
  | [] => Ret rc s
  | name :: names' =>
    match build_package_with_package_name dir name s with
    | Ret rc' s' =>
      if decide (rc' = 0%Z) then Ret rc' s'
      else build_package_names dir names' rc' s'
    | other => other
    end
  end.
End Body.

(** [build_package]; one unit of fuel per nested call. *)
Fixpoint build_package (w : world) (o : options) (fuel : nat)
    (dir : string) (s : state) : outcome :=
  match fuel with
  | 0 => OutOfFuel
  | S fuel' =>
    build_package_names w o (build_package w o fuel') dir package_names 0 s
  end.

End Sequential.

(** ** The build tool with HAVE_PTHREADS *)

Module Pthreads.

(** Where a thread running [build_package(dir)] stands.  A thread moves
    from one point to the next in one atomic step; the points are the
    places where the code touches the shared registry, runs the build
    command, creates a thread or waits for one.  The registry is only
    touched between [pthread_mutex_lock] and [pthread_mutex_unlock], so
    each access is one step; the mutex is not held from one step to the
    next.

    - [PCheck file others]: about to lock, test [hash_has] for
      [path_join(dir, file)] and unlock; [others] are the manifest names
      not tried yet.
    - [PBuild file others]: the path was not in the registry; about to
      look for the manifest, load the package and run the command.
    - [PSet path package]: about to lock and [hash_set] the path.
    - [PSpawn package dev rest wave]: in the dependency loop (the
      development loop when [dev]); [rest] are the entries not visited
      yet and [wave] the threads created since the last join.
    - [PJoin package dev rest wave]: in a [pthread_join] loop over [wave].
    - [PDone rc]: [build_package] returned [rc]. *)
Inductive pc :=
| PCheck (file : string) (others : list string)
| PBuild (file : string) (others : list string)
| PSet (path : string) (package : clib_package)
| PSpawn (package : clib_package) (dev : bool)
    (rest : list clib_package_dependency) (wave : list nat)
| PJoin (package : clib_package) (dev : bool)
    (rest : list clib_package_dependency) (wave : list nat)
| PDone (rc : Z).

Record thread := {
  t_dir : string;
  t_pc : pc;
}.

(** The shared registry, the work done so far (oldest first), the threads
    created so far (thread 0 is the caller of the outermost
    [build_package]) and whether the process has faulted. *)
Record state := {
  built : gmap string string;
  log : list event;
  threads : list thread;
  crashed : bool;
}.

(** The [do ... while] loop of [build_package] at its next name, or its
    return when the names are exhausted. *)
Definition attempt (names : list string) (rc : Z) : pc :=
  match names with
  | file :: others => PCheck file others
  | [] => PDone rc
  end.

(** Entering the development loop, guarded by
    [opts.dev && 0 != package->development]; otherwise the function
    returns [rc], which is 0 at this point (the result of the last
    [pthread_create] or of [pthread_mutex_lock]). *)
Definition enter_development (o : options) (package : clib_package) : pc :=
  match pkg_development package with
  | Some deps => if opts_dev o then PSpawn package true deps [] else PDone 0
  | None => PDone 0
  end.

Definition enter_dependencies (o : options) (package : clib_package) : pc :=
  match pkg_dependencies package with
  | Some deps => PSpawn package false deps []
  | None => enter_development o package
  end.

Definition with_pc (s : state) (tid : nat) (t : thread) (p : pc) : state :=
  {| built := built s; log := log s;
     threads := <[tid := {| t_dir := t_dir t; t_pc := p |}]> (threads s);
     crashed := crashed s |}.

Definition is_done (t : thread) : bool :=
  match t_pc t with PDone _ => true | _ => false end.

(** One atomic step of thread [tid]; [None] when the thread cannot move
    (it does not exist, it has returned, it waits in [pthread_join] for a
    thread that has not returned, or the process has faulted).

    The process faults in two places.  A dependency that does not
    resolve leaves [dependency] NULL, and [dependency->name] dereferences
    it.  And a thread in one of the two loops works on the arrays
    [wraps] and [threads], declared with [opts.concurrency] elements:
    with a concurrency of 0 they are declared without an element, which
    is undefined, as is the write to [wraps[0]] that the first entry of
    the list leads to.  With a concurrency of at least 1 the index into
    the arrays stays below [opts.concurrency]. *)
Definition step (w : world) (o : options) (tid : nat) (s : state)
    : option state :=
  if crashed s then None else
  t ← threads s !! tid;
  match t_pc t with
  | PCheck file others =>
    (* lock; hash_has; unlock *)
    if decide (is_Some (built s !! path_join w (t_dir t) file))
    then Some (with_pc s tid t (PDone 0))
    else Some (with_pc s tid t (PBuild file others))
  | PBuild file others =>
    let path := path_join w (t_dir t) file in
    if decide (fs_exists w path = (-1)%Z)
    then Some (with_pc s tid t (attempt others (- ENOENT)))
    else
      match load_package w (t_dir t) path with
      | None => Some (with_pc s tid t (attempt others (- ENOMEM)))
      | Some package =>
        (* rc = system(command), when there is a makefile *)
        Some {| built := built s;
                log := (log s ++ [work_event o (t_dir t) path package])%list;
                threads := <[tid := {| t_dir := t_dir t;
                                       t_pc := PSet path package |}]> (threads s);
                crashed := crashed s |}
      end
  | PSet path package =>
    (* rc = pthread_mutex_lock(&mutex); hash_set; unlock *)
    Some {| built := <[path := built_flag package]> (built s);
            log := log s;
            threads := <[tid := {| t_dir := t_dir t;
                                   t_pc := enter_dependencies o package |}]>
                         (threads s);
            crashed := crashed s |}
  | PSpawn package dev rest wave =>
    (* clib_package_thread_t wraps[opts.concurrency];
       pthread_t threads[opts.concurrency]; *)
    if decide (opts_concurrency o = 0)
    then Some {| built := built s; log := log s; threads := threads s;
                 crashed := true |}
    else
      match rest with
      | [] => Some (with_pc s tid t (PJoin package dev [] wave))
      | dep :: rest =>
        match clib_package_new_from_slug w (dependency_slug dep) with
        | None =>
          Some {| built := built s; log := log s; threads := threads s;
                  crashed := true |}
        | Some dependency =>
          let child :=
            {| t_dir := path_join w (opts_dir o) (pkg_name dependency);
               t_pc := attempt package_names 0 |} in
          let wave' := (wave ++ [length (threads s)])%list in
          let p := if decide (opts_concurrency o ≤ length wave')%nat
                   then PJoin package dev rest wave'
                   else PSpawn package dev rest wave' in
          Some {| built := built s; log := log s;
                  threads := (<[tid := {| t_dir := t_dir t; t_pc := p |}]>
                                (threads s) ++ [child])%list;
                  crashed := crashed s |}
        end
      end
  | PJoin package dev rest (c :: wave) =>
    (* pthread_join(threads[j], 0): the result of the thread is dropped *)
    c_t ← threads s !! c;
    if is_done c_t then Some (with_pc s tid t (PJoin package dev rest wave))
    else None
  | PJoin package dev (dep :: rest) [] =>
    Some (with_pc s tid t (PSpawn package dev (dep :: rest) []))
  | PJoin package dev [] [] =>
    Some (with_pc s tid t
            (if dev then PDone 0 else enter_development o package))
  | PDone _ => None
  end.

(** A schedule names the thread that moves next; a thread that cannot
    move when it is named loses its turn. *)
Definition run (w : world) (o : options) (sched : list nat) (s : state)
    : state :=
  foldl (λ s tid, default s (step w o tid s)) s sched.

(** The state in which thread 0 calls [build_package(dir)]. *)
Definition init (registry : gmap string string) (dir : string) : state :=
  {| built := registry; log := [];
     threads := [ {| t_dir := dir; t_pc := attempt package_names 0 |} ];
     crashed := false |}.

(** Every thread has returned and the process has not faulted. *)
Definition all_done (s : state) : bool :=
  negb (crashed s) && forallb is_done (threads s).

(** What [build_package] returned in thread [tid], once it has. *)
Definition result (s : state) (tid : nat) : option Z :=
  t ← threads s !! tid;
  match t_pc t with PDone rc => Some rc | _ => None end.

End Pthreads.

(** ** [main] of the build tool, compiled without HAVE_PTHREADS *)

Module BuildMain.
Import Sequential.

(** What [main] writes to standard output: the [printf("\n")] and the
    [logger_info("info", ...)] summary line. *)
Inductive output :=
| Newline
| LoggerInfo (message : string).

(** How a run of [main] ends: it returns [rc] having written [out], the
    process faults, or the model ran out of fuel. *)
Inductive exit :=
| Exited (rc : Z) (out : list output)
| Faulted
| NoFuel.

(** The exit status a parent sees when [main] returns [rc]: the low 8
    bits of the value ([status & 0377]). *)
Definition process_status (rc : Z) : Z := Z.land rc 255.

(** The exit status of a run in which [main] returns. *)
Definition exit_status (e : exit) : option Z :=
  match e with
  | Exited rc _ => Some (process_status rc)
  | _ => None
  end.

(** [0 == strncmp("t", val, 1)] *)
Definition is_t (val : string) : bool :=
  match val with
  | String c _ => bool_decide (c = "t"%char)
  | EmptyString => false
  end.

(** The [hash_each] loop counting the entries marked as built. *)
Definition total_built (registry : gmap string string) : nat :=
  length (filter (λ kv, is_t kv.2 = true) (map_to_list registry)).

(** The three-way choice of the summary text. *)
Definition summary (n : nat) : string :=
  if decide (1 < n)%nat then "built " +:+ pretty n +:+ " packages"
  else if decide (n = 1)%nat then "built 1 package"
  else "built 0 packages".

(** The body of the [for] loop over [program.argv]: build the directory
    of the argument and, when that fails, retry with the argument as it
    was given. *)
Definition build_argument (w : world) (o : options) (fuel : nat)
    (arg : string) (s : state) : outcome :=
  let dep :=
    match arg with
    | String "." _ => realpath w arg
    | _ => path_join w (opts_dir o) arg
    end in
  match build_package w o fuel dep s with
  | Ret rc s' =>
    if decide (rc = 0%Z) then Ret rc s' else build_package w o fuel arg s'
  | other => other
  end.

(** The [for] loop: [rc] is assigned anew for every argument. *)
Fixpoint build_arguments (w : world) (o : options) (fuel : nat)
    (args : list string) (rc : Z) (s : state) : outcome :=
  match args with
  | [] => Ret rc s
  | arg :: args' =>
    match build_argument w o fuel arg s with
    | Ret rc' s' => build_arguments w o fuel args' rc' s'
    | other => other
    end
  end.

(** The registry as [main] creates it:
    [hash_set(built, strdup("__" PROGRAM_NAME "__"), CLIB_VERSION)]. *)
Definition initial_registry (w : world) : gmap string string :=
  {[ "__clib-build__" := CLIB_VERSION w ]}.

Definition initial_state (w : world) : state :=
  {| built := initial_registry w; log := [] |}.

(** [opts.dir = realpath(opts.dir, dir)] *)
Definition resolved_options (w : world) (o : options) : options :=
  {| opts_dir := realpath w (opts_dir o); opts_force := opts_force o;
     opts_verbose := opts_verbose o; opts_dev := opts_dev o;
     opts_clean := opts_clean o; opts_test := opts_test o;
     opts_concurrency := opts_concurrency o |}.

(** What is printed after the builds. *)
Definition report (o : options) (rc : Z) (s : state) : list output :=
  if decide (rc = 0%Z) then
    ((if decide (0 < total_built (built s))%nat then [Newline] else [])
     ++ (if opts_verbose o then [LoggerInfo (summary (total_built (built s)))]
         else []))%list
  else [].

(** [main] without HAVE_PTHREADS, from [command_parse] on ([getcwd] and
    [curl_global_init] are taken to succeed); [o] holds the parsed
    options and [argv] the remaining arguments.  [Exited rc out] holds
    the value [main] returns, not the exit status of the process
    ([exit_status]). *)
Definition main (w : world) (o : options) (fuel : nat) (argv : list string)
    : exit :=
  let o' := resolved_options w o in
  match
    match argv with
    | [] => build_package w o' fuel (cwd w) (initial_state w)
    | _ => build_arguments w o' fuel argv 0 (initial_state w)
    end
  with
  | Ret rc s => Exited rc (report o' rc s)
  | Crash => Faulted
  | OutOfFuel => NoFuel
  end.

(** Every argument of the list is built with result 0, each in the
    state left by the one before. *)
Fixpoint all_succeed (w : world) (o : options) (fuel : nat)
    (args : list string) (s : state) : Prop :=
  match args with
  | [] => True
  | arg :: args' =>
    ∃ s', build_argument w o fuel arg s = Ret 0 s'
          ∧ all_succeed w o fuel args' s'
  end.

End BuildMain.

(** ** The install tool *)

Module Install.

(** A JSON document as the manifest code sees it: an object is an ordered
    sequence of members.  Numbers keep their lexeme; the merge never looks
    at them. *)
#[local] Unset Elimination Schemes.
Inductive json_value :=
| JNull
| JBool (b : bool)
| JNumber (lexeme : string)
| JString (s : string)
| JArray (items : list json_value)
| JObject (members : list (string * json_value)).
#[local] Set Elimination Schemes.

(** The fields of [clib_package_t] used by clib-install.c.  [p_repo] is
    the memory [pkg->repo] points to ([None] for NULL): the characters of
    the allocation, which hold a C string only if one of them is NUL. *)
Record package := {
  p_name : string;
  p_version : string;
  p_repo : option (list ascii);
}.

(** [struct options] of clib-install.c, the flags the orchestration
    branches on. *)
Record options := {
  opts_dev : bool;
  opts_savedev : bool;
  opts_nosave : bool;
}.

(** The collaborators of the install tool. *)
Record env := {
  (** [manifest_names] of the settings header *)
  manifest_names : list string;
  clib_validate : string → Z;
  clib_package_new : string → option package;
  clib_package_new_from_slug : string → option package;
  clib_package_install : package → Z;
  clib_package_install_dependencies : package → Z;
  clib_package_install_development : package → Z;
  (** the parser behind [json_parse_file] *)
  json_parse_string : string → option json_value;
  (** the printer behind [json_serialize_to_file_pretty] *)
  json_serialize_to_string_pretty : json_value → string;
  (** whether writing the file succeeds *)
  fs_writable : string → bool;
}.

(** [files]: the regular files the orchestration itself reads and
    writes, with their contents (the manifests of the working directory
    and the files named by arguments).  What [clib_package_install],
    [clib_package_install_dependencies] and
    [clib_package_install_development] write below the output directory
    is not part of [files]: of a fetch only the name of the package is
    kept, in [installed].  [trace]: the arguments announced by
    [debug(&debugger, "install %s (%d)", ...)] (both lists oldest
    first). *)
Record state := {
  files : gmap string string;
  installed : list string;
  trace : list string;
}.

(** The C string held by an allocation: the characters before the first
    NUL; none when the allocation has no NUL, where a reader runs past
    its end. *)
Fixpoint c_string (memory : list ascii) : option string :=
  match memory with
  | [] => None
  | c :: memory' =>
    if decide (c = zero) then Some EmptyString
    else String c <$> c_string memory'
  end.

(** [strdup(s)] *)
Definition strdup (s : string) : list ascii :=
  (String.list_ascii_of_string s ++ [zero])%list.

(** The assignment to [pkg->repo] in the identity back-fill:
    [malloc(length)] and [memcpy(pkg->repo, slug, length)] when [strchr]
    finds an ['@'] at offset [length], [strdup(slug)] otherwise. *)
Definition derived_repo (slug : string) : list ascii :=
  match String.index 0 "@" slug with
  | Some length => take length (String.list_ascii_of_string slug)
  | None => strdup slug
  end.

(** [if (0 == pkg->repo || 0 != strcmp(slug, pkg->repo)) ...]; [None]
    when [strcmp] reads an unterminated [pkg->repo]. *)
Definition backfill_repo (slug : string) (pkg : package) : option package :=
  match p_repo pkg with
  | None =>
    Some {| p_name := p_name pkg; p_version := p_version pkg;
            p_repo := Some (derived_repo slug) |}
  | Some memory =>
    repo ← c_string memory;
    Some (if decide (slug = repo) then pkg
          else {| p_name := p_name pkg; p_version := p_version pkg;
                  p_repo := Some (derived_repo slug) |})
  end.

(** Modelled from the spec: the JSON library is not part of the sources;
    the manifest is "an ordered key/value document (JSON object)" whose
    merge "locates or creates the object at section" and "sets
    repoIdentifier -> version".  [json_object_get_value]: the value of
    the first member called [name]. *)
Fixpoint json_object_get_value (members : list (string * json_value))
    (name : string) : option json_value :=
  match members with
  | [] => None
  | (k, v) :: members' =>
    if decide (k = name) then Some v else json_object_get_value members' name
  end.

(** Modelled from the spec: [json_object_dotget_object] for a name
    without a dot (the two callers pass ["dependencies"] and
    ["development"]): the members of the value at [name] when that value
    is an object. *)
Definition json_object_dotget_object (members : list (string * json_value))
    (name : string) : option (list (string * json_value)) :=
  match json_object_get_value members name with
  | Some (JObject section) => Some section
  | _ => None
  end.

(** Modelled from the spec: [json_object_set_value] overwrites the value
    of an existing member where it stands and appends a new member
    otherwise. *)
Fixpoint json_object_set_value (members : list (string * json_value))
    (name : string) (value : json_value) : list (string * json_value) :=
  match members with
  | [] => [(name, value)]
  | (k, v) :: members' =>
    if decide (k = name) then (k, value) :: members'
    else (k, v) :: json_object_set_value members' name value
  end.

(** The document after the two updates of
    [write_dependency_with_package_name].  [depSection] points into the
    document, so the [json_object_set_string] through it changes the
    member of the document in place. *)
Definition merge_dependency (members : list (string * json_value))
    (prefix repo version : string) : list (string * json_value) :=
  match json_object_dotget_object members prefix with
  | Some depSection =>
    json_object_set_value members prefix
      (JObject (json_object_set_value depSection repo (JString version)))
  | None =>
    let members1 := json_object_set_value members prefix (JObject []) in
    json_object_set_value members1 prefix
      (JObject (json_object_set_value [] repo (JString version)))
  end.

(** [json_parse_file(file)]: NULL for a missing file or a text that does
    not parse. *)
Definition json_parse_file (e : env) (s : state) (file : string)
    : option json_value :=
  files s !! file ≫= json_parse_string e.

(** [write_dependency_with_package_name]; [None] when
    [json_object_set_string] reads an unterminated [pkg->repo]. *)
Definition write_dependency_with_package_name (e : env) (pkg : package)
    (prefix file : string) (s : state) : option (Z * state) :=
  match json_parse_file e s file with
  | Some (JObject members) =>
    members' ←
      match p_repo pkg with
      | None =>
        (* json_object_set_string fails on a NULL name; the section is
           still created *)
        Some (match json_object_dotget_object members prefix with
              | Some _ => members
              | None => json_object_set_value members prefix (JObject [])
              end)
      | Some memory =>
        repo ← c_string memory;
        Some (merge_dependency members prefix repo (p_version pkg))
      end;
    if fs_writable e file then
      Some (0%Z,
            {| files := <[file :=
                 json_serialize_to_string_pretty e (JObject members')]> (files s);
               installed := installed s; trace := trace s |})
    else Some ((-1)%Z, s)
  | _ => Some (1%Z, s)
  end.

(** The [do ... while (NULL != manifest_names[++i] && 0 != rc)] loop of
    [write_dependency]. *)
Fixpoint write_dependency_names (e : env) (pkg : package) (prefix : string)
    (names : list string) (rc : Z) (s : state) : option (Z * state) :=
  match names with
  | [] => Some (rc, s)
  | name :: names' =>
    '(rc', s') ← write_dependency_with_package_name e pkg prefix name s;
    if decide (rc' = 0%Z) then Some (rc', s')
    else write_dependency_names e pkg prefix names' rc' s'
  end.

Definition write_dependency (e : env) (pkg : package) (prefix : string)
    (s : state) : option (Z * state) :=
  write_dependency_names e pkg prefix (manifest_names e) 0 s.

Definition save_dependency (e : env) (pkg : package) (s : state)
    : option (Z * state) :=
  write_dependency e pkg "dependencies" s.

Definition save_dev_dependency (e : env) (pkg : package) (s : state)
    : option (Z * state) :=
  write_dependency e pkg "development" s.

(** [install_local_packages_with_package_name]; the [setenv] of PREFIX
    is not observed here, and neither is what the two installs write
    into the output directory: the function is modelled by its result
    alone. *)
Definition install_local_packages_with_package_name (e : env) (o : options)
    (file : string) (s : state) : Z :=
  if decide (clib_validate e file ≠ 0%Z) then 1%Z
  else
    match files s !! file with
    | None => 1%Z
    | Some json =>
      match clib_package_new e json with
      | None => 1%Z
      | Some pkg =>
        if decide (clib_package_install_dependencies e pkg = (-1)%Z) then 1%Z
        else if opts_dev o then
          if decide (clib_package_install_development e pkg = (-1)%Z)
          then 1%Z else 0%Z
        else 0%Z
      end
    end.

(** The [do ... while] loop of [install_local_packages]. *)
Fixpoint install_local_packages_names (e : env) (o : options)
    (names : list string) (rc : Z) (s : state) : Z :=
  match names with
  | [] => rc
  | name :: names' =>
    let rc' := install_local_packages_with_package_name e o name s in
    if decide (rc' = 0%Z) then rc'
    else install_local_packages_names e o names' rc' s
  end.

Definition install_local_packages (e : env) (o : options) (s : state) : Z :=
  install_local_packages_names e o (manifest_names e) 0 s.

(** Modelled from the spec: the fetch behind [clib_package_install] is
    not part of the sources; it "fetch[es] package sources into the
    output directory".  A fetch that returns 0 is recorded in
    [installed]. *)
Definition fetch (e : env) (pkg : package) (s : state) : Z * state :=
  let rc := clib_package_install e pkg in
  (rc,
   if decide (rc = 0%Z) then
     {| files := files s; installed := (installed s ++ [p_name pkg])%list;
        trace := trace s |}
   else s).

(** [install_package]; the result of saving is dropped, as in
    [opts.savedev ? save_dev_dependency(pkg) : save_dependency(pkg);]. *)
Definition install_package (e : env) (o : options) (slug : string)
    (s : state) : option (Z * state) :=
  if decide (slug = "." ∨ slug = "./")
  then Some (install_local_packages e o s, s)
  else if decide (is_Some (files s !! slug))
  then Some (install_local_packages_with_package_name e o slug s, s)
  else
    match clib_package_new_from_slug e slug with
    | None => Some ((-1)%Z, s)
    | Some pkg =>
      let '(rc, s1) := fetch e pkg s in
      if decide (rc ≠ 0%Z) then Some (rc, s1)
      else
        let rc' := if opts_dev o then clib_package_install_development e pkg
                   else rc in
        if decide (rc' ≠ 0%Z) then Some (rc', s1)
        else
          pkg' ← backfill_repo slug pkg;
          if opts_nosave o then Some (rc', s1)
          else
            '(_, s2) ← (if opts_savedev o then save_dev_dependency e pkg' s1
                        else save_dependency e pkg' s1);
            Some (rc', s2)
    end.

(** [install_packages]: the loop announces each argument, installs it,
    and returns 1 at the first [install_package] that returns -1. *)
Fixpoint install_packages (e : env) (o : options) (pkgs : list string)
    (s : state) : option (Z * state) :=
  match pkgs with
  | [] => Some (0%Z, s)
  | slug :: pkgs' =>
    let s0 := {| files := files s; installed := installed s;
                 trace := (trace s ++ [slug])%list |} in
    '(rc, s1) ← install_package e o slug s0;
    if decide (rc = (-1)%Z) then Some (1%Z, s1)
    else install_packages e o pkgs' s1
  end.

(** The exit code computed by [main]:
    [0 == program.argc ? install_local_packages() : install_packages(...)]. *)
Definition main (e : env) (o : options) (argv : list string) (s : state)
    : option (Z * state) :=
  match argv with
  | [] => Some (install_local_packages e o s, s)
  | _ => install_packages e o argv s
  end.

End Install.

(** ** Measures and invariants of the build without threads *)

Module SequentialInvariants.
Import Sequential.

(** The manifest files that exist and are not in the registry yet. *)
Definition unseen (w : world) (s : state) : nat :=
  size (dom (fs_files w) ∖ dom (built s)).

(** No path has its work logged twice, and every path with logged work
    is in the registry. *)
Definition log_recorded (s : state) : Prop :=
  NoDup (ev_path <$> log s)
  ∧ ∀ e, e ∈ log s → ev_path e ∈ dom (built s).

(** A call from state [s] came back (or faulted) rather than running out
    of fuel; the registry only grew and the log is still well formed. *)
Definition good_outcome (s : state) (out : outcome) : Prop :=
  match out with
  | Ret _ s' => dom (built s) ⊆ dom (built s') ∧ log_recorded s'
  | Crash => True
  | OutOfFuel => False
  end.

End SequentialInvariants.

(** ** Dependency graphs in which every item succeeds *)

Module Graph.

(** The entries the two loops of a package go through. *)
Definition active_dependencies (o : options) (package : clib_package)
    : list clib_package_dependency :=
  default [] (pkg_dependencies package)
  ++ (if opts_dev o then default [] (pkg_development package) else []).

(** The directory a dependency is built in:
    [path_join(opts.dir, dependency->name)]. *)
Definition dependency_dir (w : world) (o : options)
    (dep : clib_package_dependency) : option string :=
  dependency ← clib_package_new_from_slug w (dependency_slug dep);
  Some (path_join w (opts_dir o) (pkg_name dependency)).

(** The package of a manifest that exists, can be read and parses. *)
Definition manifest_at (w : world) (path : string) : option clib_package :=
  json ← fs_read w path; clib_package_new w json.

(** The manifest of a directory: [clib.json] when it is there and
    parses, [package.json] when there is no [clib.json]. *)
Definition dir_manifest (w : world) (dir : string)
    : option (string * clib_package) :=
  match manifest_at w (path_join w dir "clib.json") with
  | Some package => Some (path_join w dir "clib.json", package)
  | None =>
    match fs_files w !! path_join w dir "clib.json" with
    | Some _ => None
    | None =>
      package ← manifest_at w (path_join w dir "package.json");
      Some (path_join w dir "package.json", package)
    end
  end.

(** The build command of the directory, if any, returns 0. *)
Definition command_succeeds (w : world) (o : options) (dir : string)
    (package : clib_package) : bool :=
  match pkg_makefile package with
  | Some makefile => bool_decide (system w (build_command o dir makefile) = 0%Z)
  | None => true
  end.

(** Nothing fails in [dir]: it has a manifest, its command succeeds, and
    its dependencies resolve to directories of [dirs]. *)
Definition dir_ok (w : world) (o : options) (dirs : list string)
    (dir : string) : bool :=
  match dir_manifest w dir with
  | Some (_, package) =>
    command_succeeds w o dir package
    && forallb (λ dep,
         match dependency_dir w o dep with
         | Some dir' => bool_decide (dir' ∈ dirs)
         | None => false
         end) (active_dependencies o package)
  | None => false
  end.

(** The registry holds no manifest path of [dir] yet. *)
Definition dir_fresh (w : world) (registry : gmap string string)
    (dir : string) : bool :=
  forallb (λ file, bool_decide (registry !! path_join w dir file = None))
    package_names.

(** Every item of the graph spanned by [dirs] succeeds, and the run
    starts from a registry that knows none of its manifests. *)
Definition graph_ok (w : world) (o : options) (dirs : list string)
    (registry : gmap string string) : bool :=
  forallb (λ dir, dir_ok w o dirs dir && dir_fresh w registry dir) dirs.

Section Reach.
Variables (w : world) (o : options) (registry : gmap string string)
  (root : string).

(** The directories a build of [root] leads to. *)
Inductive reach : string → Prop :=
| reach_root : reach root
| reach_dependency dir path package dep dir' :
    reach dir →
    dir_manifest w dir = Some (path, package) →
    dep ∈ active_dependencies o package →
    dependency_dir w o dep = Some dir' →
    reach dir'.

(** [path] is the manifest of a directory the build leads to. *)
Definition reached_manifest (path : string) (package : clib_package) : Prop :=
  ∃ dir, reach dir ∧ dir_manifest w dir = Some (path, package).

(** A registry that holds the initial entries and, beyond them, only
    manifests of reached directories with their flag. *)
Definition sound (r : gmap string string) : Prop :=
  (∀ k v, registry !! k = Some v → r !! k = Some v)
  ∧ ∀ k v, r !! k = Some v →
      registry !! k = Some v
      ∨ ∃ package, reached_manifest k package ∧ v = built_flag package.

(** The manifest of every directory the build leads to is recorded. *)
Definition complete (r : gmap string string) : Prop :=
  ∀ path package, reached_manifest path package → path ∈ dom r.

(** Of every recorded manifest outside [gray], the dependencies have
    their manifests recorded. *)
Definition closed_except (gray : gset string) (r : gmap string string)
    : Prop :=
  ∀ path package dep dir',
    reached_manifest path package → path ∈ dom r → path ∉ gray →
    dep ∈ active_dependencies o package →
    dependency_dir w o dep = Some dir' →
    ∃ path' package', dir_manifest w dir' = Some (path', package')
                      ∧ path' ∈ dom r.
End Reach.

End Graph.

(** ** What a successful call guarantees on such a graph *)

Module Agreement.

(** The call on [dir] from state [s] returned 0: the registry grew, it
    is still sound and closed outside [gray], and it holds the manifest
    of [dir]. *)
Definition sequential_success (w : world) (o : options)
    (registry : gmap string string) (root : string) (gray : gset string)
    (s : Sequential.state) (dir : string) (out : Sequential.outcome) : Prop :=
  ∃ s', out = Sequential.Ret 0 s'
        ∧ dom (Sequential.built s) ⊆ dom (Sequential.built s')
        ∧ Graph.sound w o registry root (Sequential.built s')
        ∧ Graph.closed_except w o root gray (Sequential.built s')
        ∧ ∃ path package, Graph.dir_manifest w dir = Some (path, package)
                          ∧ path ∈ dom (Sequential.built s').

Section Threads.
Import Pthreads.
Variables (w : world) (o : options) (registry : gmap string string)
  (root : string).

(** The entries a thread in the loops of [package] has still to visit. *)
Definition pending (package : clib_package) (dev : bool)
    (rest : list clib_package_dependency) : list clib_package_dependency :=
  if dev then rest
  else rest ++ (if opts_dev o then default [] (pkg_development package)
                else []).

Definition pending_of (p : pc) : list clib_package_dependency :=
  match p with
  | PSpawn package dev rest _ | PJoin package dev rest _ =>
    pending package dev rest
  | _ => []
  end.

(** A thread is at a point that fits the manifest of its directory. *)
Definition thread_ok (s : state) (t : thread) : Prop :=
  Graph.reach w o root (t_dir t)
  ∧ match t_pc t with
    | PCheck file others | PBuild file others =>
      (file = "clib.json" ∧ others = ["package.json"])
      ∨ (file = "package.json" ∧ others = []
         ∧ fs_files w !! path_join w (t_dir t) "clib.json" = None)
    | PSet path package =>
      Graph.dir_manifest w (t_dir t) = Some (path, package)
    | PSpawn package dev rest _ | PJoin package dev rest _ =>
      (∃ path, Graph.dir_manifest w (t_dir t) = Some (path, package)
               ∧ path ∈ dom (built s))
      ∧ ∀ dep, dep ∈ pending package dev rest →
               dep ∈ Graph.active_dependencies o package
    | PDone rc =>
      rc = 0%Z
      ∧ ∃ path package, Graph.dir_manifest w (t_dir t) = Some (path, package)
                        ∧ path ∈ dom (built s)
    end.

(** A dependency whose directory has a thread, or which some thread has
    still to visit. *)
Definition covered (s : state) (dep : clib_package_dependency)
    (dir' : string) : Prop :=
  (∃ tid t, threads s !! tid = Some t ∧ t_dir t = dir')
  ∨ (∃ tid t, threads s !! tid = Some t ∧ dep ∈ pending_of (t_pc t)).

Definition threads_invariant (s : state) : Prop :=
  crashed s = false
  ∧ Graph.sound w o registry root (built s)
  ∧ (∃ t, threads s !! 0 = Some t ∧ t_dir t = root)
  ∧ (∀ tid t, threads s !! tid = Some t → thread_ok s t)
  ∧ ∀ path package dep dir',
      Graph.reached_manifest w o root path package →
      path ∈ dom (built s) →
      dep ∈ Graph.active_dependencies o package →
      Graph.dependency_dir w o dep = Some dir' →
      covered s dep dir'.
End Threads.

(** A bound on the steps that are left in a state of the pthread build,
    used to show that every run can be carried to its end. *)
Section Potential.
Import Pthreads.
Variables (w : world) (o : options).

(** The manifests that exist and are neither recorded nor in [skip]. *)
Definition remaining (r : gmap string string) (skip : gset string) : nat :=
  size (dom (fs_files w) ∖ dom r ∖ skip).

(** The longest list of dependencies among the manifests that parse. *)
Definition widest : nat :=
  max_list_with
    (λ entry : string * option string,
       match entry.2 ≫= clib_package_new w with
       | Some package => length (Graph.active_dependencies o package)
       | None => 0
       end)
    (map_to_list (fs_files w)).

(** The steps left to a thread created when [u] manifests remain, with
    all the threads it will create. *)
Fixpoint fresh_cost (u : nat) : nat :=
  match u with
  | 0 => 6
  | S u' => 6 + 2 * (widest * (3 + fresh_cost u') + 6)
  end.

(** The steps left to a thread that has just recorded its path. *)
Definition loops_cost (u : nat) : nat := widest * (3 + fresh_cost u) + 6.

(** The steps one manifest name can take when [u] manifests remain. *)
Definition name_cost (u : nat) : nat :=
  3 + match u with 0 => 0 | S u' => loops_cost u' end.

Definition thread_cost (r : gmap string string) (t : thread) : nat :=
  match t_pc t with
  | PCheck file others => (1 + length others) * name_cost (remaining r ∅)
  | PBuild file others =>
    (if fs_files w !! path_join w (t_dir t) file is Some _
     then 2 + loops_cost (remaining r {[ path_join w (t_dir t) file ]})
     else 1)
    + length others * name_cost (remaining r ∅)
  | PSet path package => 1 + loops_cost (remaining r {[ path ]})
  | PSpawn package dev rest wave =>
    length (pending o package dev rest) * (3 + fresh_cost (remaining r ∅))
    + length wave + 3 + (if dev then 0 else 2)
  | PJoin package dev rest wave =>
    length (pending o package dev rest) * (3 + fresh_cost (remaining r ∅))
    + length wave + (if rest is [] then 2 else 4) + (if dev then 0 else 2)
  | PDone _ => 0
  end.

Definition potential (s : state) : nat :=
  sum_list_with (thread_cost (built s)) (threads s).

(** The threads a thread waits for were created after it. *)
Definition wave_of (p : pc) : list nat :=
  match p with
  | PSpawn _ _ _ wave | PJoin _ _ _ wave => wave
  | _ => []
  end.

Definition waves_ok (s : state) : Prop :=
  ∀ tid t c, threads s !! tid = Some t → c ∈ wave_of (t_pc t) →
             tid < c < length (threads s).
End Potential.

End Agreement.

(** ** Concrete projects

    Small environments on which the models are run. *)

Module Examples.

Definition dependency (name : string) : clib_package_dependency :=
  {| dep_author := "u"; dep_name := name; dep_version := "1" |}.

(** A package with a makefile and the given runtime dependencies. *)
Definition make_package (name : string) (deps : list string) : clib_package :=
  {| pkg_name := name; pkg_makefile := Some "Makefile";
     pkg_dependencies := Some (dependency <$> deps);
     pkg_development := None |}.

(** A package without a makefile and without dependency lists. *)
Definition plain_package (name : string) : clib_package :=
  {| pkg_name := name; pkg_makefile := None;
     pkg_dependencies := None; pkg_development := None |}.

(** An environment given by its manifests (path and text), the packages
    the texts parse to, and the packages the slugs resolve to. *)
Definition project (manifests : list (string * string))
    (texts : list (string * clib_package))
    (slugs : list (string * clib_package)) (sys : string → Z) : world :=
  {| path_join := λ dir file, dir +:+ "/" +:+ file;
     fs_files := list_to_map (prod_map id Some <$> manifests);
     clib_package_new := λ json,
       (list_to_map texts : gmap string clib_package) !! json;
     clib_package_new_from_slug := λ slug,
       (list_to_map slugs : gmap string clib_package) !! slug;
     system := sys;
     realpath := id;
     cwd := "/proj";
     CLIB_VERSION := "2.8.7" |}.

Definition default_options : options :=
  {| opts_dir := "/deps"; opts_force := false; opts_verbose := true;
     opts_dev := false; opts_clean := None; opts_test := None;
     opts_concurrency := 4 |}.

(** The diamond: the root depends on [a] and [b], which both depend on
    [x]. *)
Definition diamond : world :=
  project
    [("/proj/clib.json", "root"); ("/deps/a/clib.json", "a");
     ("/deps/b/package.json", "b"); ("/deps/x/clib.json", "x")]
    [("root", make_package "root" ["a"; "b"]); ("a", make_package "a" ["x"]);
     ("b", make_package "b" ["x"]); ("x", make_package "x" [])]
    [("u/a@1", plain_package "a"); ("u/b@1", plain_package "b");
     ("u/x@1", plain_package "x")]
    (λ _, 0%Z).

(** A schedule of the diamond in which the threads of [a] and [b] create
    their threads for [x] (threads 3 and 4), and both of these test the
    registry before either records the path. *)
Definition racing_schedule : list nat :=
  [0; 0; 0; 0; 0;          (* root: check, build, set, create a, create b *)
   1; 1; 1; 1;             (* a: check, build, set, create x (thread 3) *)
   2; 2; 2; 2; 2; 2;       (* b: clib.json missing, then package.json; create x (thread 4) *)
   3; 4;                   (* both x threads pass the hash_has test *)
   3; 3;                   (* thread 3 builds x and records its path *)
   4; 4;                   (* thread 4 builds x again and records it again *)
   3; 4; 3; 4;             (* both leave their empty loops and return *)
   1; 1; 1; 2; 2; 2;       (* a and b join and return *)
   0; 0; 0; 0].            (* the root joins and returns *)

(** A root with an unbuildable dependency [x] (no manifest in its
    directory) followed by a buildable one, [y]. *)
Definition failing_sibling : world :=
  project
    [("/proj/clib.json", "root"); ("/deps/y/clib.json", "y")]
    [("root", make_package "root" ["x"; "y"]); ("y", make_package "y" [])]
    [("u/x@1", plain_package "x"); ("u/y@1", plain_package "y")]
    (λ _, 0%Z).

Definition failing_sibling_schedule : list nat :=
  [0; 0; 0; 0; 0;          (* root: check, build, set, create x, create y *)
   1; 1; 1; 1;             (* x: both names are missing *)
   2; 2; 2; 2; 2;          (* y: check, build, set, empty loop, return *)
   0; 0; 0; 0].            (* the root joins and returns *)

(** A directory with both manifests, each with a makefile, in which
    [make] fails. *)
Definition two_manifests : world :=
  project
    [("/proj/clib.json", "first"); ("/proj/package.json", "second")]
    [("first", make_package "p" []); ("second", make_package "p" [])]
    []
    (λ _, 512%Z).


(** A deps directory holding one buildable package, [ok]. *)
Definition one_package : world :=
  project [("/deps/ok/clib.json", "ok")] [("ok", make_package "ok" [])] []
    (λ _, 0%Z).

(** Two packages that depend on each other. *)
Definition cycle : world :=
  project
    [("/proj/clib.json", "root"); ("/deps/b/clib.json", "b");
     ("/deps/root/clib.json", "root")]
    [("root", make_package "root" ["b"]); ("b", make_package "b" ["root"])]
    [("u/b@1", plain_package "b"); ("u/root@1", plain_package "root")]
    (λ _, 0%Z).

(** The double quote. *)
Definition quote : string := String (ascii_of_nat 34) EmptyString.

(** A compact JSON printer (no escapes), the serializer of the example
    environments of the install tool. *)
Fixpoint print_json (v : Install.json_value) : string :=
  match v with
  | Install.JNull => "null"
  | Install.JBool b => if b then "true" else "false"
  | Install.JNumber lexeme => lexeme
  | Install.JString s => quote +:+ s +:+ quote
  | Install.JArray items =>
    "[" +:+ (fix go (l : list Install.json_value) : string :=
               match l with
               | [] => ""
               | [x] => print_json x
               | x :: l' => print_json x +:+ "," +:+ go l'
               end) items +:+ "]"
  | Install.JObject members =>
    "{" +:+ (fix go (l : list (string * Install.json_value)) : string :=
               match l with
               | [] => ""
               | [(k, x)] => quote +:+ k +:+ quote +:+ ":" +:+ print_json x
               | (k, x) :: l' =>
                 quote +:+ k +:+ quote +:+ ":" +:+ print_json x +:+ "," +:+ go l'
               end) members +:+ "}"
  end.

(** A parser that recognises the printed form of the given documents. *)
Fixpoint parse_known (documents : list Install.json_value) (text : string)
    : option Install.json_value :=
  match documents with
  | [] => None
  | v :: documents' =>
    if decide (print_json v = text) then Some v
    else parse_known documents' text
  end.

(** The package [foo/bar] at version 1.2.0 as the resolver returns it. *)
Definition foo_bar : Install.package :=
  {| Install.p_name := "bar"; Install.p_version := "1.2.0";
     Install.p_repo := Some (Install.strdup "foo/bar") |}.

(** A manifest without dependencies, and the same with [foo/bar]. *)
Definition app_manifest : Install.json_value :=
  Install.JObject [("name", Install.JString "app");
                   ("version", Install.JString "0.1.0")].

Definition app_manifest_with_foo_bar : Install.json_value :=
  Install.JObject [("name", Install.JString "app");
                   ("version", Install.JString "0.1.0");
                   ("dependencies",
                    Install.JObject [("foo/bar", Install.JString "1.2.0")])].

(** An environment in which [foo/bar] resolves (with and without a
    version) and every fetch succeeds. *)
Definition registry_env : Install.env :=
  {| Install.manifest_names := ["clib.json"; "package.json"];
     Install.clib_validate := λ _, 0%Z;
     Install.clib_package_new := λ _, None;
     Install.clib_package_new_from_slug := λ slug,
       if decide (slug = "foo/bar" ∨ slug = "foo/bar@1.2.0")
       then Some foo_bar else None;
     Install.clib_package_install := λ _, 0%Z;
     Install.clib_package_install_dependencies := λ _, 0%Z;
     Install.clib_package_install_development := λ _, 0%Z;
     Install.json_parse_string :=
       parse_known [app_manifest; app_manifest_with_foo_bar];
     Install.json_serialize_to_string_pretty := print_json;
     Install.fs_writable := λ _, true |}.

Definition save_options : Install.options :=
  {| Install.opts_dev := false; Install.opts_savedev := false;
     Install.opts_nosave := false |}.

(** A working directory without a manifest, and one with [clib.json]. *)
Definition empty_directory : Install.state :=
  {| Install.files := ∅; Install.installed := []; Install.trace := [] |}.

Definition app_directory : Install.state :=
  {| Install.files := {[ "clib.json" := print_json app_manifest ]};
     Install.installed := []; Install.trace := [] |}.

(** The member [name] as a hand-written manifest spells it, with blanks
    around the colon, and a manifest that holds just this member. *)
Definition spaced_name_member : string :=
  quote +:+ "name" +:+ quote +:+ " : " +:+ quote +:+ "app" +:+ quote.

Definition spaced_manifest_text : string :=
  "{ " +:+ spaced_name_member +:+ " }".

Definition name_manifest : Install.json_value :=
  Install.JObject [("name", Install.JString "app")].

Definition name_manifest_with_foo_bar : Install.json_value :=
  Install.JObject [("name", Install.JString "app");
                   ("dependencies",
                    Install.JObject [("foo/bar", Install.JString "1.2.0")])].

(** [registry_env] with a parser that also reads the hand-written
    manifest. *)
Definition lenient_env : Install.env :=
  {| Install.manifest_names := ["clib.json"; "package.json"];
     Install.clib_validate := λ _, 0%Z;
     Install.clib_package_new := λ _, None;
     Install.clib_package_new_from_slug :=
       Install.clib_package_new_from_slug registry_env;
     Install.clib_package_install := λ _, 0%Z;
     Install.clib_package_install_dependencies := λ _, 0%Z;
     Install.clib_package_install_development := λ _, 0%Z;
     Install.json_parse_string := λ text,
       if decide (text = spaced_manifest_text) then Some name_manifest
       else parse_known [name_manifest; name_manifest_with_foo_bar] text;
     Install.json_serialize_to_string_pretty := print_json;
     Install.fs_writable := λ _, true |}.

(** A working directory whose [clib.json] is the hand-written manifest. *)
Definition spaced_directory : Install.state :=
  {| Install.files := {[ "clib.json" := spaced_manifest_text ]};
     Install.installed := []; Install.trace := [] |}.

End Examples.

(** ** The registry as an account of the work done *)

Module Accounting.

(** The flag stored for the package of a unit of work: ["t"] when a
    build command was run for it, ["f"] otherwise. *)
Definition event_flag (e : event) : string :=
  if ev_command e is Some _ then "t" else "f".

(** The registry after the [hash_set] of a unit of work. *)
Definition record_event (r : gmap string string) (e : event)
    : gmap string string :=
  <[ev_path e := event_flag e]> r.

(** The registry after the [hash_set]s of a sequence of units of work. *)
Definition replay (r : gmap string string) (l : list event)
    : gmap string string :=
  foldl record_event r l.


(** What [system] returned for the command of a unit of work; 0 when the
    package has no makefile and no command was run. *)
Definition event_status (w : world) (e : event) : Z :=
  match ev_command e with
  | Some command => system w command
  | None => 0%Z
  end.

(** A call took the state [s] to [s'] doing the work [new] and returned
    [rc]: the work was appended to the log; the registry is the one
    before with one entry per unit of work; every unit of work is for a
    manifest file that exists, was not recorded before the call, and is
    worked on once; and [rc] is 0, one of the two error codes of
    [build_package_with_package_name], or the status of one of the
    commands run. *)
Definition accounts (w : world) (s : Sequential.state) (new : list event)
    (rc : Z) (s' : Sequential.state) : Prop :=
  Sequential.log s' = Sequential.log s ++ new
  ∧ Sequential.built s' = replay (Sequential.built s) new
  ∧ NoDup (ev_path <$> new)
  ∧ (∀ e, e ∈ new →
          Sequential.built s !! ev_path e = None
          ∧ is_Some (fs_files w !! ev_path e))
  ∧ (rc = 0%Z ∨ rc = (- ENOENT)%Z ∨ rc = (- ENOMEM)%Z
     ∨ ∃ e, e ∈ new ∧ event_status w e = rc).


End Accounting.

(** ** The steps of a thread, case by case *)

Module Moves.
Import Pthreads.

(** The state after thread [tid], which was at [t], has moved to [p]
    leaving the registry [b] and the log [l] and having created the
    threads [children]. *)
Definition after (s : state) (tid : nat) (t : thread) (p : pc)
    (b : gmap string string) (l : list event) (children : list thread)
    : state :=
  {| built := b; log := l;
     threads := <[tid := {| t_dir := t_dir t; t_pc := p |}]> (threads s)
                ++ children;
     crashed := false |}.

(** The cases of [step] for a thread at [t] that moves without a fault:
    the point it moves to, the registry and the log it leaves, and the
    threads it creates. *)
Inductive effect (w : world) (o : options) (s : state) (t : thread)
  : pc → gmap string string → list event → list thread → Prop :=
| effect_seen file others :
    t_pc t = PCheck file others →
    is_Some (built s !! path_join w (t_dir t) file) →
    effect w o s t (PDone 0) (built s) (log s) []
| effect_unseen file others :
    t_pc t = PCheck file others →
    built s !! path_join w (t_dir t) file = None →
    effect w o s t (PBuild file others) (built s) (log s) []
| effect_missing file others :
    t_pc t = PBuild file others →
    fs_files w !! path_join w (t_dir t) file = None →
    effect w o s t (attempt others (- ENOENT)) (built s) (log s) []
| effect_unloadable file others :
    t_pc t = PBuild file others →
    is_Some (fs_files w !! path_join w (t_dir t) file) →
    load_package w (t_dir t) (path_join w (t_dir t) file) = None →
    effect w o s t (attempt others (- ENOMEM)) (built s) (log s) []
| effect_work file others package :
    t_pc t = PBuild file others →
    is_Some (fs_files w !! path_join w (t_dir t) file) →
    load_package w (t_dir t) (path_join w (t_dir t) file) = Some package →
    effect w o s t (PSet (path_join w (t_dir t) file) package) (built s)
      (log s ++ [work_event o (t_dir t) (path_join w (t_dir t) file) package])
      []
| effect_record path package :
    t_pc t = PSet path package →
    effect w o s t (enter_dependencies o package)
      (<[path := built_flag package]> (built s)) (log s) []
| effect_loop_end package dev wave :
    t_pc t = PSpawn package dev [] wave →
    opts_concurrency o ≠ 0 →
    effect w o s t (PJoin package dev [] wave) (built s) (log s) []
| effect_create package dev dep rest wave dependency :
    t_pc t = PSpawn package dev (dep :: rest) wave →
    clib_package_new_from_slug w (dependency_slug dep) = Some dependency →
    opts_concurrency o ≠ 0 →
    effect w o s t
      (if decide (opts_concurrency o ≤ length (wave ++ [length (threads s)]))
       then PJoin package dev rest (wave ++ [length (threads s)])
       else PSpawn package dev rest (wave ++ [length (threads s)]))
      (built s) (log s)
      [ {| t_dir := path_join w (opts_dir o) (pkg_name dependency);
           t_pc := attempt package_names 0 |} ]
| effect_join package dev rest c wave c_t :
    t_pc t = PJoin package dev rest (c :: wave) →
    threads s !! c = Some c_t → is_done c_t = true →
    effect w o s t (PJoin package dev rest wave) (built s) (log s) []
| effect_resume package dev dep rest :
    t_pc t = PJoin package dev (dep :: rest) [] →
    effect w o s t (PSpawn package dev (dep :: rest) []) (built s) (log s) []
| effect_leave package dev :
    t_pc t = PJoin package dev [] [] →
    effect w o s t (if dev then PDone 0 else enter_development o package)
      (built s) (log s) [].

(** The thread can move: it has not returned and it does not wait for a
    thread that has not returned. *)
Definition runnable (s : state) (t : thread) : Prop :=
  match t_pc t with
  | PDone _ => False
  | PJoin _ _ _ (c :: _) =>
    ∃ c_t, threads s !! c = Some c_t ∧ is_done c_t = true
  | _ => True
  end.

(** The run is over: the process has faulted or every thread has
    returned. *)
Definition ended (s : state) : bool :=
  crashed s || forallb is_done (threads s).

(** The registry of a run started from [registry] accounts for the work
    logged: the entries of [registry] are kept; every other entry
    records a unit of work of the log, with its flag; the path of every
    unit of work is recorded or about to be recorded by a thread; and
    the threads that are building or recording a path work on paths
    that [registry] does not hold. *)
Definition registry_accounted (w : world) (registry : gmap string string)
    (s : state) : Prop :=
  (∀ k v, registry !! k = Some v → built s !! k = Some v)
  ∧ (∀ k v, built s !! k = Some v →
            registry !! k = Some v
            ∨ ∃ e, e ∈ log s ∧ ev_path e = k ∧ Accounting.event_flag e = v)
  ∧ (∀ e, e ∈ log s →
          ev_path e ∈ dom (built s)
          ∨ ∃ tid t package, threads s !! tid = Some t
                             ∧ t_pc t = PSet (ev_path e) package)
  ∧ ∀ tid t, threads s !! tid = Some t →
      match t_pc t with
      | PBuild file _ => registry !! path_join w (t_dir t) file = None
      | PSet path package =>
        registry !! path = None
        ∧ ∃ e, e ∈ log s ∧ ev_path e = path
               ∧ Accounting.event_flag e = built_flag package
      | _ => True
      end.

(** With a concurrency of 1 (or 0) a thread joins every thread it
    creates before it goes on. *)
Definition single_wave (t : thread) : Prop :=
  match t_pc t with
  | PSpawn _ _ _ wave => wave = []
  | PJoin _ _ _ wave => length wave ≤ 1
  | _ => True
  end.

(** The threads that have not returned wait for one another in a chain:
    of two such threads the older one waits for a thread that has not
    returned and is no younger than the other one. *)
Definition chain (s : state) : Prop :=
  ∀ tid1 tid2 t1 t2,
    threads s !! tid1 = Some t1 → threads s !! tid2 = Some t2 →
    tid1 < tid2 → is_done t1 = false → is_done t2 = false →
    ∃ package dev rest c c_t,
      t_pc t1 = PJoin package dev rest [c]
      ∧ threads s !! c = Some c_t ∧ is_done c_t = false
      ∧ tid1 < c ≤ tid2.

(** No path has its work logged twice, and a thread that is about to
    build a path builds one that is not recorded. *)
Definition once (w : world) (s : state) : Prop :=
  NoDup (ev_path <$> log s)
  ∧ ∀ tid t file others,
      threads s !! tid = Some t → t_pc t = PBuild file others →
      built s !! path_join w (t_dir t) file = None.

(** Every file that exists can be read. *)
Definition readable (w : world) : bool :=
  forallb (λ entry : string * option string, bool_decide (is_Some entry.2))
    (map_to_list (fs_files w)).

(** A thread that is about to record a path holds the package of the
    manifest at that path. *)
Definition holds_manifest (w : world) (t : thread) : Prop :=
  match t_pc t with
  | PSet path package => Graph.manifest_at w path = Some package
  | _ => True
  end.

End Moves.

(** * Properties *)

Import Examples.

(** ** Runs of the pthread build on concrete projects *)

(** C1 (the code departs from the claim): in the diamond, with the
    default concurrency of 4, the two threads created for [x] both pass
    the [hash_has] test before either reaches [hash_set], because the
    mutex is released between the test and the insertion.  After 19
    steps the path of [x] is in the registry and its build command has
    run once; thread 4, which tested the registry earlier, then runs the
    command a second time.  The run completes with the work of [x] done
    twice. *)
Theorem diamond_race_builds_twice :
  let start := Pthreads.init (BuildMain.initial_registry diamond) "/proj" in
  let middle := Pthreads.run diamond default_options (take 19 racing_schedule) start in
  let final := Pthreads.run diamond default_options racing_schedule start in
  Pthreads.built middle !! "/deps/x/clib.json" = Some "t"
  ∧ work_count "/deps/x/clib.json" (Pthreads.log middle) = 1
  ∧ Pthreads.all_done final = true
  ∧ work_count "/deps/x/clib.json" (Pthreads.log final) = 2.
Proof. vm_compute. repeat split; reflexivity. Qed.

(** C2 (the code departs from the claim): the root has the dependencies
    [x] and [y] and the directory of [x] holds no manifest.  The thread
    of [x] returns [-ENOENT]; [pthread_join(threads[j], 0)] drops that
    value and the caller returns 0.  The loop without threads returns
    the failure of [x]. *)
Theorem worker_failure_is_dropped :
  let start := Pthreads.init (BuildMain.initial_registry failing_sibling) "/proj" in
  let final := Pthreads.run failing_sibling default_options
                 failing_sibling_schedule start in
  Pthreads.all_done final = true
  ∧ Pthreads.result final 1 = Some (- ENOENT)%Z
  ∧ Pthreads.result final 0 = Some 0%Z
  ∧ ∃ s, Sequential.build_package failing_sibling default_options 3 "/proj"
           (BuildMain.initial_state failing_sibling)
         = Sequential.Ret (- ENOENT) s.
Proof. vm_compute. repeat split; try reflexivity. eexists. reflexivity. Qed.

(** ** The build without threads: one manifest name *)

Section SequentialNames.
Import Sequential.
Variables (w : world) (o : options).
Variable rec : string → state → outcome.

Lemma build_skips_recorded_path dir file s :
  is_Some (built s !! path_join w dir file) →
  build_package_with_package_name w o rec dir file s = Ret 0 s.
Proof.
  intros H. unfold build_package_with_package_name.
  by rewrite decide_True.
Qed.

Lemma build_reports_missing_manifest dir file s :
  built s !! path_join w dir file = None →
  fs_files w !! path_join w dir file = None →
  build_package_with_package_name w o rec dir file s = Ret (- ENOENT) s.
Proof.
  intros Hb Hf. unfold build_package_with_package_name.
  rewrite decide_False by (rewrite Hb; by intros [? ?]).
  unfold fs_exists. rewrite Hf. by rewrite decide_True.
Qed.

End SequentialNames.

(** ** [main] of the build tool *)

Section BuildMainFacts.
Import Sequential BuildMain.
Variables (w : world) (o : options) (fuel : nat).

Lemma build_arguments_app args arg rc s :
  build_arguments w o fuel (args ++ [arg]) rc s =
  match build_arguments w o fuel args rc s with
  | Ret _ s1 => build_arguments w o fuel [arg] rc s1
  | other => other
  end.
Proof.
  revert rc s. induction args as [|a args IH]; intros rc s; simpl.
  - reflexivity.
  - destruct (build_argument w o fuel a s) as [rc1 s1| |]; [|done..].
    rewrite IH. destruct (build_arguments w o fuel args rc1 s1); done.
Qed.

Lemma all_succeed_returns_zero args rc s :
  args ≠ [] → all_succeed w o fuel args s →
  ∃ s', build_arguments w o fuel args rc s = Ret 0 s'.
Proof.
  revert rc s. induction args as [|a args IH]; intros rc s Hne Hall; [done|].
  destruct Hall as (s1 & Hret & Hall). simpl. rewrite Hret.
  destruct args as [|b args]; [by eexists|].
  by apply IH.
Qed.

Lemma main_with_arguments argv :
  argv ≠ [] →
  main w o fuel argv =
  match build_arguments w (resolved_options w o) fuel argv 0
          (initial_state w) with
  | Ret rc s => Exited rc (report (resolved_options w o) rc s)
  | Crash => Faulted
  | OutOfFuel => NoFuel
  end.
Proof. intros Hne. unfold main. by destruct argv. Qed.

Lemma process_status_mod (rc : Z) : process_status rc = (rc mod 256)%Z.
Proof.
  unfold process_status. change 255%Z with (Z.ones 8).
  by rewrite Z.land_ones.
Qed.

End BuildMainFacts.




(** C8, as stated, fails: with the arguments [missing] and [ok] the
    first build fails with [-ENOENT] (for the directory and for the slug)
    and the second succeeds; the exit code is 0, not the first failure. *)
Lemma exit_code_forgets_first_failure :
  BuildMain.build_argument one_package default_options 3 "missing"
    (BuildMain.initial_state one_package)
  = Sequential.Ret (- ENOENT) (BuildMain.initial_state one_package)
  ∧ BuildMain.main one_package default_options 3 ["missing"; "ok"]
    = BuildMain.Exited 0
        [BuildMain.Newline; BuildMain.LoggerInfo "built 1 package"].
Proof. vm_compute. split; reflexivity. Qed.

(** C8, amended: in the build tool compiled without HAVE_PTHREADS, for
    every non-empty list of arguments, the value [main] returns is the
    result of the build of the last argument (after its fallback to the
    argument as given), run in the state the earlier arguments left,
    whatever they returned; the exit status of the process is that
    value modulo 256, its low 8 bits; the value and the status are 0
    when every argument succeeds. *)
Theorem exit_code_is_last_result (w : world) (o : options) (fuel : nat)
    (args : list string) (arg : string) :
  let o' := BuildMain.resolved_options w o in
  BuildMain.main w o fuel (args ++ [arg]) =
    match BuildMain.build_arguments w o' fuel args 0
            (BuildMain.initial_state w) with
    | Sequential.Ret _ s1 =>
      match BuildMain.build_argument w o' fuel arg s1 with
      | Sequential.Ret rc s2 => BuildMain.Exited rc (BuildMain.report o' rc s2)
      | Sequential.Crash => BuildMain.Faulted
      | Sequential.OutOfFuel => BuildMain.NoFuel
      end
    | Sequential.Crash => BuildMain.Faulted
    | Sequential.OutOfFuel => BuildMain.NoFuel
    end
  ∧ (∀ rc out,
       BuildMain.main w o fuel (args ++ [arg]) = BuildMain.Exited rc out →
       BuildMain.exit_status (BuildMain.main w o fuel (args ++ [arg]))
       = Some (rc mod 256)%Z)
  ∧ (BuildMain.all_succeed w o' fuel (args ++ [arg]) (BuildMain.initial_state w) →
     ∃ out, BuildMain.main w o fuel (args ++ [arg]) = BuildMain.Exited 0 out
            ∧ BuildMain.exit_status (BuildMain.main w o fuel (args ++ [arg]))
              = Some 0%Z).
Proof.
  intros o'. split; [|split].
  - rewrite (main_with_arguments w o fuel) by (by destruct args).
    fold o'. rewrite build_arguments_app.
    destruct (BuildMain.build_arguments w o' fuel args 0
                (BuildMain.initial_state w)) as [rc1 s1| |]; [|done..].
    cbn [BuildMain.build_arguments].
    by destruct (BuildMain.build_argument w o' fuel arg s1).
  - intros rc out ->. cbn [BuildMain.exit_status].
    by rewrite process_status_mod.
  - intros Hall.
    rewrite (main_with_arguments w o fuel) by (by destruct args).
    fold o'.
    destruct (all_succeed_returns_zero w o' fuel (args ++ [arg])%list 0%Z
                (BuildMain.initial_state w)) as [s' Hs'];
      [by destruct args | done |].
    rewrite Hs'. by eexists.
Qed.

Lemma exit_code_is_last_result_witness :
  ∃ out, BuildMain.main one_package default_options 3 ([] ++ ["ok"])
         = BuildMain.Exited 0 out
         ∧ BuildMain.exit_status
             (BuildMain.main one_package default_options 3 ([] ++ ["ok"]))
           = Some 0%Z.
Proof.
  apply (exit_code_is_last_result one_package default_options 3 [] "ok").
  vm_compute. eexists. split; [reflexivity | exact I].
Defined.

(** ** The install tool: identity back-fill *)

Section CStrings.
Import Install.

Lemma c_string_strdup_prefix (l : list ascii) (rest : list ascii) :
  zero ∉ l → c_string (l ++ zero :: rest) = Some (String.string_of_list_ascii l).
Proof.
  induction l as [|c l IH]; intros Hz; cbn [app c_string].
  - by rewrite decide_True.
  - rewrite decide_False by (intros ->; apply Hz; by left).
    rewrite IH; [done|]. intros Hin. apply Hz. by right.
Qed.

Lemma c_string_without_nul (l : list ascii) :
  zero ∉ l → c_string l = None.
Proof.
  induction l as [|c l IH]; intros Hz; cbn [c_string]; [done|].
  rewrite decide_False by (intros ->; apply Hz; by left).
  rewrite IH; [done|]. intros Hin. apply Hz. by right.
Qed.

(** Whenever the slug has an ['@'], the memory assigned to [pkg->repo]
    holds the characters before it and no terminator. *)
Lemma derived_repo_unterminated (slug : string) (n : nat) :
  String.index 0 "@" slug = Some n →
  zero ∉ String.list_ascii_of_string slug →
  derived_repo slug = take n (String.list_ascii_of_string slug)
  ∧ c_string (derived_repo slug) = None.
Proof.
  intros Hidx Hz. unfold derived_repo. rewrite Hidx. split; [done|].
  apply c_string_without_nul. intros Hin. apply Hz.
  by eapply subseteq_take.
Qed.
End CStrings.

(** C9 (the code departs from the claim): for the argument
    [foo/bar@1.2.0] and a resolved package whose repo is [foo/bar], the
    back-fill allocates 7 characters and copies ["foo/bar"] into them
    without a terminating NUL ([malloc(sizeof(char) * length)] and
    [memcpy], no [length + 1]), so [pkg->repo] is not the string
    ["foo/bar"]: no C string starts there.  Saving the dependency then
    reads past the allocation.  With the argument [foo/bar] no back-fill
    happens and the dependency is saved. *)
Theorem backfill_drops_the_terminator :
  Install.backfill_repo "foo/bar@1.2.0" foo_bar
  = Some {| Install.p_name := "bar"; Install.p_version := "1.2.0";
            Install.p_repo :=
              Some (String.list_ascii_of_string "foo/bar") |}
  ∧ Install.c_string (String.list_ascii_of_string "foo/bar") = None
  ∧ Install.c_string (Install.strdup "foo/bar") = Some "foo/bar"
  ∧ Install.install_package registry_env save_options "foo/bar@1.2.0"
      app_directory = None
  ∧ Install.install_package registry_env save_options "foo/bar"
      app_directory
    = Some (0%Z,
            {| Install.files :=
                 {[ "clib.json" := print_json app_manifest_with_foo_bar ]};
               Install.installed := ["bar"]; Install.trace := [] |}).
Proof. vm_compute. repeat split; reflexivity. Qed.

(** ** The install tool: the loop over the arguments *)

Section InstallLoop.
Import Install.
Variables (e : env) (o : options).

Lemma write_dependency_with_package_name_trace pkg prefix file s rc s' :
  write_dependency_with_package_name e pkg prefix file s = Some (rc, s') →
  trace s' = trace s ∧ installed s' = installed s.
Proof.
  unfold write_dependency_with_package_name. intros H.
  destruct (json_parse_file e s file) as [[]|]; simplify_eq; try done.
  destruct (p_repo pkg) as [memory|]; simpl in H.
  - destruct (c_string memory); simpl in H; [|done].
    destruct (fs_writable e file); by simplify_eq.
  - destruct (fs_writable e file); by simplify_eq.
Qed.

Lemma write_dependency_names_trace pkg prefix names rc0 s rc s' :
  write_dependency_names e pkg prefix names rc0 s = Some (rc, s') →
  trace s' = trace s ∧ installed s' = installed s.
Proof.
  revert rc0 s. induction names as [|name names IH]; intros rc0 s H; simpl in H.
  - by simplify_eq.
  - destruct (write_dependency_with_package_name e pkg prefix name s)
      as [[rc1 s1]|] eqn:Hw; simpl in H; [|done].
    apply write_dependency_with_package_name_trace in Hw as [Ht Hi].
    case_decide; simplify_eq; [done|].
    apply IH in H as [? ?]. split; congruence.
Qed.

Lemma install_package_trace slug s rc s' :
  install_package e o slug s = Some (rc, s') → trace s' = trace s.
Proof.
  unfold install_package, fetch. intros H.
  repeat case_decide; simplify_eq; try done;
    destruct (clib_package_new_from_slug e slug) as [pkg|];
    simplify_eq; try done;
    repeat case_decide; simplify_eq; try done.
  all: destruct (backfill_repo slug pkg) as [pkg'|]; simpl in H; [|done].
  all: destruct (opts_nosave o); simplify_eq; try done.
  all: unfold save_dev_dependency, save_dependency, write_dependency in H.
  all: destruct (opts_savedev o).
  all: match type of H with
       | context [write_dependency_names ?a ?b ?c ?d ?f ?g] =>
         destruct (write_dependency_names a b c d f g) as [[rc2 s2]|] eqn:Hw;
           simpl in H; [|done]
       end.
  all: apply write_dependency_names_trace in Hw as [Ht _].
  all: by simplify_eq.
Qed.

(** A run that returns 0 has announced and processed every argument. *)
Lemma install_packages_zero_trace pkgs s s' :
  install_packages e o pkgs s = Some (0%Z, s') →
  trace s' = (trace s ++ pkgs)%list.
Proof.
  revert s. induction pkgs as [|slug pkgs IH]; intros s H; simpl in H.
  - simplify_eq. by rewrite app_nil_r.
  - match type of H with
    | context [install_package e o slug ?s0] =>
      destruct (install_package e o slug s0) as [[rc s1]|] eqn:Hi;
        simpl in H; [|done]
    end.
    apply install_package_trace in Hi. simpl in Hi.
    case_decide; [done|]. apply IH in H. rewrite H, Hi.
    by rewrite <- app_assoc.
Qed.

Lemma install_packages_app pre post s s1 :
  install_packages e o pre s = Some (0%Z, s1) →
  install_packages e o (pre ++ post) s = install_packages e o post s1.
Proof.
  revert s. induction pre as [|slug pre IH]; intros s H; simpl in H.
  - by simplify_eq.
  - simpl.
    match type of H with
    | context [install_package e o slug ?s0] =>
      destruct (install_package e o slug s0) as [[rc s2]|] eqn:Hi;
        simpl in H |- *; [|done]
    end.
    case_decide; [done|]. by apply IH.
Qed.
End InstallLoop.

(** C4, as stated, fails: when [no/such] does not resolve,
    [install_packages] returns 1 at once; the argument [foo/bar] that
    follows is neither announced nor fetched. *)
Lemma failed_argument_stops_the_loop :
  Install.install_packages registry_env save_options ["no/such"; "foo/bar"]
    app_directory
  = Some (1%Z,
          {| Install.files := Install.files app_directory;
             Install.installed := [];
             Install.trace := ["no/such"] |}).
Proof. vm_compute. reflexivity. Qed.

(** C4, amended: [install_packages] processes the arguments in order up
    to the first one for which [install_package] returns -1; there it
    returns the exit status 1, in the state that argument left, and the
    arguments after it are not processed.  A run that returns 0 has
    processed every argument. *)
Theorem install_stops_at_first_failure (e : Install.env) (o : Install.options)
    (pre post : list string) (slug : string) (s s1 s2 : Install.state) :
  Install.install_packages e o pre s = Some (0%Z, s1) →
  Install.install_package e o slug
    {| Install.files := Install.files s1;
       Install.installed := Install.installed s1;
       Install.trace := Install.trace s1 ++ [slug] |}
  = Some ((-1)%Z, s2) →
  Install.install_packages e o (pre ++ slug :: post) s = Some (1%Z, s2)
  ∧ Install.trace s2 = (Install.trace s ++ pre ++ [slug])%list
  ∧ ∀ pkgs s', Install.install_packages e o pkgs s = Some (0%Z, s') →
               Install.trace s' = (Install.trace s ++ pkgs)%list.
Proof.
  intros Hpre Hslug. split; [|split].
  - rewrite (install_packages_app e o pre (slug :: post) s s1 Hpre).
    cbn [Install.install_packages]. rewrite Hslug. reflexivity.
  - apply install_package_trace in Hslug. simpl in Hslug.
    apply install_packages_zero_trace in Hpre.
    rewrite Hslug, Hpre. by rewrite <- app_assoc.
  - intros pkgs s'. apply install_packages_zero_trace.
Qed.

Lemma install_stops_at_first_failure_witness :
  Install.install_packages registry_env save_options
    (["foo/bar"] ++ "no/such" :: ["foo/bar"]) empty_directory
  = Some (1%Z,
          {| Install.files := ∅; Install.installed := ["bar"];
             Install.trace := ["foo/bar"; "no/such"] |}).
Proof.
  apply (install_stops_at_first_failure registry_env save_options
           ["foo/bar"] ["foo/bar"] "no/such" empty_directory
           {| Install.files := ∅; Install.installed := ["bar"];
              Install.trace := ["foo/bar"] |}).
  - vm_compute. reflexivity.
  - vm_compute. reflexivity.
Defined.

(** ** The install tool: the manifest merge *)

Section Merge.
Import Install.

Lemma get_set_value_eq members name value :
  json_object_get_value (json_object_set_value members name value) name
  = Some value.
Proof.
  induction members as [|[k v] members IH];
    cbn [json_object_get_value json_object_set_value].
  - by rewrite decide_True.
  - case_decide as Hk;
      cbn [json_object_get_value json_object_set_value].
    + by rewrite decide_True.
    + by rewrite decide_False.
Qed.

Lemma get_set_value_ne members name value key :
  key ≠ name →
  json_object_get_value (json_object_set_value members name value) key
  = json_object_get_value members key.
Proof.
  intros Hne. induction members as [|[k v] members IH];
    cbn [json_object_get_value json_object_set_value].
  - by rewrite decide_False.
  - case_decide as Hk;
      cbn [json_object_get_value json_object_set_value].
    + subst k. by rewrite !decide_False.
    + case_decide; [done|]. apply IH.
Qed.

Lemma set_set_value members name value value' :
  json_object_set_value (json_object_set_value members name value) name value'
  = json_object_set_value members name value'.
Proof.
  induction members as [|[k v] members IH];
    cbn [json_object_get_value json_object_set_value].
  - by rewrite decide_True.
  - case_decide as Hk;
      cbn [json_object_get_value json_object_set_value].
    + by rewrite decide_True.
    + rewrite decide_False by done. by rewrite IH.
Qed.

(** The section of the merged document holds the entry. *)
Lemma merge_dependency_entry members prefix repo version :
  ∃ section,
    json_object_dotget_object
      (merge_dependency members prefix repo version) prefix = Some section
    ∧ json_object_get_value section repo = Some (JString version).
Proof.
  unfold merge_dependency, json_object_dotget_object.
  destruct (json_object_get_value members prefix) as [[]|];
    rewrite get_set_value_eq; eexists; (split; [done|]);
    apply get_set_value_eq.
Qed.

(** Merging does not touch the other top-level members. *)
Lemma merge_dependency_other members prefix repo version key :
  key ≠ prefix →
  json_object_get_value (merge_dependency members prefix repo version) key
  = json_object_get_value members key.
Proof.
  intros Hne. unfold merge_dependency.
  destruct (json_object_dotget_object members prefix);
    by rewrite ?get_set_value_ne.
Qed.

(** Merging the same entry again changes nothing. *)
Lemma merge_dependency_idempotent members prefix repo version :
  merge_dependency (merge_dependency members prefix repo version)
    prefix repo version
  = merge_dependency members prefix repo version.
Proof.
  destruct (merge_dependency_entry members prefix repo version)
    as (section & Hsec & Hget).
  unfold merge_dependency at 1. rewrite Hsec.
  unfold merge_dependency in *.
  destruct (json_object_dotget_object members prefix) as [old|].
  - unfold json_object_dotget_object in Hsec.
    rewrite get_set_value_eq in Hsec. simplify_eq.
    by rewrite !set_set_value.
  - unfold json_object_dotget_object in Hsec.
    rewrite get_set_value_eq in Hsec. simplify_eq.
    by rewrite !set_set_value.
Qed.
End Merge.

Section ManifestWrite.
Import Install.
Variable e : env.

Lemma write_with_valid_repo pkg prefix file s members repo :
  json_parse_file e s file = Some (JObject members) →
  p_repo pkg ≫= c_string = Some repo →
  write_dependency_with_package_name e pkg prefix file s =
  if fs_writable e file then
    Some (0%Z,
          {| files := <[file := json_serialize_to_string_pretty e
                         (JObject (merge_dependency members prefix repo
                                     (p_version pkg)))]> (files s);
             installed := installed s; trace := trace s |})
  else Some ((-1)%Z, s).
Proof.
  intros Hparse Hrepo. unfold write_dependency_with_package_name.
  rewrite Hparse. destruct (p_repo pkg) as [memory|]; [|done].
  simpl in Hrepo. rewrite Hrepo. done.
Qed.

Lemma write_without_manifest pkg prefix file s :
  files s !! file = None →
  write_dependency_with_package_name e pkg prefix file s = Some (1%Z, s).
Proof.
  intros Hfile. unfold write_dependency_with_package_name, json_parse_file.
  by rewrite Hfile.
Qed.

Lemma write_names_without_manifest pkg prefix names rc s :
  (∀ name, name ∈ names → files s !! name = None) →
  ∃ rc', write_dependency_names e pkg prefix names rc s = Some (rc', s).
Proof.
  revert rc. induction names as [|name names IH]; intros rc Hnone.
  - by eexists.
  - cbn [write_dependency_names].
    rewrite write_without_manifest by (apply Hnone; by left).
    simpl. apply IH. intros n Hn. apply Hnone. by right.
Qed.
End ManifestWrite.

(** C5, as stated, fails: the merge does not keep the bytes of the
    unrelated members.  [json_serialize_to_file_pretty] prints the whole
    document anew from its parsed form, so a manifest that spells the
    member [name] with blanks around the colon is written back without
    them: the text of the member, found at offset 2 of the file before
    the merge, occurs nowhere in the file after it.  The value of the
    member is the same, and a second merge changes nothing. *)
Lemma merge_reprints_unrelated_members :
  let written :=
    {| Install.files :=
         {[ "clib.json" := print_json name_manifest_with_foo_bar ]};
       Install.installed := []; Install.trace := [] |} in
  Install.json_parse_file lenient_env spaced_directory "clib.json"
  = Some name_manifest
  ∧ Install.write_dependency_with_package_name lenient_env foo_bar
      "dependencies" "clib.json" spaced_directory
    = Some (0%Z, written)
  ∧ String.index 0 spaced_name_member spaced_manifest_text = Some 2
  ∧ String.index 0 spaced_name_member (print_json name_manifest_with_foo_bar)
    = None
  ∧ Install.json_parse_file lenient_env written "clib.json"
    = Some name_manifest_with_foo_bar
  ∧ Install.write_dependency_with_package_name lenient_env foo_bar
      "dependencies" "clib.json" written
    = Some (0%Z, written).
Proof. vm_compute. repeat split; reflexivity. Qed.

(** C5, amended: for a manifest file that parses to an object, writing
    the dependency [repo -> version] and then writing it again leaves
    the file system exactly as the first write left it, with the same
    return code; and in the file as written every top-level member other
    than the section has the value it had before (its value, not its
    bytes: the document is printed anew).  (The printer and the parser
    belong to the JSON library; what is used of them is that the
    document written parses back to itself.) *)
Theorem manifest_merge_is_idempotent (e : Install.env) (pkg : Install.package)
    (prefix file : string) (s : Install.state)
    (members : list (string * Install.json_value)) (repo : string) :
  Install.json_parse_file e s file = Some (Install.JObject members) →
  Install.p_repo pkg ≫= Install.c_string = Some repo →
  Install.json_parse_string e
    (Install.json_serialize_to_string_pretty e
       (Install.JObject
          (Install.merge_dependency members prefix repo (Install.p_version pkg))))
  = Some (Install.JObject
            (Install.merge_dependency members prefix repo (Install.p_version pkg))) →
  ∃ rc s1,
    Install.write_dependency_with_package_name e pkg prefix file s = Some (rc, s1)
    ∧ Install.write_dependency_with_package_name e pkg prefix file s1
      = Some (rc, s1)
    ∧ ∃ members1,
        Install.json_parse_file e s1 file = Some (Install.JObject members1)
        ∧ ∀ key, key ≠ prefix →
            Install.json_object_get_value members1 key
            = Install.json_object_get_value members key.
Proof.
  intros Hparse Hrepo Hround.
  rewrite (write_with_valid_repo e pkg prefix file s members repo Hparse Hrepo).
  destruct (Install.fs_writable e file) eqn:Hw.
  - eexists _, _. split; [done|].
    assert (Install.json_parse_file e
              {| Install.files :=
                   <[file := Install.json_serialize_to_string_pretty e
                      (Install.JObject
                         (Install.merge_dependency members prefix repo
                            (Install.p_version pkg)))]> (Install.files s);
                 Install.installed := Install.installed s;
                 Install.trace := Install.trace s |} file
            = Some (Install.JObject
                      (Install.merge_dependency members prefix repo
                         (Install.p_version pkg)))) as Hparse1.
    { unfold Install.json_parse_file. cbn [Install.files].
      rewrite lookup_insert_eq. exact Hround. }
    split.
    + rewrite (write_with_valid_repo e pkg prefix file _ _ repo Hparse1 Hrepo).
      rewrite Hw. cbn [Install.files Install.installed Install.trace].
      by rewrite merge_dependency_idempotent, insert_insert_eq.
    + eexists. split; [exact Hparse1|].
      intros key Hkey. by apply merge_dependency_other.
  - eexists _, _. split; [done|]. split.
    + rewrite (write_with_valid_repo e pkg prefix file s members repo Hparse Hrepo).
      by rewrite Hw.
    + by eexists.
Qed.

Lemma manifest_merge_is_idempotent_witness :
  ∃ rc s1,
    Install.write_dependency_with_package_name registry_env foo_bar
      "dependencies" "clib.json" app_directory = Some (rc, s1)
    ∧ Install.write_dependency_with_package_name registry_env foo_bar
        "dependencies" "clib.json" s1 = Some (rc, s1)
    ∧ ∃ members1,
        Install.json_parse_file registry_env s1 "clib.json"
        = Some (Install.JObject members1)
        ∧ ∀ key, key ≠ "dependencies" →
            Install.json_object_get_value members1 key
            = Install.json_object_get_value
                [("name", Install.JString "app");
                 ("version", Install.JString "0.1.0")] key.
Proof.
  apply (manifest_merge_is_idempotent registry_env foo_bar "dependencies"
           "clib.json" app_directory _ "foo/bar");
    vm_compute; reflexivity.
Defined.

(** C6, as stated, fails: installing [foo/bar@1.2.0] in a directory
    without a manifest fetches the package and leaves the directory
    without a manifest; [json_parse_file] returns NULL for both manifest
    names and [write_dependency_with_package_name] returns 1 before it
    writes anything. *)
Lemma no_manifest_is_created :
  Install.install_package registry_env save_options "foo/bar@1.2.0"
    empty_directory
  = Some (0%Z,
          {| Install.files := ∅; Install.installed := ["bar"];
             Install.trace := [] |}).
Proof. vm_compute. reflexivity. Qed.

(** C6, amended: a successful install of a remote slug with no-save and
    save-dev unset fetches the package; when no manifest file exists none
    is created; when the first manifest name exists, parses to an object
    and can be written, and the repo of the package after the back-fill
    is a well-formed string, that file is rewritten as the merged
    document, whose ["dependencies"] object maps the repo to the version
    of the package. *)
Theorem install_saves_into_existing_manifest (e : Install.env)
    (o : Install.options) (slug : string) (s : Install.state)
    (pkg : Install.package) :
  slug ≠ "." → slug ≠ "./" →
  Install.files s !! slug = None →
  Install.clib_package_new_from_slug e slug = Some pkg →
  Install.clib_package_install e pkg = 0%Z →
  (Install.opts_dev o = true →
   Install.clib_package_install_development e pkg = 0%Z) →
  Install.opts_nosave o = false →
  Install.opts_savedev o = false →
  ((∀ name, name ∈ Install.manifest_names e → Install.files s !! name = None) →
   is_Some (Install.backfill_repo slug pkg) →
   Install.install_package e o slug s
   = Some (0%Z,
           {| Install.files := Install.files s;
              Install.installed := Install.installed s ++ [Install.p_name pkg];
              Install.trace := Install.trace s |}))
  ∧ (∀ first others members pkg' repo,
       Install.manifest_names e = first :: others →
       Install.json_parse_file e s first = Some (Install.JObject members) →
       Install.fs_writable e first = true →
       Install.backfill_repo slug pkg = Some pkg' →
       Install.p_repo pkg' ≫= Install.c_string = Some repo →
       let merged := Install.merge_dependency members "dependencies" repo
                       (Install.p_version pkg) in
       Install.install_package e o slug s
       = Some (0%Z,
               {| Install.files :=
                    <[first := Install.json_serialize_to_string_pretty e
                                 (Install.JObject merged)]> (Install.files s);
                  Install.installed :=
                    Install.installed s ++ [Install.p_name pkg];
                  Install.trace := Install.trace s |})
       ∧ ∃ section,
           Install.json_object_dotget_object merged "dependencies"
           = Some section
           ∧ Install.json_object_get_value section repo
             = Some (Install.JString (Install.p_version pkg))).
Proof.
  intros Hdot Hdotslash Hfile Hresolve Hfetch Hdev Hnosave Hsavedev.
  assert (Install.install_package e o slug s
            = pkg' ← Install.backfill_repo slug pkg;
              '(_, s2) ← Install.save_dependency e pkg'
                 {| Install.files := Install.files s;
                    Install.installed :=
                      Install.installed s ++ [Install.p_name pkg];
                    Install.trace := Install.trace s |};
              Some (0%Z, s2)) as Hinstall.
  { unfold Install.install_package, Install.fetch.
    rewrite decide_False by (intros [? | ?]; congruence).
    rewrite decide_False by (by apply eq_None_not_Some).
    rewrite Hresolve, Hfetch.
    rewrite (decide_False (P := 0%Z ≠ 0%Z)) by (by intros ?).
    rewrite (decide_True (P := 0%Z = 0%Z)) by done.
    destruct (Install.opts_dev o) eqn:Hd.
    - rewrite Hdev by done.
      rewrite (decide_False (P := 0%Z ≠ 0%Z)) by (by intros ?).
      by rewrite Hnosave, Hsavedev.
    - rewrite (decide_False (P := 0%Z ≠ 0%Z)) by (by intros ?).
      by rewrite Hnosave, Hsavedev. }
  split.
  - intros Hnone [pkg' Hpkg']. rewrite Hinstall, Hpkg'. simpl.
    unfold Install.save_dependency, Install.write_dependency.
    destruct (write_names_without_manifest e pkg' "dependencies"
                (Install.manifest_names e) 0%Z
                {| Install.files := Install.files s;
                   Install.installed :=
                     Install.installed s ++ [Install.p_name pkg];
                   Install.trace := Install.trace s |} Hnone) as [rc' ->].
    done.
  - intros first others members pkg' repo Hnames Hparse Hwritable Hpkg' Hrepo
      merged.
    split; [|apply merge_dependency_entry].
    rewrite Hinstall, Hpkg'. simpl.
    unfold Install.save_dependency, Install.write_dependency.
    rewrite Hnames. cbn [Install.write_dependency_names].
    rewrite (write_with_valid_repo e pkg' "dependencies" first _ members repo)
      by done.
    rewrite Hwritable. simpl.
    assert (Install.p_version pkg' = Install.p_version pkg) as ->; [|done].
    unfold Install.backfill_repo in Hpkg'.
    destruct (Install.p_repo pkg) as [memory|]; simpl in Hpkg'.
    + destruct (Install.c_string memory); simpl in Hpkg'; [|done].
      case_decide; by simplify_eq.
    + by simplify_eq.
Qed.

Lemma install_saves_into_existing_manifest_witness :
  Install.install_package registry_env save_options "foo/bar" app_directory
  = Some (0%Z,
          {| Install.files :=
               <["clib.json" := print_json app_manifest_with_foo_bar]>
                 (Install.files app_directory);
             Install.installed := ["bar"]; Install.trace := [] |}).
Proof.
  refine (proj1 (proj2 (install_saves_into_existing_manifest registry_env
           save_options "foo/bar" app_directory foo_bar _ _ _ _ _ _ _ _)
           "clib.json" ["package.json"]
           [("name", Install.JString "app");
            ("version", Install.JString "0.1.0")]
           foo_bar "foo/bar" _ _ _ _ _));
    vm_compute; done.
Defined.


(** ** The build without threads: termination and work done once *)

Section SequentialTermination.
Import Sequential SequentialInvariants.
Variables (w : world) (o : options).

Lemma unseen_mono s s' :
  dom (built s) ⊆ dom (built s') → unseen w s' ≤ unseen w s.
Proof. intros Hsub. unfold unseen. apply subseteq_size. set_solver. Qed.

Lemma unseen_insert s path flag l :
  built s !! path = None → is_Some (fs_files w !! path) →
  unseen w {| built := <[path := flag]> (built s); log := l |} < unseen w s.
Proof.
  intros Hnone Hfile. unfold unseen. cbn [built].
  apply subset_size. rewrite dom_insert_L.
  apply elem_of_dom in Hfile. apply not_elem_of_dom in Hnone.
  set_solver.
Qed.

Lemma log_recorded_insert s path flag e :
  built s !! path = None → ev_path e = path → log_recorded s →
  log_recorded {| built := <[path := flag]> (built s); log := log s ++ [e] |}.
Proof.
  intros Hnone He [Hnodup Hin]. split; cbn [built log].
  - rewrite fmap_app. apply NoDup_app. split; [done|]. split.
    + intros p Hp Hp'. apply list_elem_of_singleton in Hp'. subst p.
      apply list_elem_of_fmap in Hp as (e' & He' & Hin').
      apply Hin in Hin'. apply not_elem_of_dom in Hnone. congruence.
    + apply NoDup_singleton.
  - intros e' He'. rewrite dom_insert_L.
    apply elem_of_app in He' as [He' | He'].
    + apply Hin in He'. set_solver.
    + apply list_elem_of_singleton in He'. subst e'. set_solver.
Qed.

Section WithRec.
Variable rec : string → state → outcome.
Variable bound : nat.
Hypothesis rec_good :
  ∀ dir s, unseen w s < bound → log_recorded s → good_outcome s (rec dir s).

Lemma build_dependencies_good deps s :
  unseen w s < bound → log_recorded s →
  good_outcome s (build_dependencies w o rec deps s).
Proof.
  revert s. induction deps as [|dep deps IH]; intros s Hlt Hlog;
    cbn [build_dependencies].
  - split; [done|done].
  - destruct (clib_package_new_from_slug w (dependency_slug dep)); [|done].
    pose proof (rec_good (path_join w (opts_dir o) (pkg_name c)) s Hlt Hlog)
      as Hrec.
    destruct (rec _ s) as [rc s'| |]; [|done..].
    destruct Hrec as [Hsub Hlog']. case_decide; [|done].
    pose proof (unseen_mono _ _ Hsub).
    specialize (IH s' ltac:(lia) Hlog').
    destruct (build_dependencies w o rec deps s') as [rc' s''| |]; [|done..].
    destruct IH as [Hsub' Hlog'']. split; [|done]. by etrans.
Qed.

Lemma build_package_with_package_name_good dir file s :
  unseen w s ≤ bound → log_recorded s →
  good_outcome s (build_package_with_package_name w o rec dir file s).
Proof.
  intros Hle Hlog. unfold build_package_with_package_name.
  case_decide as Hhas; [done|]. case_decide as Hexists; [done|].
  destruct (load_package w dir (path_join w dir file)) as [package|]; [|done].
  assert (built s !! path_join w dir file = None) as Hnone.
  { by apply eq_None_not_Some. }
  assert (is_Some (fs_files w !! path_join w dir file)) as Hfile.
  { unfold fs_exists in Hexists.
    destruct (fs_files w !! path_join w dir file); [by eexists|done]. }
  set (s1 := {| built := _; log := _ |}).
  assert (unseen w s1 < bound) as Hlt1.
  { pose proof (unseen_insert s _ (built_flag package) (log s1) Hnone Hfile).
    unfold s1 in *. cbn [log] in *. lia. }
  assert (log_recorded s1) as Hlog1 by (by apply log_recorded_insert).
  assert (dom (built s) ⊆ dom (built s1)) as Hsub1.
  { unfold s1. cbn [built]. rewrite dom_insert_L. set_solver. }
  case_decide as Hrc; [|done].
  assert (good_outcome s1
            match pkg_dependencies package with
            | Some deps => build_dependencies w o rec deps s1
            | None => Ret
                (match pkg_makefile package with
                 | Some makefile => system w (build_command o dir makefile)
                 | None => 0%Z
                 end) s1
            end) as Hdeps.
  { destruct (pkg_dependencies package); [|done].
    by apply build_dependencies_good. }
  match goal with
  | |- good_outcome _ match ?x with _ => _ end =>
    destruct x as [rc2 s2| |]; [|done..]
  end.
  destruct Hdeps as [Hsub2 Hlog2]. pose proof (unseen_mono _ _ Hsub2).
  assert (dom (built s) ⊆ dom (built s2)) by (by etrans).
  case_decide; [|done].
  destruct (pkg_development package) as [deps|]; [|done].
  destruct (opts_dev o); [|done].
  pose proof (build_dependencies_good deps s2 ltac:(lia) Hlog2) as Hdev.
  destruct (build_dependencies w o rec deps s2) as [rc3 s3| |]; [|done..].
  destruct Hdev. split; [|done]. by etrans.
Qed.

Lemma build_package_names_good dir names rc s :
  unseen w s ≤ bound → log_recorded s →
  good_outcome s (build_package_names w o rec dir names rc s).
Proof.
  revert rc s. induction names as [|name names IH]; intros rc s Hle Hlog;
    cbn [build_package_names]; [done|].
  pose proof (build_package_with_package_name_good dir name s Hle Hlog) as Hn.
  destruct (build_package_with_package_name w o rec dir name s)
    as [rc' s'| |]; [|done..].
  destruct Hn as [Hsub Hlog']. case_decide; [done|].
  pose proof (unseen_mono _ _ Hsub).
  specialize (IH rc' s' ltac:(lia) Hlog').
  destruct (build_package_names w o rec dir names rc' s') as [rc'' s''| |];
    [|done..].
  destruct IH. split; [|done]. by etrans.
Qed.
End WithRec.

(** With more fuel than there are unrecorded manifests the call comes
    back, whatever the shape of the dependency graph. *)
Lemma build_package_good fuel dir s :
  unseen w s < fuel → log_recorded s →
  good_outcome s (build_package w o fuel dir s).
Proof.
  revert dir s. induction fuel as [|fuel IH]; intros dir s Hlt Hlog; [lia|].
  cbn [build_package].
  apply (build_package_names_good (build_package w o fuel) fuel); [|lia|done].
  intros dir' s' Hlt' Hlog'. by apply IH.
Qed.

(** The recursive calls of one name attempt are all made in states where
    the path of the attempt is recorded: two implementations of the
    recursive call that agree on such states give the same attempt. *)
Lemma build_dependencies_ext rec rec' path deps s :
  (∀ dir s1 rc s2, rec dir s1 = Ret rc s2 →
                   dom (built s1) ⊆ dom (built s2)) →
  (∀ dir s', path ∈ dom (built s') → rec dir s' = rec' dir s') →
  path ∈ dom (built s) →
  build_dependencies w o rec deps s = build_dependencies w o rec' deps s.
Proof.
  intros Hmono Hagree. revert s.
  induction deps as [|dep deps IH]; intros s Hs; cbn [build_dependencies];
    [done|].
  destruct (clib_package_new_from_slug w (dependency_slug dep)); [|done].
  rewrite <- Hagree by done.
  destruct (rec _ s) as [rc s'| |] eqn:Hrec; [|done..].
  case_decide; [|done]. apply IH. apply Hmono in Hrec. set_solver.
Qed.

Lemma build_dependencies_mono rec deps s rc s' :
  (∀ dir s1 rc s2, rec dir s1 = Ret rc s2 →
                   dom (built s1) ⊆ dom (built s2)) →
  build_dependencies w o rec deps s = Ret rc s' →
  dom (built s) ⊆ dom (built s').
Proof.
  intros Hmono. revert s.
  induction deps as [|dep deps IH]; intros s H; cbn [build_dependencies] in H.
  - by simplify_eq.
  - destruct (clib_package_new_from_slug w (dependency_slug dep)); [|done].
    destruct (rec _ s) as [rc1 s1| |] eqn:Hrec; [|done..].
    apply Hmono in Hrec. case_decide.
    + apply IH in H. by etrans.
    + by simplify_eq.
Qed.

Lemma build_recurses_after_recording rec rec' dir file s :
  (∀ dir s1 rc s2, rec dir s1 = Ret rc s2 →
                   dom (built s1) ⊆ dom (built s2)) →
  (∀ dir' s', path_join w dir file ∈ dom (built s') →
              rec dir' s' = rec' dir' s') →
  build_package_with_package_name w o rec dir file s
  = build_package_with_package_name w o rec' dir file s.
Proof.
  intros Hmono Hagree. unfold build_package_with_package_name.
  case_decide; [done|]. case_decide; [done|].
  destruct (load_package w dir (path_join w dir file)) as [package|]; [|done].
  set (s1 := {| built := _; log := _ |}).
  assert (path_join w dir file ∈ dom (built s1)) as Hs1.
  { unfold s1. cbn [built]. rewrite dom_insert_L. set_solver. }
  case_decide; [|done].
  assert (match pkg_dependencies package with
          | Some deps => build_dependencies w o rec deps s1
          | None => Ret
              (match pkg_makefile package with
               | Some makefile => system w (build_command o dir makefile)
               | None => 0%Z
               end) s1
          end
          = match pkg_dependencies package with
            | Some deps => build_dependencies w o rec' deps s1
            | None => Ret
                (match pkg_makefile package with
                 | Some makefile => system w (build_command o dir makefile)
                 | None => 0%Z
                 end) s1
            end) as <-.
  { destruct (pkg_dependencies package); [|done].
    by apply (build_dependencies_ext rec rec' (path_join w dir file)). }
  destruct (pkg_dependencies package) as [deps|] eqn:Hdeps.
  - destruct (build_dependencies w o rec deps s1) as [rc2 s2| |] eqn:Hb;
      [|done..].
    case_decide; [|done].
    destruct (pkg_development package); [|done].
    destruct (opts_dev o); [|done].
    apply (build_dependencies_ext rec rec' (path_join w dir file)); try done.
    apply build_dependencies_mono in Hb; [|done]. set_solver.
  - case_decide; [|done].
    destruct (pkg_development package); [|done].
    destruct (opts_dev o); [|done].
    by apply (build_dependencies_ext rec rec' (path_join w dir file)).
Qed.
End SequentialTermination.

(** C10, as stated, fails: the registry is keyed by the path of the
    manifest, not by the directory.  In a directory that holds both
    manifests, each with a makefile, and in which [make] fails, the
    build without threads records [clib.json], returns the failure, and
    [build_package] goes on to [package.json]: the directory is processed
    twice in one run. *)
Lemma directory_is_processed_twice :
  ∃ s, Sequential.build_package two_manifests default_options 1 "/proj"
         (BuildMain.initial_state two_manifests)
       = Sequential.Ret 512 s
       ∧ ev_dir <$> Sequential.log s = ["/proj"; "/proj"]
       ∧ ev_path <$> Sequential.log s
         = ["/proj/clib.json"; "/proj/package.json"].
Proof. eexists. vm_compute. repeat split; reflexivity. Qed.

(** C10, amended: in the build without threads, an attempt on a manifest
    path that is already in the registry returns 0 at once and leaves
    the state as it is; every recursive call of an attempt is made after
    its manifest path was recorded; a call given more fuel than there are
    unrecorded manifest files comes back, whatever the shape of the
    dependency graph (cycles included); and in the state it returns no
    manifest path has its work logged twice. *)
Theorem sequential_build_works_each_path_once (w : world) (o : options)
    (fuel : nat) (dir : string) (s : Sequential.state) :
  SequentialInvariants.unseen w s < fuel →
  SequentialInvariants.log_recorded s →
  (∀ file rec,
     is_Some (Sequential.built s !! path_join w dir file) →
     Sequential.build_package_with_package_name w o rec dir file s
     = Sequential.Ret 0 s)
  ∧ (∀ file rec rec',
       (∀ dir s1 rc s2, rec dir s1 = Sequential.Ret rc s2 →
          dom (Sequential.built s1) ⊆ dom (Sequential.built s2)) →
       (∀ dir' s', path_join w dir file ∈ dom (Sequential.built s') →
          rec dir' s' = rec' dir' s') →
       Sequential.build_package_with_package_name w o rec dir file s
       = Sequential.build_package_with_package_name w o rec' dir file s)
  ∧ Sequential.build_package w o fuel dir s ≠ Sequential.OutOfFuel
  ∧ ∀ rc s', Sequential.build_package w o fuel dir s = Sequential.Ret rc s' →
             NoDup (ev_path <$> Sequential.log s')
             ∧ dom (Sequential.built s) ⊆ dom (Sequential.built s').
Proof.
  intros Hfuel Hlog.
  pose proof (build_package_good w o fuel dir s Hfuel Hlog) as Hgood.
  split; [|split; [|split]].
  - intros file rec. apply build_skips_recorded_path.
  - intros file rec rec'. apply build_recurses_after_recording.
  - intros Hout. by rewrite Hout in Hgood.
  - intros rc s' Hret. rewrite Hret in Hgood.
    destruct Hgood as [Hsub [Hnodup _]]. done.
Qed.

Lemma sequential_build_works_each_path_once_witness :
  Sequential.build_package cycle default_options 4 "/proj"
    (BuildMain.initial_state cycle)
  ≠ Sequential.OutOfFuel.
Proof.
  refine (proj1 (proj2 (proj2 (sequential_build_works_each_path_once cycle
            default_options 4 "/proj" (BuildMain.initial_state cycle) _ _)))).
  - vm_compute. lia.
  - split; cbn.
    + constructor.
    + intros e He. by apply elem_of_nil in He.
Defined.

(** ** Graphs in which every item succeeds *)

Section GraphFacts.
Import Graph.
Variables (w : world) (o : options) (dirs : list string)
  (registry : gmap string string) (root : string).
Hypothesis graph_is_ok : graph_ok w o dirs registry = true.
Hypothesis root_in_dirs : root ∈ dirs.

Lemma dir_manifest_cases dir path package :
  dir_manifest w dir = Some (path, package) →
  manifest_at w path = Some package
  ∧ (path = path_join w dir "clib.json"
     ∨ (path = path_join w dir "package.json"
        ∧ fs_files w !! path_join w dir "clib.json" = None)).
Proof.
  unfold dir_manifest. intros H.
  destruct (manifest_at w (path_join w dir "clib.json")) as [p|] eqn:H0.
  - simplify_eq. split; [done|by left].
  - destruct (fs_files w !! path_join w dir "clib.json") eqn:Hf; [done|].
    destruct (manifest_at w (path_join w dir "package.json")) as [p|] eqn:H1;
      simpl in H; [|done].
    simplify_eq. split; [done|by right].
Qed.

Lemma manifest_at_exists path package :
  manifest_at w path = Some package →
  fs_exists w path = 0%Z
  ∧ ∀ dir, load_package w dir path = Some package.
Proof.
  unfold manifest_at, fs_exists, load_package, fs_read. intros H.
  destruct (fs_files w !! path) as [[json|]|]; simpl in *; try done.
Qed.

Lemma graph_ok_dir dir :
  dir ∈ dirs →
  ∃ path package,
    dir_manifest w dir = Some (path, package)
    ∧ command_succeeds w o dir package = true
    ∧ (∀ dep, dep ∈ active_dependencies o package →
         ∃ dir', dependency_dir w o dep = Some dir' ∧ dir' ∈ dirs)
    ∧ ∀ file, file ∈ package_names →
        registry !! path_join w dir file = None.
Proof.
  intros Hdir. unfold graph_ok in graph_is_ok.
  rewrite forallb_forall in graph_is_ok.
  apply list_elem_of_In, graph_is_ok in Hdir.
  apply andb_prop in Hdir as [Hok Hfresh]. unfold dir_ok in Hok.
  destruct (dir_manifest w dir) as [[path package]|]; [|done].
  apply andb_prop in Hok as [Hcmd Hdeps].
  exists path, package. split; [done|]. split; [done|]. split.
  - intros dep Hdep. rewrite forallb_forall in Hdeps.
    apply list_elem_of_In, Hdeps in Hdep.
    destruct (dependency_dir w o dep) as [dir'|]; [|done].
    exists dir'. split; [done|]. by apply bool_decide_eq_true in Hdep.
  - intros file Hfile. unfold dir_fresh in Hfresh.
    rewrite forallb_forall in Hfresh.
    apply list_elem_of_In, Hfresh in Hfile.
    by apply bool_decide_eq_true in Hfile.
Qed.

Lemma reach_dirs dir : reach w o root dir → dir ∈ dirs.
Proof.
  induction 1 as [|dir path package dep dir' _ IH Hman Hdep Hdir]; [done|].
  destruct (graph_ok_dir dir IH) as (p & pk & Hman' & _ & Hdeps & _).
  rewrite Hman in Hman'. simplify_eq.
  destruct (Hdeps dep Hdep) as (d & Hd & Hin). by simplify_eq.
Qed.

Lemma reached_manifest_fresh path package :
  reached_manifest w o root path package → registry !! path = None.
Proof.
  intros (dir & Hreach & Hman). apply reach_dirs in Hreach.
  destruct (graph_ok_dir dir Hreach) as (_ & _ & _ & _ & _ & Hfresh).
  apply dir_manifest_cases in Hman as [_ [-> | [-> _]]];
    apply Hfresh; unfold package_names; set_solver.
Qed.

Lemma reached_manifest_fun path package package' :
  reached_manifest w o root path package →
  reached_manifest w o root path package' → package = package'.
Proof.
  intros (dir & _ & Hman) (dir' & _ & Hman').
  apply dir_manifest_cases in Hman as [Hman _].
  apply dir_manifest_cases in Hman' as [Hman' _]. congruence.
Qed.

(** A sound and complete registry is determined by the graph. *)
Lemma sound_complete_unique r1 r2 :
  sound w o registry root r1 → sound w o registry root r2 →
  complete w o root r1 → complete w o root r2 → r1 = r2.
Proof.
  assert (∀ r1 r2 k v,
            sound w o registry root r1 → sound w o registry root r2 →
            complete w o root r2 → r1 !! k = Some v → r2 !! k = Some v)
    as Hhalf.
  { clear r1 r2. intros r1 r2 k v [_ Hs1] [Hinit2 Hs2] Hc2 Hk.
    destruct (Hs1 k v Hk) as [Hreg | (package & Hreached & ->)].
    - by apply Hinit2.
    - pose proof (Hc2 k package Hreached) as Hdom.
      apply elem_of_dom in Hdom as [v2 Hv2]. rewrite Hv2.
      destruct (Hs2 k v2 Hv2) as [Hreg | (package' & Hreached' & ->)].
      + by rewrite (reached_manifest_fresh k package Hreached) in Hreg.
      + by rewrite (reached_manifest_fun k package package' Hreached Hreached'). }
  intros Hs1 Hs2 Hc1 Hc2. apply map_eq. intros k.
  destruct (r1 !! k) as [v|] eqn:H1.
  - symmetry. by apply (Hhalf r1 r2).
  - destruct (r2 !! k) as [v|] eqn:H2; [|done].
    rewrite (Hhalf r2 r1 k v) in H1; done.
Qed.

(** A closed registry that holds the manifest of the root is complete. *)
Lemma closed_complete r :
  closed_except w o root ∅ r →
  (∃ path package, dir_manifest w root = Some (path, package) ∧ path ∈ dom r) →
  complete w o root r.
Proof.
  intros Hclosed (rpath & rpackage & Hrman & Hrdom) path package
    (dir & Hreach & Hman).
  revert path package Hman.
  induction Hreach as [|dir path0 package0 dep dir' Hreach IH Hman0 Hdep Hdir];
    intros path package Hman.
  - by simplify_eq.
  - destruct (Hclosed path0 package0 dep dir') as (p & pk & Hp & Hdom);
      try done.
    + by exists dir.
    + by eapply IH.
    + by simplify_eq.
Qed.
End GraphFacts.


(** ** The build without threads on such a graph *)

Section SequentialOnGraph.
Import Graph Sequential SequentialInvariants Agreement.
Variables (w : world) (o : options) (dirs : list string)
  (registry : gmap string string) (root : string).
Hypothesis graph_is_ok : graph_ok w o dirs registry = true.
Hypothesis root_in_dirs : root ∈ dirs.

Lemma closed_except_grow gray path r r' :
  closed_except w o root gray r → dom r ⊆ dom r' →
  dom r' ⊆ dom r ∪ {[path]} →
  closed_except w o root (gray ∪ {[path]}) r'.
Proof.
  intros Hclosed Hsub Hsup path0 package0 dep dir' Hreached Hdom Hgray Hdep Hdir.
  destruct (Hclosed path0 package0 dep dir') as (p & pk & Hp & Hpdom);
    try done; [set_solver..|].
  exists p, pk. split; [done|]. set_solver.
Qed.

Section WithRec.
Variable rec : string → state → outcome.
Variable bound : nat.
Hypothesis rec_succeeds :
  ∀ dir s gray,
    reach w o root dir → unseen w s < bound →
    sound w o registry root (built s) →
    closed_except w o root gray (built s) →
    sequential_success w o registry root gray s dir (rec dir s).

Lemma build_dependencies_on_graph deps gray s :
  (∀ dep, dep ∈ deps →
     ∃ dir', dependency_dir w o dep = Some dir' ∧ reach w o root dir') →
  unseen w s < bound →
  sound w o registry root (built s) →
  closed_except w o root gray (built s) →
  ∃ s', build_dependencies w o rec deps s = Ret 0 s'
        ∧ dom (built s) ⊆ dom (built s')
        ∧ sound w o registry root (built s')
        ∧ closed_except w o root gray (built s')
        ∧ ∀ dep dir', dep ∈ deps → dependency_dir w o dep = Some dir' →
            ∃ path package, dir_manifest w dir' = Some (path, package)
                            ∧ path ∈ dom (built s').
Proof.
  revert s. induction deps as [|dep deps IH]; intros s Hdeps Hlt Hsound Hclosed;
    cbn [build_dependencies].
  - exists s. do 4 (split; [done|]).
    intros ? ? Hin. by apply elem_of_nil in Hin.
  - destruct (Hdeps dep) as (dir' & Hdir' & Hreach); [by left|].
    unfold dependency_dir in Hdir'.
    destruct (clib_package_new_from_slug w (dependency_slug dep))
      as [dependency|] eqn:Hslug; simpl in Hdir'; [|done].
    simplify_eq.
    destruct (rec_succeeds _ s gray Hreach Hlt Hsound Hclosed)
      as (s1 & -> & Hsub1 & Hsound1 & Hclosed1 & p1 & pk1 & Hman1 & Hdom1).
    rewrite decide_True by done.
    pose proof (unseen_mono w _ _ Hsub1).
    destruct (IH s1) as (s2 & -> & Hsub2 & Hsound2 & Hclosed2 & Hall);
      [intros d Hd; apply Hdeps; by right|lia|done|done|].
    exists s2. split; [done|]. split; [by etrans|]. split; [done|].
    split; [done|].
    intros dep' dir'' Hin Hdir''. apply elem_of_cons in Hin as [-> | Hin].
    + unfold dependency_dir in Hdir''. rewrite Hslug in Hdir''. simpl in Hdir''.
      simplify_eq. exists p1, pk1. split; [done|]. set_solver.
    + by eapply Hall.
Qed.
Lemma active_dependencies_reach dir path package dep :
  reach w o root dir → dir_manifest w dir = Some (path, package) →
  dep ∈ active_dependencies o package →
  ∃ dir', dependency_dir w o dep = Some dir' ∧ reach w o root dir'.
Proof.
  intros Hreach Hman Hdep.
  destruct (graph_ok_dir w o dirs registry graph_is_ok dir)
    as (p & pk & Hman' & _ & Hdeps & _);
    [by eapply reach_dirs|].
  rewrite Hman in Hman'. simplify_eq.
  destruct (Hdeps dep Hdep) as (dir' & Hdir' & _).
  exists dir'. split; [done|]. by eapply reach_dependency.
Qed.

Lemma attempt_processes dir file path package gray s :
  reach w o root dir → dir_manifest w dir = Some (path, package) →
  path = path_join w dir file →
  built s !! path = None →
  unseen w s ≤ bound →
  sound w o registry root (built s) →
  closed_except w o root gray (built s) →
  sequential_success w o registry root gray s dir
    (build_package_with_package_name w o rec dir file s).
Proof.
  intros Hreach Hman -> Hnone Hle Hsound Hclosed.
  pose proof (dir_manifest_cases w _ _ _ Hman) as [Hat _].
  destruct (manifest_at_exists w _ _ Hat) as [Hexists Hload].
  destruct (graph_ok_dir w o dirs registry graph_is_ok dir)
    as (p & pk & Hman' & Hcmd & _ & _); [by eapply reach_dirs|].
  rewrite Hman in Hman'. simplify_eq.
  assert (match pkg_makefile pk with
          | Some makefile => system w (build_command o dir makefile)
          | None => 0%Z
          end = 0%Z) as Hrc.
  { unfold command_succeeds in Hcmd. destruct (pkg_makefile pk); [|done].
    by apply bool_decide_eq_true in Hcmd. }
  unfold build_package_with_package_name.
  rewrite decide_False by (by apply eq_None_not_Some).
  rewrite decide_False by (by rewrite Hexists).
  rewrite Hload, Hrc. rewrite decide_True by done.
  set (path := path_join w dir file) in *.
  set (s1 := {| built := _; log := _ |}).
  assert (dom (built s1) = dom (built s) ∪ {[path]}) as Hdom1.
  { unfold s1. cbn [built]. rewrite dom_insert_L. set_solver. }
  assert (unseen w s1 < bound) as Hlt1.
  { assert (is_Some (fs_files w !! path)) as Hfile.
    { unfold fs_exists in Hexists. destruct (fs_files w !! path); [by eexists|done]. }
    pose proof (unseen_insert w s path (built_flag pk) (log s1) Hnone Hfile).
    unfold s1 in *. cbn [log] in *. lia. }
  assert (sound w o registry root (built s1)) as Hsound1.
  { destruct Hsound as [Hinit Hs]. unfold s1. cbn [built]. split.
    - intros k v Hk. rewrite lookup_insert_ne; [by apply Hinit|].
      intros <-. rewrite (reached_manifest_fresh w o dirs registry root
                            graph_is_ok root_in_dirs path pk) in Hk;
        [done|by exists dir].
    - intros k v Hk. destruct (decide (path = k)) as [<-|Hne].
      + rewrite lookup_insert_eq in Hk. simplify_eq. right. exists pk.
        split; [by exists dir|done].
      + rewrite lookup_insert_ne in Hk by done. by apply Hs. }
  assert (closed_except w o root (gray ∪ {[path]}) (built s1)) as Hclosed1.
  { apply (closed_except_grow gray path (built s)); [done|set_solver..]. }
  assert (∀ deps gray' s2,
            (∀ dep, dep ∈ deps → dep ∈ active_dependencies o pk) →
            unseen w s2 < bound → sound w o registry root (built s2) →
            closed_except w o root gray' (built s2) →
            ∃ s', build_dependencies w o rec deps s2 = Ret 0 s'
              ∧ dom (built s2) ⊆ dom (built s')
              ∧ sound w o registry root (built s')
              ∧ closed_except w o root gray' (built s')
              ∧ ∀ dep dir', dep ∈ deps → dependency_dir w o dep = Some dir' →
                  ∃ path' package', dir_manifest w dir' = Some (path', package')
                                    ∧ path' ∈ dom (built s')) as Hloop.
  { intros deps gray' s2 Hdeps. apply build_dependencies_on_graph.
    intros dep Hdep. eapply active_dependencies_reach; [done..|].
    by apply Hdeps. }
  assert (∃ s2, match pkg_dependencies pk with
                | Some deps => build_dependencies w o rec deps s1
                | None => Ret 0 s1
                end = Ret 0 s2
            ∧ dom (built s1) ⊆ dom (built s2)
            ∧ sound w o registry root (built s2)
            ∧ closed_except w o root (gray ∪ {[path]}) (built s2)
            ∧ ∀ dep dir', dep ∈ default [] (pkg_dependencies pk) →
                dependency_dir w o dep = Some dir' →
                ∃ path' package', dir_manifest w dir' = Some (path', package')
                                  ∧ path' ∈ dom (built s2))
    as (s2 & -> & Hsub2 & Hsound2 & Hclosed2 & Hall2).
  { unfold active_dependencies in Hloop.
    destruct (pkg_dependencies pk) as [deps|]; simpl in *.
    - apply Hloop; try done. intros dep Hdep. apply elem_of_app. by left.
    - exists s1. do 4 (split; [done|]).
      intros ? ? Hin. by apply elem_of_nil in Hin. }
  rewrite decide_True by done.
  pose proof (unseen_mono w _ _ Hsub2).
  assert (∃ s3, match pkg_development pk with
                | Some deps =>
                  if opts_dev o then build_dependencies w o rec deps s2
                  else Ret 0 s2
                | None => Ret 0 s2
                end = Ret 0 s3
            ∧ dom (built s2) ⊆ dom (built s3)
            ∧ sound w o registry root (built s3)
            ∧ closed_except w o root (gray ∪ {[path]}) (built s3)
            ∧ ∀ dep dir',
                dep ∈ (if opts_dev o then default [] (pkg_development pk)
                       else []) →
                dependency_dir w o dep = Some dir' →
                ∃ path' package', dir_manifest w dir' = Some (path', package')
                                  ∧ path' ∈ dom (built s3))
    as (s3 & -> & Hsub3 & Hsound3 & Hclosed3 & Hall3).
  { unfold active_dependencies in Hloop.
    destruct (pkg_development pk) as [deps|]; simpl in *.
    - destruct (opts_dev o).
      + apply Hloop; try done; [|lia].
        intros dep Hdep. apply elem_of_app. by right.
      + exists s2. do 4 (split; [done|]).
        intros ? ? Hin. by apply elem_of_nil in Hin.
    - exists s2. do 4 (split; [done|]).
      intros ? ? Hin. destruct (opts_dev o); by apply elem_of_nil in Hin. }
  exists s3. split; [done|]. split; [set_solver|]. split; [done|]. split.
  - intros path0 package0 dep dir' Hreached Hdom Hgray Hdep Hdir.
    destruct (decide (path0 = path)) as [->|Hne].
    + assert (package0 = pk) as ->.
      { eapply (reached_manifest_fun w o root); [done|by exists dir]. }
      unfold active_dependencies in Hdep.
      apply elem_of_app in Hdep as [Hdep | Hdep].
      * destruct (Hall2 dep dir' Hdep Hdir) as (p' & pk' & Hp' & Hdom').
        exists p', pk'. split; [done|]. set_solver.
      * by apply (Hall3 dep dir').
    + apply (Hclosed3 path0 package0 dep dir'); try done. set_solver.
  - exists path, pk. split; [done|]. set_solver.
Qed.
(** A recorded path is the manifest of its directory whenever the
    directory is one the build leads to. *)
Lemma recorded_clib_is_manifest dir s :
  reach w o root dir →
  sound w o registry root (built s) →
  is_Some (built s !! path_join w dir "clib.json") →
  ∃ package, dir_manifest w dir = Some (path_join w dir "clib.json", package).
Proof.
  intros Hreach [_ Hs] [v Hv].
  destruct (Hs _ _ Hv) as [Hreg | (package & (dir0 & _ & Hman0) & _)].
  - destruct (graph_ok_dir w o dirs registry graph_is_ok dir)
      as (_ & _ & _ & _ & _ & Hfresh); [by eapply reach_dirs|].
    rewrite Hfresh in Hreg; [done|]. unfold package_names. set_solver.
  - apply dir_manifest_cases in Hman0 as [Hat _].
    exists package. unfold dir_manifest. by rewrite Hat.
Qed.

Lemma missing_clib_not_recorded dir s :
  reach w o root dir →
  sound w o registry root (built s) →
  fs_files w !! path_join w dir "clib.json" = None →
  built s !! path_join w dir "clib.json" = None.
Proof.
  intros Hreach Hsound Hfile. apply eq_None_not_Some. intros Hsome.
  destruct (recorded_clib_is_manifest dir s Hreach Hsound Hsome)
    as [package Hman].
  apply dir_manifest_cases in Hman as [Hat _].
  unfold manifest_at, fs_read in Hat. by rewrite Hfile in Hat.
Qed.

Lemma build_package_names_on_graph dir gray s :
  reach w o root dir → unseen w s ≤ bound →
  sound w o registry root (built s) →
  closed_except w o root gray (built s) →
  sequential_success w o registry root gray s dir
    (build_package_names w o rec dir package_names 0 s).
Proof.
  intros Hreach Hle Hsound Hclosed.
  destruct (graph_ok_dir w o dirs registry graph_is_ok dir)
    as (path & package & Hman & _); [by eapply reach_dirs|].
  assert (∀ file,
            path = path_join w dir file →
            sequential_success w o registry root gray s dir
              (build_package_with_package_name w o rec dir file s))
    as Hattempt.
  { intros file ->.
    destruct (built s !! path_join w dir file) as [v|] eqn:Hhas.
    - rewrite build_skips_recorded_path by (by rewrite Hhas).
      exists s. do 4 (split; [done|]). exists (path_join w dir file), package.
      split; [done|]. apply elem_of_dom. by rewrite Hhas.
    - by eapply attempt_processes. }
  unfold package_names. cbn [build_package_names].
  destruct (dir_manifest_cases w _ _ _ Hman) as [_ [-> | [-> Hfile]]].
  - destruct (Hattempt "clib.json" eq_refl) as (s' & Hret & Hrest).
    rewrite Hret. rewrite decide_True by done. by exists s'.
  - rewrite build_reports_missing_manifest;
      [|by apply missing_clib_not_recorded|done].
    rewrite decide_False by done.
    destruct (Hattempt "package.json" eq_refl) as (s' & Hret & Hrest).
    rewrite Hret. rewrite decide_True by done. by exists s'.
Qed.
End WithRec.

Lemma build_package_on_graph fuel dir gray s :
  reach w o root dir → unseen w s < fuel →
  sound w o registry root (built s) →
  closed_except w o root gray (built s) →
  sequential_success w o registry root gray s dir
    (build_package w o fuel dir s).
Proof.
  revert dir gray s.
  induction fuel as [|fuel IH]; intros dir gray s Hreach Hlt Hsound Hclosed;
    [lia|].
  cbn [build_package].
  apply (build_package_names_on_graph (build_package w o fuel) fuel);
    [|done|lia|done..].
  intros dir' s' gray' ? ? ? ?. by apply IH.
Qed.

(** On such a graph the build without threads returns 0 with a registry
    that is sound and complete. *)
Lemma sequential_build_on_graph :
  ∃ s, build_package w o (S (size (fs_files w))) root
         {| built := registry; log := [] |} = Ret 0 s
       ∧ sound w o registry root (built s)
       ∧ complete w o root (built s).
Proof.
  destruct (build_package_on_graph (S (size (fs_files w))) root ∅
              {| built := registry; log := [] |})
    as (s & Hret & _ & Hsound & Hclosed & Hroot).
  - apply reach_root.
  - unfold unseen. cbn [built].
    assert (size (dom (fs_files w) ∖ dom registry) ≤ size (dom (fs_files w)))
      by (apply subseteq_size; set_solver).
    rewrite size_dom in *. lia.
  - split; [done|]. intros k v Hk. by left.
  - intros path package dep dir' Hreached Hdom. cbn [built] in Hdom.
    apply elem_of_dom in Hdom as [v Hv].
    by rewrite (reached_manifest_fresh w o dirs registry root graph_is_ok
                  root_in_dirs path package Hreached) in Hv.
  - exists s. split; [done|]. split; [done|].
    by apply (closed_complete w o root).
Qed.
End SequentialOnGraph.

(** ** The pthread build on such a graph *)

Section ThreadsOnGraph.
Import Graph Pthreads Agreement.
Variables (w : world) (o : options) (dirs : list string)
  (registry : gmap string string) (root : string).
Hypothesis graph_is_ok : graph_ok w o dirs registry = true.
Hypothesis root_in_dirs : root ∈ dirs.

Lemma thread_ok_mono s s' t :
  thread_ok w o root s t → dom (built s) ⊆ dom (built s') →
  thread_ok w o root s' t.
Proof.
  intros [Hreach Hpc] Hsub. split; [done|].
  destruct (t_pc t); try done.
  - destruct Hpc as [(path & Hman & Hdom) Hpending]. split; [|done].
    exists path. split; [done|]. set_solver.
  - destruct Hpc as [(path & Hman & Hdom) Hpending]. split; [|done].
    exists path. split; [done|]. set_solver.
  - destruct Hpc as (-> & path & package & Hman & Hdom). split; [done|].
    exists path, package. split; [done|]. set_solver.
Qed.

(** The thread list after a step of thread [tid]. *)
Lemma updated_lookup (l children : list thread) tid t t' i x :
  l !! tid = Some t →
  (<[tid := t']> l ++ children) !! i = Some x →
  (i = tid ∧ x = t') ∨ (i ≠ tid ∧ l !! i = Some x) ∨ x ∈ children.
Proof.
  intros Htid Hi. apply lookup_app_Some in Hi as [Hi | [_ Hi]].
  - destruct (decide (i = tid)) as [->|Hne].
    + left. rewrite list_lookup_insert_eq in Hi by (by eapply lookup_lt_Some).
      by simplify_eq.
    + right. left. by rewrite list_lookup_insert_ne in Hi.
  - right. right. by eapply list_elem_of_lookup_2.
Qed.

Lemma updated_lookup_same (l children : list thread) tid t t' :
  l !! tid = Some t → (<[tid := t']> l ++ children) !! tid = Some t'.
Proof.
  intros Htid. apply lookup_lt_Some in Htid as Hlt.
  rewrite lookup_app_l by (by rewrite length_insert).
  by rewrite list_lookup_insert_eq.
Qed.

Lemma updated_lookup_other (l children : list thread) tid t' i x :
  i ≠ tid → l !! i = Some x → (<[tid := t']> l ++ children) !! i = Some x.
Proof.
  intros Hne Hi. apply lookup_lt_Some in Hi as Hlt.
  rewrite lookup_app_l by (by rewrite length_insert).
  by rewrite list_lookup_insert_ne.
Qed.

Lemma updated_lookup_child (l children : list thread) tid t' child :
  child ∈ children → ∃ i, (<[tid := t']> l ++ children) !! i = Some child.
Proof.
  intros Hin. apply list_elem_of_lookup in Hin as [j Hj].
  exists (length (<[tid := t']> l) + j).
  rewrite lookup_app_r by lia.
  by replace (length (<[tid := t']> l) + j - length (<[tid := t']> l)) with j
    by lia.
Qed.

(** How the invariant survives a step of thread [tid] that moves it to
    [pc'] and creates [children]. *)
Lemma invariant_update s s' tid t pc' children :
  threads_invariant w o registry root s →
  threads s !! tid = Some t →
  crashed s' = false →
  threads s' = <[tid := {| t_dir := t_dir t; t_pc := pc' |}]> (threads s)
               ++ children →
  dom (built s) ⊆ dom (built s') →
  sound w o registry root (built s') →
  thread_ok w o root s' {| t_dir := t_dir t; t_pc := pc' |} →
  (∀ child, child ∈ children → thread_ok w o root s' child) →
  (∀ dep dir', dep ∈ pending_of o (t_pc t) →
     dependency_dir w o dep = Some dir' →
     dep ∈ pending_of o pc' ∨ ∃ child, child ∈ children ∧ t_dir child = dir') →
  (∀ path package dep,
     reached_manifest w o root path package →
     path ∈ dom (built s') → path ∉ dom (built s) →
     dep ∈ active_dependencies o package → dep ∈ pending_of o pc') →
  threads_invariant w o registry root s'.
Proof.
  intros (_ & _ & (t0 & Ht0 & Hroot) & Hthreads & Hcover)
    Htid Hcrashed Hlist Hsub Hsound Hnew Hchildren Htransfer Hfresh.
  split; [done|]. split; [done|]. split; [|split].
  - rewrite Hlist. destruct (decide (0 = tid)) as [<-|Hne].
    + eexists. split; [by eapply updated_lookup_same|]. by simplify_eq.
    + exists t0. split; [|done]. by apply updated_lookup_other.
  - intros i x Hi. rewrite Hlist in Hi.
    destruct (updated_lookup _ _ _ _ _ _ _ Htid Hi)
      as [[_ ->] | [[_ Hold] | Hchild]]; [done| |by apply Hchildren].
    eapply thread_ok_mono; [by eapply Hthreads|done].
  - intros path package dep dir' Hreached Hdom Hdep Hdir.
    assert (dep ∈ pending_of o pc' → covered o s' dep dir') as Hpending.
    { intros Hin. right. exists tid, {| t_dir := t_dir t; t_pc := pc' |}.
      split; [|done]. rewrite Hlist. by eapply updated_lookup_same. }
    destruct (decide (path ∈ dom (built s))) as [Hold|Hnot];
      [|by eapply Hpending, Hfresh].
    destruct (Hcover path package dep dir' Hreached Hold Hdep Hdir)
      as [(i & x & Hi & Hx) | (i & x & Hi & Hx)].
    + left. destruct (decide (i = tid)) as [->|Hne].
      * exists tid, {| t_dir := t_dir t; t_pc := pc' |}.
        split; [rewrite Hlist; by eapply updated_lookup_same|].
        by simplify_eq.
      * exists i, x. split; [|done]. rewrite Hlist.
        by apply updated_lookup_other.
    + destruct (decide (i = tid)) as [->|Hne].
      * simplify_eq.
        destruct (Htransfer dep dir' Hx Hdir) as [Hin | (child & Hchild & Hc)];
          [by apply Hpending|].
        left. destruct (updated_lookup_child (threads s) children tid
                          {| t_dir := t_dir t; t_pc := pc' |} child Hchild)
          as [j Hj].
        exists j, child. split; [by rewrite Hlist|done].
      * right. exists i, x. split; [|done]. rewrite Hlist.
        by apply updated_lookup_other.
Qed.
Lemma invariant_move s tid t pc' :
  threads_invariant w o registry root s →
  threads s !! tid = Some t →
  thread_ok w o root s {| t_dir := t_dir t; t_pc := pc' |} →
  (∀ dep, dep ∈ pending_of o (t_pc t) → dep ∈ pending_of o pc') →
  threads_invariant w o registry root (with_pc s tid t pc').
Proof.
  intros Hinv Htid Hok Hpending.
  apply (invariant_update s (with_pc s tid t pc') tid t pc' []).
  - done.
  - done.
  - apply Hinv.
  - unfold with_pc. cbn [threads]. by rewrite app_nil_r.
  - done.
  - apply Hinv.
  - done.
  - intros child Hchild. by apply elem_of_nil in Hchild.
  - intros dep dir' Hdep _. left. by apply Hpending.
  - intros path package dep _ Hdom Hnot. by destruct Hnot.
Qed.

Lemma pending_of_enter_development package :
  pending_of o (enter_development o package) = pending o package false [].
Proof.
  unfold enter_development, pending.
  destruct (pkg_development package), (opts_dev o); done.
Qed.

Lemma pending_of_enter_dependencies package :
  pending_of o (enter_dependencies o package)
  = active_dependencies o package.
Proof.
  unfold enter_dependencies, active_dependencies.
  destruct (pkg_dependencies package); [done|].
  apply pending_of_enter_development.
Qed.

(** A recorded manifest path of a directory the build leads to is the
    manifest of that directory. *)
Lemma recorded_is_manifest r dir file :
  reach w o root dir → sound w o registry root r →
  (file = "clib.json"
   ∨ (file = "package.json"
      ∧ fs_files w !! path_join w dir "clib.json" = None)) →
  is_Some (r !! path_join w dir file) →
  ∃ package, dir_manifest w dir = Some (path_join w dir file, package).
Proof.
  intros Hreach [_ Hs] Hfile [v Hv].
  destruct (Hs _ _ Hv) as [Hreg | (package & (dir0 & _ & Hman0) & _)].
  - destruct (graph_ok_dir w o dirs registry graph_is_ok dir)
      as (_ & _ & _ & _ & _ & Hfresh);
      [by eapply (reach_dirs w o dirs registry root)|].
    rewrite Hfresh in Hreg; [done|]. unfold package_names.
    destruct Hfile as [-> | [-> _]]; set_solver.
  - apply dir_manifest_cases in Hman0 as [Hat _].
    exists package. unfold dir_manifest.
    destruct Hfile as [-> | [-> Hnone]].
    + by rewrite Hat.
    + unfold manifest_at at 1. unfold fs_read. rewrite Hnone. simpl.
      by rewrite Hat.
Qed.

(** The manifest of a directory, seen from the name a thread is at. *)
Lemma manifest_from_name dir file others :
  reach w o root dir →
  ((file = "clib.json" ∧ others = ["package.json"])
   ∨ (file = "package.json" ∧ others = []
      ∧ fs_files w !! path_join w dir "clib.json" = None)) →
  (fs_files w !! path_join w dir file = None
   ∧ file = "clib.json" ∧ others = ["package.json"])
  ∨ ∃ package,
      dir_manifest w dir = Some (path_join w dir file, package)
      ∧ fs_exists w (path_join w dir file) = 0%Z
      ∧ load_package w dir (path_join w dir file) = Some package.
Proof.
  intros Hreach Hname.
  destruct (graph_ok_dir w o dirs registry graph_is_ok dir)
    as (path & package & Hman & _);
    [by eapply (reach_dirs w o dirs registry root)|].
  destruct (dir_manifest_cases w _ _ _ Hman) as [Hat [-> | [-> Hnone]]].
  - destruct (manifest_at_exists w _ _ Hat) as [Hexists Hload].
    destruct Hname as [[-> ->] | (-> & -> & Hnone)].
    + right. by exists package.
    + unfold fs_exists in Hexists. by rewrite Hnone in Hexists.
  - destruct (manifest_at_exists w _ _ Hat) as [Hexists Hload].
    destruct Hname as [[-> ->] | (-> & -> & _)].
    + by left.
    + right. by exists package.
Qed.
Lemma sound_insert r dir path package :
  reach w o root dir → dir_manifest w dir = Some (path, package) →
  sound w o registry root r →
  sound w o registry root (<[path := built_flag package]> r).
Proof.
  intros Hreach Hman [Hinit Hs]. split.
  - intros k v Hk. rewrite lookup_insert_ne; [by apply Hinit|].
    intros <-. rewrite (reached_manifest_fresh w o dirs registry root
                          graph_is_ok root_in_dirs path package) in Hk;
      [done|by exists dir].
  - intros k v Hk. destruct (decide (path = k)) as [<-|Hne].
    + rewrite lookup_insert_eq in Hk. simplify_eq. right. exists package.
      split; [by exists dir|done].
    + rewrite lookup_insert_ne in Hk by done. by apply Hs.
Qed.

Lemma pending_cons package dev dep rest :
  pending o package dev (dep :: rest) = dep :: pending o package dev rest.
Proof. unfold pending. by destruct dev. Qed.

(** Every step of every thread keeps the invariant. *)
Lemma step_preserves_invariant tid s s' :
  0 < opts_concurrency o →
  threads_invariant w o registry root s →
  step w o tid s = Some s' →
  threads_invariant w o registry root s'.
Proof.
  intros Hpositive Hinv Hstep. unfold step in Hstep.
  pose proof Hinv as (Hcrashed & Hsound & _ & Hthreads & _).
  rewrite Hcrashed in Hstep.
  destruct (threads s !! tid) as [t|] eqn:Htid; simpl in Hstep; [|done].
  pose proof (Hthreads tid t Htid) as [Hreach Hpc].
  destruct (t_pc t)
    as [file others|file others|path package|package dev rest wave
       |package dev rest wave|rc] eqn:Hpceq.
  - (* the registry test *)
    case_decide as Hhas; simplify_eq.
    + apply invariant_move; try done.
      * split; [done|]. cbn. split; [done|].
        destruct (recorded_is_manifest (built s) (t_dir t) file)
          as [package Hman]; try done.
        { destruct Hpc as [[-> _] | (-> & _ & Hnone)]; [by left|by right]. }
        exists (path_join w (t_dir t) file), package. split; [done|].
        by apply elem_of_dom.
      * rewrite Hpceq. intros dep Hdep. by apply elem_of_nil in Hdep.
    + apply invariant_move; try done.
      rewrite Hpceq. intros dep Hdep. by apply elem_of_nil in Hdep.
  - (* looking for the manifest and running the command *)
    destruct (manifest_from_name (t_dir t) file others Hreach Hpc)
      as [(Hnone & -> & ->) | (package & Hman & Hexists & Hload)].
    + assert (fs_exists w (path_join w (t_dir t) "clib.json") = (-1)%Z) as He.
      { unfold fs_exists. by rewrite Hnone. }
      rewrite decide_True in Hstep by done. simplify_eq.
      apply invariant_move; try done.
      * split; [done|]. cbn. right. done.
      * rewrite Hpceq. intros dep Hdep. by apply elem_of_nil in Hdep.
    + rewrite decide_False in Hstep by (by rewrite Hexists).
      rewrite Hload in Hstep. simplify_eq.
      eapply (invariant_update s _ tid t (PSet _ package) []).
      * exact Hinv.
      * exact Htid.
      * done.
      * cbn [threads]. by rewrite app_nil_r.
      * done.
      * exact Hsound.
      * split; [done|]. exact Hman.
      * intros child Hchild. by apply elem_of_nil in Hchild.
      * rewrite Hpceq. intros dep dir' Hdep. by apply elem_of_nil in Hdep.
      * intros ? ? ? _ Hdom Hnot. by destruct Hnot.
  - (* recording the path *)
    simplify_eq.
    eapply (invariant_update s _ tid t (enter_dependencies o package) []).
    + exact Hinv.
    + exact Htid.
    + done.
    + cbn [threads]. by rewrite app_nil_r.
    + cbn [built]. rewrite dom_insert_L. set_solver.
    + cbn [built]. by eapply sound_insert.
    + split; [done|]. cbn [t_pc t_dir built].
      assert (path ∈ dom (<[path := built_flag package]> (built s))) as Hdom.
      { rewrite dom_insert_L. set_solver. }
      unfold enter_dependencies, enter_development.
      destruct (pkg_dependencies package) as [deps|] eqn:Hdeps.
      { split; [by exists path|]. unfold pending, active_dependencies.
        by rewrite Hdeps. }
      destruct (pkg_development package) as [devs|] eqn:Hdevs.
      { destruct (opts_dev o) eqn:Hdev.
        - split; [by exists path|]. unfold pending, active_dependencies.
          rewrite Hdeps, Hdevs, Hdev. done.
        - split; [done|]. by exists path, package. }
      split; [done|]. by exists path, package.
    + intros child Hchild. by apply elem_of_nil in Hchild.
    + rewrite Hpceq. intros dep dir' Hdep. by apply elem_of_nil in Hdep.
    + intros path0 package0 dep Hreached Hdom Hnot Hdep.
      rewrite pending_of_enter_dependencies.
      cbn [built] in Hdom. rewrite dom_insert_L in Hdom.
      assert (path0 = path) as -> by set_solver.
      assert (package0 = package) as ->; [|done].
      eapply (reached_manifest_fun w o root); [done|].
      by exists (t_dir t).
  - (* creating a thread, or reaching the end of the loop *)
    destruct Hpc as [Hmanifest Hpending].
    rewrite decide_False in Hstep by lia.
    destruct rest as [|dep rest].
    + simplify_eq. apply invariant_move; try done.
      by rewrite Hpceq.
    + assert (dep ∈ active_dependencies o package) as Hactive.
      { apply Hpending. rewrite pending_cons. by left. }
      destruct Hmanifest as (path & Hman & Hdom).
      destruct (graph_ok_dir w o dirs registry graph_is_ok (t_dir t))
        as (p & pk & Hman' & _ & Hdeps & _);
        [by eapply (reach_dirs w o dirs registry root)|].
      rewrite Hman in Hman'. simplify_eq.
      destruct (Hdeps dep Hactive) as (dir' & Hdir' & _).
      assert (reach w o root dir') as Hreach'
        by (by eapply reach_dependency).
      unfold dependency_dir in Hdir'.
      destruct (clib_package_new_from_slug w (dependency_slug dep))
        as [dependency|] eqn:Hslug; simpl in Hdir'; [|done].
      simplify_eq.
      match goal with
      | |- threads_invariant _ _ _ _
             {| threads := <[tid := {| t_pc := ?p |}]> _ ++ [?c] |} =>
        eapply (invariant_update s _ tid t p [c])
      end.
      * exact Hinv.
      * exact Htid.
      * done.
      * done.
      * done.
      * exact Hsound.
      * split; [done|]. cbn [t_pc t_dir built].
        assert (∀ d, d ∈ pending o pk dev rest →
                     d ∈ active_dependencies o pk) as Hrest.
        { intros d Hd. apply Hpending. rewrite pending_cons. by right. }
        case_decide; (split; [by exists p|done]).
      * intros child Hchild. apply list_elem_of_singleton in Hchild as ->.
        split; [done|]. cbn. by left.
      * rewrite Hpceq. cbn [pending_of]. rewrite pending_cons.
        intros d dir'' Hd Hdir''. apply elem_of_cons in Hd as [-> | Hd].
        -- right. eexists. split; [by apply list_elem_of_singleton|].
           unfold dependency_dir in Hdir''. rewrite Hslug in Hdir''.
           simpl in Hdir''. by simplify_eq.
        -- left. by case_decide.
      * intros ? ? ? _ Hdom' Hnot. by destruct Hnot.
  - (* waiting for a thread, or leaving the join loop *)
    destruct Hpc as [Hmanifest Hpending].
    destruct wave as [|c wave].
    + destruct rest as [|dep rest]; simplify_eq.
      * destruct dev.
        -- apply invariant_move; try done.
           ++ split; [done|]. cbn. split; [done|].
              destruct Hmanifest as (path & Hman & Hdom).
              by exists path, package.
           ++ rewrite Hpceq. cbn. intros dep Hdep.
              by apply elem_of_nil in Hdep.
        -- apply invariant_move; try done.
           ++ split; [done|]. cbn [t_pc t_dir].
              unfold enter_development.
              destruct (pkg_development package) as [devs|] eqn:Hdevs.
              { destruct (opts_dev o) eqn:Hdev.
                - split; [done|]. intros d Hd. apply Hpending.
                  unfold pending in *. by rewrite Hdevs, Hdev.
                - split; [done|]. destruct Hmanifest as (path & Hman & Hdom).
                  by exists path, package. }
              split; [done|]. destruct Hmanifest as (path & Hman & Hdom).
              by exists path, package.
           ++ rewrite Hpceq, pending_of_enter_development. done.
      * apply invariant_move; try done. by rewrite Hpceq.
    + assert ((c_t ← threads s !! c;
               if is_done c_t
               then Some (with_pc s tid t (PJoin package dev rest wave))
               else None) = Some s') as Hstep' by (by destruct rest).
      destruct (threads s !! c) as [c_t|]; simpl in Hstep'; [|done].
      destruct (is_done c_t); simplify_eq.
      apply invariant_move; try done. by rewrite Hpceq.
  - done.
Qed.
Lemma init_invariant :
  threads_invariant w o registry root (init registry root).
Proof.
  split; [done|]. split; [|split; [|split]].
  - split; [done|]. intros k v Hk. by left.
  - by eexists.
  - intros tid t Ht. destruct tid as [|tid]; [|done]. cbn in Ht. simplify_eq.
    split; [apply reach_root|]. cbn. by left.
  - intros path package dep dir' Hreached Hdom. cbn [init built] in Hdom.
    apply elem_of_dom in Hdom as [v Hv].
    by rewrite (reached_manifest_fresh w o dirs registry root graph_is_ok
                  root_in_dirs path package Hreached) in Hv.
Qed.

Lemma run_preserves_invariant sched s :
  0 < opts_concurrency o →
  threads_invariant w o registry root s →
  threads_invariant w o registry root (run w o sched s).
Proof.
  intros Hpositive.
  revert s. induction sched as [|tid sched IH]; intros s Hinv; [done|].
  cbn [run foldl]. apply IH.
  destruct (step w o tid s) as [s'|] eqn:Hstep; [|done].
  by eapply step_preserves_invariant.
Qed.

(** When every thread has returned, the registry is complete and the
    outermost call has returned 0. *)
Lemma all_done_complete s :
  threads_invariant w o registry root s → all_done s = true →
  sound w o registry root (built s)
  ∧ complete w o root (built s)
  ∧ result s 0 = Some 0%Z.
Proof.
  intros (_ & Hsound & (t0 & Ht0 & Hroot) & Hthreads & Hcover) Hdone.
  apply andb_prop in Hdone as [_ Hdone]. rewrite forallb_forall in Hdone.
  assert (∀ tid t, threads s !! tid = Some t →
            t_pc t = PDone 0
            ∧ ∃ path package, dir_manifest w (t_dir t) = Some (path, package)
                              ∧ path ∈ dom (built s)) as Hall.
  { intros tid t Ht. pose proof (Hthreads tid t Ht) as [_ Hpc].
    assert (is_done t = true) as Hd.
    { apply Hdone, list_elem_of_In. by eapply list_elem_of_lookup_2. }
    unfold is_done in Hd. destruct (t_pc t); try done.
    destruct Hpc as [-> Hman]. done. }
  split; [done|]. split.
  - apply (closed_complete w o root).
    + intros path package dep dir' Hreached Hdom _ Hdep Hdir.
      destruct (Hcover path package dep dir' Hreached Hdom Hdep Hdir)
        as [(tid & t & Ht & <-) | (tid & t & Ht & Hpending)].
      * by destruct (Hall tid t Ht) as [_ Hman].
      * destruct (Hall tid t Ht) as [Hpc _]. rewrite Hpc in Hpending.
        by apply elem_of_nil in Hpending.
    + destruct (Hall 0 t0 Ht0) as [_ Hman]. by rewrite Hroot in Hman.
  - unfold result. rewrite Ht0. simpl.
    destruct (Hall 0 t0 Ht0) as [-> _]. done.
Qed.
End ThreadsOnGraph.

(** C3, as stated, fails: when the first of two dependencies has no
    manifest, the loop without threads returns [-ENOENT] at once and
    never builds the second one, while the loop with threads builds the
    second one and returns 0. *)
Lemma sequential_and_threads_differ :
  let final := Pthreads.run failing_sibling default_options
                 failing_sibling_schedule
                 (Pthreads.init (BuildMain.initial_registry failing_sibling)
                    "/proj") in
  ∃ s, Sequential.build_package failing_sibling default_options 3 "/proj"
         (BuildMain.initial_state failing_sibling)
       = Sequential.Ret (- ENOENT) s
       ∧ Sequential.built s !! "/deps/y/clib.json" = None
       ∧ Pthreads.all_done final = true
       ∧ Pthreads.result final 0 = Some 0%Z
       ∧ Pthreads.built final !! "/deps/y/clib.json" = Some "t".
Proof. eexists. vm_compute. repeat split; reflexivity. Qed.

(** ** The pthread build: some thread can always move *)

Section ThreadsProgress.
Import Pthreads Agreement.
Variables (w : world) (o : options).

Lemma waves_update s s' tid t pc' children :
  waves_ok s →
  threads s !! tid = Some t →
  threads s' = <[tid := {| t_dir := t_dir t; t_pc := pc' |}]> (threads s)
               ++ children →
  (∀ c, c ∈ wave_of pc' →
        c ∈ wave_of (t_pc t)
        ∨ length (threads s) ≤ c < length (threads s) + length children) →
  (∀ child, child ∈ children → wave_of (t_pc child) = []) →
  waves_ok s'.
Proof.
  intros Hok Htid Hlist Hwave Hchildren i x c Hi Hc.
  rewrite Hlist in Hi |- *. rewrite length_app, length_insert.
  pose proof (lookup_lt_Some _ _ _ Htid) as Hlt.
  destruct (updated_lookup _ _ _ _ _ _ _ Htid Hi)
    as [[-> ->] | [[_ Hold] | Hchild]].
  - cbn in Hc. destruct (Hwave c Hc) as [Hc' | Hc']; [|lia].
    pose proof (Hok tid t c Htid Hc'). lia.
  - pose proof (Hok i x c Hold Hc). lia.
  - rewrite (Hchildren x Hchild) in Hc. by apply elem_of_nil in Hc.
Qed.

Lemma waves_move s tid t pc' :
  waves_ok s → threads s !! tid = Some t →
  (∀ c, c ∈ wave_of pc' → c ∈ wave_of (t_pc t)) →
  waves_ok (with_pc s tid t pc').
Proof.
  intros Hok Htid Hwave.
  apply (waves_update s _ tid t pc' []); try done.
  - unfold with_pc. cbn [threads]. by rewrite app_nil_r.
  - intros c Hc. left. by apply Hwave.
  - intros child Hchild. by apply elem_of_nil in Hchild.
Qed.

Lemma step_preserves_waves tid s s' :
  waves_ok s → step w o tid s = Some s' → waves_ok s'.
Proof.
  intros Hok Hstep. unfold step in Hstep.
  destruct (crashed s); [done|].
  destruct (threads s !! tid) as [t|] eqn:Htid; simpl in Hstep; [|done].
  destruct (t_pc t)
    as [file others|file others|path package|package dev rest wave
       |package dev rest wave|rc] eqn:Hpceq.
  - case_decide; simplify_eq; apply waves_move; try done;
      intros c Hc; by apply elem_of_nil in Hc.
  - assert (∀ rc c, c ∈ wave_of (attempt others rc) → c ∈ wave_of (t_pc t))
      as Hattempt.
    { intros rc c Hc. destruct others; by apply elem_of_nil in Hc. }
    case_decide; simplify_eq;
      [apply waves_move; [done|done|apply Hattempt]|].
    destruct (load_package w (t_dir t) (path_join w (t_dir t) file))
      as [package|];
      simplify_eq; [|apply waves_move; [done|done|apply Hattempt]].
    eapply (waves_update s _ tid t (PSet _ _) []); try done.
    + cbn [threads]. by rewrite app_nil_r.
    + intros c Hc. by apply elem_of_nil in Hc.
    + intros child Hchild. by apply elem_of_nil in Hchild.
  - simplify_eq.
    eapply (waves_update s _ tid t (enter_dependencies o package) []);
      try done.
    + cbn [threads]. by rewrite app_nil_r.
    + intros c Hc. unfold enter_dependencies, enter_development in Hc.
      destruct (pkg_dependencies package), (pkg_development package),
        (opts_dev o); by apply elem_of_nil in Hc.
    + intros child Hchild. by apply elem_of_nil in Hchild.
  - case_decide; [by simplify_eq|].
    destruct rest as [|dep rest].
    + simplify_eq. apply waves_move; try done. by rewrite Hpceq.
    + destruct (clib_package_new_from_slug w (dependency_slug dep))
        as [dependency|]; simplify_eq; [|done].
      match goal with
      | |- waves_ok {| threads := <[tid := {| t_pc := ?p |}]> _ ++ [?c] |} =>
        eapply (waves_update s _ tid t p [c])
      end; try done.
      * intros c Hc. rewrite Hpceq. cbn [wave_of].
        assert (c ∈ wave ++ [length (threads s)]) as Hc'
          by (by case_decide).
        apply elem_of_app in Hc' as [Hc' | Hc']; [by left|].
        apply list_elem_of_singleton in Hc' as ->. right. cbn. lia.
      * intros child Hchild. by apply list_elem_of_singleton in Hchild as ->.
  - destruct wave as [|c wave].
    + destruct rest as [|dep rest]; simplify_eq.
      * apply waves_move; try done. intros c Hc.
        unfold enter_development in Hc.
        destruct dev, (pkg_development package), (opts_dev o);
          by apply elem_of_nil in Hc.
      * apply waves_move; try done. by rewrite Hpceq.
    + assert ((c_t ← threads s !! c;
               if is_done c_t
               then Some (with_pc s tid t (PJoin package dev rest wave))
               else None) = Some s') as Hstep' by (by destruct rest).
      destruct (threads s !! c) as [c_t|]; simpl in Hstep'; [|done].
      destruct (is_done c_t); simplify_eq.
      apply waves_move; try done. rewrite Hpceq. cbn.
      intros c' Hc'. by right.
  - done.
Qed.
(** Among the threads that have not returned there is a last one. *)
Lemma last_not_done (l : list thread) :
  forallb is_done l = false →
  ∃ i t, l !! i = Some t ∧ is_done t = false
         ∧ ∀ j t', l !! j = Some t' → i < j → is_done t' = true.
Proof.
  induction l as [|x l IH] using rev_ind; [done|].
  intros Hall. destruct (is_done x) eqn:Hx.
  - rewrite forallb_app in Hall. cbn in Hall. rewrite Hx in Hall.
    rewrite andb_true_r in Hall.
    destruct (IH Hall) as (i & t & Hi & Ht & Hlast).
    exists i, t. split; [by apply lookup_app_l_Some|]. split; [done|].
    intros j t' Hj Hlt. apply lookup_app_Some in Hj as [Hj | [_ Hj]].
    + by eapply Hlast.
    + apply list_lookup_singleton_Some in Hj as [_ <-]. done.
  - exists (length l), x. split; [|split; [done|]].
    + rewrite lookup_app_r by lia. by rewrite Nat.sub_diag.
    + intros j t' Hj Hlt. apply lookup_lt_Some in Hj.
      rewrite length_app in Hj. cbn in Hj. lia.
Qed.

(** The last thread that has not returned can move: the threads it may
    be waiting for were created after it and have returned. *)
Lemma progress s :
  crashed s = false → waves_ok s → all_done s = false →
  ∃ tid s', step w o tid s = Some s'.
Proof.
  intros Hcrashed Hok Hdone. unfold all_done in Hdone.
  rewrite Hcrashed in Hdone. cbn in Hdone.
  destruct (last_not_done _ Hdone) as (tid & t & Htid & Ht & Hlast).
  exists tid. unfold step. rewrite Hcrashed, Htid. simpl.
  unfold is_done in Ht.
  destruct (t_pc t)
    as [file others|file others|path package|package dev rest wave
       |package dev rest wave|rc] eqn:Hpceq; try done.
  - case_decide; by eexists.
  - case_decide; [by eexists|].
    destruct (load_package w (t_dir t) (path_join w (t_dir t) file));
      by eexists.
  - by eexists.
  - case_decide; [by eexists|].
    destruct rest as [|dep rest]; [by eexists|].
    destruct (clib_package_new_from_slug w (dependency_slug dep));
      by eexists.
  - destruct wave as [|c wave].
    + destruct rest; by eexists.
    + assert (tid < c < length (threads s)) as [Hlt Hc].
      { apply (Hok tid t c Htid). rewrite Hpceq. by left. }
      apply lookup_lt_is_Some in Hc as [c_t Hc_t].
      assert (∀ k : option state,
                match rest with
                | [] | _ =>
                  c_t ← threads s !! c;
                  (if is_done c_t
                   then Some (with_pc s tid t (PJoin package dev rest wave))
                   else k)
                end = Some (with_pc s tid t (PJoin package dev rest wave)))
        as Hjoin.
      { intros k. rewrite Hc_t. simpl.
        rewrite (Hlast c c_t Hc_t Hlt). by destruct rest. }
      eexists. apply (Hjoin None).
Qed.
End ThreadsProgress.

(** ** The pthread build: every step uses up some of the bound *)

Section ThreadsCost.
Import Graph Pthreads Agreement.
Variables (w : world) (o : options).

Lemma fresh_cost_mono u u' : u ≤ u' → fresh_cost w o u ≤ fresh_cost w o u'.
Proof.
  revert u. induction u' as [|u' IH]; intros u Hle.
  - by replace u with 0 by lia.
  - destruct u as [|u]; cbn [fresh_cost]; [lia|].
    specialize (IH u ltac:(lia)). nia.
Qed.

Lemma loops_cost_mono u u' : u ≤ u' → loops_cost w o u ≤ loops_cost w o u'.
Proof. intros H. unfold loops_cost. pose proof (fresh_cost_mono u u' H). nia. Qed.

Lemma name_cost_mono u u' : u ≤ u' → name_cost w o u ≤ name_cost w o u'.
Proof.
  intros H. unfold name_cost. destruct u as [|u], u' as [|u']; try lia.
  pose proof (loops_cost_mono u u' ltac:(lia)). lia.
Qed.

Lemma fresh_cost_names u : fresh_cost w o u = 2 * name_cost w o u.
Proof. unfold name_cost, loops_cost. destruct u; cbn [fresh_cost]; lia. Qed.

Lemma remaining_mono r r' skip :
  dom r ⊆ dom r' → remaining w r' skip ≤ remaining w r skip.
Proof. intros H. unfold remaining. apply subseteq_size. set_solver. Qed.

Lemma remaining_unrecorded r path :
  is_Some (fs_files w !! path) → r !! path = None →
  remaining w r ∅ = S (remaining w r {[ path ]}).
Proof.
  intros Hfile Hnone. unfold remaining.
  apply elem_of_dom in Hfile. apply not_elem_of_dom in Hnone.
  replace (dom (fs_files w) ∖ dom r ∖ ∅)
    with ({[ path ]} ∪ dom (fs_files w) ∖ dom r ∖ {[ path ]}).
  - rewrite size_union by set_solver. by rewrite size_singleton.
  - apply set_eq. intros x. destruct (decide (x = path)); set_solver.
Qed.

Lemma remaining_insert r path flag :
  remaining w (<[path := flag]> r) ∅ = remaining w r {[ path ]}.
Proof.
  unfold remaining. f_equal. rewrite dom_insert_L. set_solver.
Qed.

Lemma thread_cost_mono r r' t :
  dom r ⊆ dom r' → thread_cost w o r' t ≤ thread_cost w o r t.
Proof.
  intros Hsub. unfold thread_cost.
  pose proof (remaining_mono r r' ∅ Hsub) as Hall.
  pose proof (name_cost_mono _ _ Hall).
  pose proof (fresh_cost_mono _ _ Hall).
  destruct (t_pc t) as [| file others | path | | |]; try nia.
  - pose proof (loops_cost_mono _ _
                  (remaining_mono r r' {[ path_join w (t_dir t) file ]} Hsub)).
    destruct (fs_files w !! path_join w (t_dir t) file); nia.
  - pose proof (loops_cost_mono _ _ (remaining_mono r r' {[ path ]} Hsub)).
    lia.
Qed.

Lemma widest_bound path package :
  manifest_at w path = Some package →
  length (active_dependencies o package) ≤ widest w o.
Proof.
  unfold manifest_at, fs_read. intros Hat.
  destruct (fs_files w !! path) as [[json|]|] eqn:Hfile; simpl in Hat;
    try done.
  apply elem_of_map_to_list in Hfile.
  unfold widest.
  induction (map_to_list (fs_files w)) as [|entry l IH];
    [by apply elem_of_nil in Hfile|].
  cbn [max_list_with].
  apply elem_of_cons in Hfile as [<- | Hfile].
  - cbn. rewrite Hat. lia.
  - specialize (IH Hfile). lia.
Qed.

Lemma sum_list_with_le (f f' : thread → nat) l :
  (∀ x, f' x ≤ f x) → sum_list_with f' l ≤ sum_list_with f l.
Proof.
  intros Hle. induction l as [|x l IH]; [done|].
  cbn [sum_list_with]. specialize (Hle x). lia.
Qed.

Lemma sum_list_with_update (f f' : thread → nat) l tid t t' extra :
  l !! tid = Some t → (∀ x, f' x ≤ f x) → f' t' + extra < f t →
  sum_list_with f' (<[tid := t']> l) + extra < sum_list_with f l.
Proof.
  revert tid. induction l as [|x l IH]; intros tid Htid Hle Hlt; [done|].
  destruct tid as [|tid].
  - cbn in Htid. simplify_eq.
    change (<[0 := t']> (t :: l)) with (t' :: l).
    cbn [sum_list_with].
    pose proof (sum_list_with_le f f' l Hle). lia.
  - cbn in Htid. specialize (IH tid Htid Hle Hlt). specialize (Hle x).
    change (<[S tid := t']> (x :: l)) with (x :: <[tid := t']> l).
    cbn [sum_list_with]. lia.
Qed.

(** A step that moves thread [tid] to a cheaper point, children
    included, lowers the bound. *)
Lemma potential_update s s' tid t pc' children :
  threads s !! tid = Some t →
  threads s' = <[tid := {| t_dir := t_dir t; t_pc := pc' |}]> (threads s)
               ++ children →
  dom (built s) ⊆ dom (built s') →
  thread_cost w o (built s') {| t_dir := t_dir t; t_pc := pc' |}
  + sum_list_with (thread_cost w o (built s')) children
  < thread_cost w o (built s) t →
  potential w o s' < potential w o s.
Proof.
  intros Htid Hlist Hsub Hlt. unfold potential.
  rewrite Hlist, sum_list_with_app.
  apply (sum_list_with_update _ _ _ tid t); [done| |done].
  intros x. by apply thread_cost_mono.
Qed.

Lemma potential_move s tid t pc' :
  threads s !! tid = Some t →
  thread_cost w o (built s) {| t_dir := t_dir t; t_pc := pc' |}
  < thread_cost w o (built s) t →
  potential w o (with_pc s tid t pc') < potential w o s.
Proof.
  intros Htid Hlt.
  apply (potential_update s _ tid t pc' []); try done.
  - unfold with_pc. cbn [threads]. by rewrite app_nil_r.
  - cbn. lia.
Qed.
End ThreadsCost.

(** ** The pthread build on a graph where every item succeeds: every run
    can be carried to its end *)

Section ThreadsTermination.
Import Graph Pthreads Agreement.
Variables (w : world) (o : options) (dirs : list string)
  (registry : gmap string string) (root : string).
Hypothesis graph_is_ok : graph_ok w o dirs registry = true.
Hypothesis root_in_dirs : root ∈ dirs.

Lemma attempt_cost r dir others rc :
  thread_cost w o r {| t_dir := dir; t_pc := attempt others rc |}
  = length others * name_cost w o (remaining w r ∅).
Proof. destruct others; cbn; lia. Qed.

Lemma enter_development_cost r dir package :
  thread_cost w o r {| t_dir := dir; t_pc := enter_development o package |}
  ≤ length (pending o package false [])
    * (3 + fresh_cost w o (remaining w r ∅)) + 3.
Proof.
  unfold enter_development, pending, thread_cost. cbn.
  destruct (pkg_development package), (opts_dev o); cbn; lia.
Qed.

Lemma enter_dependencies_cost r dir package :
  thread_cost w o r {| t_dir := dir; t_pc := enter_dependencies o package |}
  ≤ length (active_dependencies o package)
    * (3 + fresh_cost w o (remaining w r ∅)) + 5.
Proof.
  unfold enter_dependencies, active_dependencies.
  destruct (pkg_dependencies package) as [deps|].
  - unfold thread_cost, pending. cbn. lia.
  - pose proof (enter_development_cost r dir package) as H.
    unfold pending in H. cbn in *. lia.
Qed.

Lemma step_lowers_potential tid s s' :
  0 < opts_concurrency o →
  threads_invariant w o registry root s →
  step w o tid s = Some s' →
  potential w o s' < potential w o s.
Proof.
  intros Hpositive Hinv Hstep.
  pose proof (step_preserves_invariant w o dirs registry root graph_is_ok
                root_in_dirs tid s s' Hpositive Hinv Hstep) as (Hcrashed' & _).
  pose proof Hinv as (Hcrashed & _ & _ & Hthreads & _).
  unfold step in Hstep. rewrite Hcrashed in Hstep.
  destruct (threads s !! tid) as [t|] eqn:Htid; simpl in Hstep; [|done].
  pose proof (Hthreads tid t Htid) as [Hreach Hpc].
  destruct (t_pc t)
    as [file others|file others|path package|package dev rest wave
       |package dev rest wave|rc] eqn:Hpceq.
  - (* the registry test *)
    case_decide as Hhas; simplify_eq; apply potential_move; try done;
      unfold thread_cost; rewrite Hpceq; cbn [t_pc t_dir].
    + unfold name_cost. lia.
    + destruct (fs_files w !! path_join w (t_dir t) file) eqn:Hfile.
      * rewrite (remaining_unrecorded w (built s)
                   (path_join w (t_dir t) file));
          [|by rewrite Hfile|by apply eq_None_not_Some].
        unfold name_cost. lia.
      * unfold name_cost. lia.
  - (* looking for the manifest and running the command *)
    assert (thread_cost w o (built s) t
            = (if fs_files w !! path_join w (t_dir t) file is Some _
               then 2 + loops_cost w o
                          (remaining w (built s)
                             {[ path_join w (t_dir t) file ]})
               else 1)
              + length others * name_cost w o (remaining w (built s) ∅))
      as Hcost by (unfold thread_cost; by rewrite Hpceq).
    case_decide as Hexists; simplify_eq.
    + apply potential_move; [done|]. rewrite attempt_cost, Hcost.
      destruct (fs_files w !! path_join w (t_dir t) file); lia.
    + destruct (load_package w (t_dir t) (path_join w (t_dir t) file))
        as [package|]; simplify_eq.
      * eapply (potential_update w o s _ tid t (PSet _ package) []);
          try done.
        -- cbn [threads]. by rewrite app_nil_r.
        -- rewrite Hcost. unfold thread_cost. cbn.
           unfold fs_exists in Hexists.
           destruct (fs_files w !! path_join w (t_dir t) file); [lia|done].
      * apply potential_move; [done|]. rewrite attempt_cost, Hcost.
        destruct (fs_files w !! path_join w (t_dir t) file); lia.
  - (* recording the path *)
    simplify_eq.
    eapply (potential_update w o s _ tid t (enter_dependencies o package) []).
    + done.
    + cbn [threads]. by rewrite app_nil_r.
    + cbn [built]. rewrite dom_insert_L. set_solver.
    + cbn [built sum_list_with].
      pose proof (enter_dependencies_cost
                    (<[path := built_flag package]> (built s))
                    (t_dir t) package) as Hle.
      rewrite remaining_insert in Hle.
      apply dir_manifest_cases in Hpc as [Hat _].
      pose proof (widest_bound w o path package Hat) as Hwide.
      unfold thread_cost at 2. rewrite Hpceq. unfold loops_cost. nia.
  - (* creating a thread, or reaching the end of the loop *)
    rewrite decide_False in Hstep by lia.
    destruct rest as [|dep rest].
    + simplify_eq. apply potential_move; [done|].
      unfold thread_cost. rewrite Hpceq. cbn. lia.
    + destruct (clib_package_new_from_slug w (dependency_slug dep))
        as [dependency|]; simplify_eq.
      match goal with
      | |- potential _ _
             {| threads := <[tid := {| t_pc := ?p |}]> _ ++ [?c] |} < _ =>
        eapply (potential_update w o s _ tid t p [c])
      end; try done.
      cbn [built sum_list_with].
      unfold thread_cost at 3. rewrite Hpceq.
      rewrite (pending_cons o package dev dep rest).
      assert (thread_cost w o (built s)
                {| t_dir := path_join w (opts_dir o) (pkg_name dependency);
                   t_pc := PCheck "clib.json" ["package.json"] |}
              = fresh_cost w o (remaining w (built s) ∅)) as ->.
      { rewrite fresh_cost_names. unfold thread_cost. cbn. lia. }
      case_decide; unfold thread_cost; cbn [t_pc t_dir];
        rewrite length_app; cbn [length];
        destruct rest, dev; lia.
  - (* waiting for a thread, or leaving the join loop *)
    destruct wave as [|c wave].
    + destruct rest as [|dep rest]; simplify_eq.
      * apply potential_move; [done|].
        unfold thread_cost at 2. rewrite Hpceq.
        destruct dev.
        -- unfold thread_cost. cbn. lia.
        -- pose proof (enter_development_cost (built s) (t_dir t) package).
           cbn [length]. lia.
      * apply potential_move; [done|].
        unfold thread_cost. rewrite Hpceq. cbn [t_pc]. lia.
    + assert ((c_t ← threads s !! c;
               if is_done c_t
               then Some (with_pc s tid t (PJoin package dev rest wave))
               else None) = Some s') as Hstep' by (by destruct rest).
      destruct (threads s !! c) as [c_t|]; simpl in Hstep'; [|done].
      destruct (is_done c_t); simplify_eq.
      apply potential_move; [done|].
      unfold thread_cost. rewrite Hpceq. cbn [t_pc length]. lia.
  - done.
Qed.
Lemma init_waves_ok : waves_ok (init registry root).
Proof.
  intros tid t c Ht Hc. destruct tid as [|tid]; [|done].
  cbn in Ht. simplify_eq. by apply elem_of_nil in Hc.
Qed.

Lemma run_preserves_waves sched s :
  waves_ok s → waves_ok (run w o sched s).
Proof.
  revert s. induction sched as [|tid sched IH]; intros s Hok; [done|].
  cbn [run foldl]. apply IH.
  destruct (step w o tid s) as [s'|] eqn:Hstep; [|done].
  by eapply step_preserves_waves.
Qed.

(** From every state of a run there is a schedule that lets every
    thread return. *)
Lemma completable s :
  0 < opts_concurrency o →
  threads_invariant w o registry root s → waves_ok s →
  ∃ sched, all_done (run w o sched s) = true.
Proof.
  intros Hpositive.
  remember (potential w o s) as n eqn:Hn. revert s Hn.
  induction n as [n IH] using lt_wf_ind. intros s -> Hinv Hwaves.
  destruct (all_done s) eqn:Hdone; [by exists []|].
  destruct (progress w o s) as (tid & s' & Hstep); [apply Hinv|done|done|].
  destruct (IH (potential w o s')) with (s := s') as [sched Hsched].
  - by eapply step_lowers_potential.
  - done.
  - by eapply (step_preserves_invariant w o dirs registry root).
  - by eapply step_preserves_waves.
  - exists (tid :: sched). cbn [run foldl]. by rewrite Hstep.
Qed.

Lemma run_app sched more s :
  run w o (sched ++ more) s = run w o more (run w o sched s).
Proof. unfold run. apply foldl_app. Qed.
End ThreadsTermination.

(** C3, amended: take a list of directories [dirs] that holds the root
    and in which nothing fails ([Graph.graph_ok]): each directory has a
    manifest that is read and parsed into a package, [clib.json], or
    [package.json] when there is no file [clib.json] at all; the build
    command of that package, if it has a makefile, returns 0; each of
    its dependencies, and with [opts.dev] each of its development
    dependencies, resolves to a package whose directory is again in
    [dirs]; and at the start the registry holds neither manifest path of
    any directory of [dirs].  Then, for every concurrency of at least 1:
    the build without threads returns 0 from the root; every run of the
    build with threads can be carried to its end; and every completed
    run, whatever the schedule, has returned 0 at the outermost call and
    leaves the registry of the build without threads: the same paths
    with the same built or not-built marks. *)
Theorem sequential_and_threads_agree (w : world) (o : options)
    (dirs : list string) (registry : gmap string string) (root : string) :
  0 < opts_concurrency o →
  Graph.graph_ok w o dirs registry = true →
  root ∈ dirs →
  ∃ s, Sequential.build_package w o (S (size (fs_files w))) root
         {| Sequential.built := registry; Sequential.log := [] |}
       = Sequential.Ret 0 s
       ∧ (∀ sched, ∃ more,
            Pthreads.all_done
              (Pthreads.run w o (sched ++ more) (Pthreads.init registry root))
            = true)
       ∧ ∀ sched,
           Pthreads.all_done
             (Pthreads.run w o sched (Pthreads.init registry root)) = true →
           Pthreads.result
             (Pthreads.run w o sched (Pthreads.init registry root)) 0
           = Some 0%Z
           ∧ Pthreads.built
               (Pthreads.run w o sched (Pthreads.init registry root))
             = Sequential.built s.
Proof.
  intros Hpositive Hok Hroot.
  destruct (sequential_build_on_graph w o dirs registry root Hok Hroot)
    as (s & Hret & Hsound & Hcomplete).
  pose proof (init_invariant w o dirs registry root Hok Hroot) as Hinit.
  exists s. split; [done|]. split.
  - intros sched.
    destruct (completable w o dirs registry root Hok Hroot
                (Pthreads.run w o sched (Pthreads.init registry root)))
      as [more Hmore].
    + done.
    + by apply (run_preserves_invariant w o dirs registry root).
    + apply run_preserves_waves, init_waves_ok.
    + exists more. by rewrite run_app.
  - intros sched Hdone.
    destruct (all_done_complete w o registry root _
                (run_preserves_invariant w o dirs registry root Hok Hroot
                   sched _ Hpositive Hinit) Hdone)
      as (Hsound' & Hcomplete' & Hresult).
    split; [done|].
    by apply (sound_complete_unique w o dirs registry root Hok Hroot).
Qed.

Lemma sequential_and_threads_agree_witness :
  ∃ s, Sequential.build_package diamond default_options
         (S (size (fs_files diamond))) "/proj"
         {| Sequential.built := BuildMain.initial_registry diamond;
            Sequential.log := [] |}
       = Sequential.Ret 0 s
       ∧ (∀ sched, ∃ more,
            Pthreads.all_done
              (Pthreads.run diamond default_options (sched ++ more)
                 (Pthreads.init (BuildMain.initial_registry diamond) "/proj"))
            = true)
       ∧ ∀ sched,
           Pthreads.all_done
             (Pthreads.run diamond default_options sched
                (Pthreads.init (BuildMain.initial_registry diamond) "/proj"))
           = true →
           Pthreads.result
             (Pthreads.run diamond default_options sched
                (Pthreads.init (BuildMain.initial_registry diamond) "/proj")) 0
           = Some 0%Z
           ∧ Pthreads.built
               (Pthreads.run diamond default_options sched
                  (Pthreads.init (BuildMain.initial_registry diamond) "/proj"))
             = Sequential.built s.
Proof.
  apply (sequential_and_threads_agree diamond default_options
           ["/proj"; "/deps/a"; "/deps/b"; "/deps/x"]).
  - vm_compute. lia.
  - vm_compute. reflexivity.
  - apply list_elem_of_here.
Defined.

(** * Further properties of the install tool *)

Section InstallFiles.
Import Install.
Variables (e : env) (o : options).

Lemma write_with_package_name_files pkg prefix file s rc s' :
  write_dependency_with_package_name e pkg prefix file s = Some (rc, s') →
  (s' = s ∧ rc ≠ 0%Z)
  ∨ (rc = 0%Z ∧ fs_writable e file = true
     ∧ (∃ members, json_parse_file e s file = Some (JObject members))
     ∧ ∃ text, files s' = <[file := text]> (files s)).
Proof.
  unfold write_dependency_with_package_name. intros H.
  destruct (json_parse_file e s file) as [[| | | | |members]|];
    simplify_eq; try (by left).
  destruct (p_repo pkg) as [memory|]; simpl in H.
  - destruct (c_string memory); simpl in H; [|done].
    destruct (fs_writable e file); simplify_eq; [|by left].
    right. split; [done|]. split; [done|]. split; by eexists.
  - destruct (fs_writable e file); simplify_eq; [|by left].
    right. split; [done|]. split; [done|]. split; by eexists.
Qed.

Lemma write_names_files pkg prefix names rc0 s rc s' :
  write_dependency_names e pkg prefix names rc0 s = Some (rc, s') →
  s' = s
  ∨ ∃ before name after text,
      names = before ++ name :: after
      ∧ rc = 0%Z
      ∧ fs_writable e name = true
      ∧ (∃ members, json_parse_file e s name = Some (JObject members))
      ∧ files s' = <[name := text]> (files s)
      ∧ ∀ n, n ∈ before →
          fs_writable e n = false
          ∨ ∀ members, json_parse_file e s n ≠ Some (JObject members).
Proof.
  revert rc0 s. induction names as [|name names IH]; intros rc0 s H;
    cbn [write_dependency_names] in H.
  - simplify_eq. by left.
  - destruct (write_dependency_with_package_name e pkg prefix name s)
      as [[rc1 s1]|] eqn:Hw; simpl in H; [|done].
    destruct (write_with_package_name_files _ _ _ _ _ _ Hw)
      as [[-> Hrc] | (-> & Hwritable & Hparse & text & Htext)].
    + rewrite decide_False in H by done.
      destruct (IH _ _ H)
        as [-> | (before & n & after & text & -> & -> & ? & ? & ? & Hbefore)];
        [by left|].
      right. exists (name :: before), n, after, text.
      do 5 (split; [done|]). intros n' Hn'.
      apply elem_of_cons in Hn' as [-> | Hn']; [|by apply Hbefore].
      unfold write_dependency_with_package_name in Hw.
      destruct (fs_writable e name) eqn:Hwr; [|by left]. right.
      intros members Hm. rewrite Hm in Hw.
      destruct (p_repo pkg) as [memory|]; simpl in Hw.
      * destruct (c_string memory); simpl in Hw; by simplify_eq.
      * by simplify_eq.
    + rewrite decide_True in H by done. simplify_eq.
      right. exists [], name, names, text.
      do 5 (split; [done|]). intros n Hn. by apply elem_of_nil in Hn.
Qed.
End InstallFiles.

(** X1: [write_dependency] changes at most one file.  Either nothing is
    written, or exactly one manifest is rewritten and 0 is returned: the
    first name of [manifest_names] that parses to an object and can be
    written ([clib.json] before [package.json]); every name before it was
    unwritable or did not parse to an object, and every other file keeps
    its content. *)
Theorem write_dependency_writes_first_usable_manifest (e : Install.env)
    (pkg : Install.package) (prefix : string) (s s' : Install.state) (rc : Z) :
  Install.write_dependency e pkg prefix s = Some (rc, s') →
  s' = s
  ∨ ∃ before name after text,
      Install.manifest_names e = before ++ name :: after
      ∧ rc = 0%Z
      ∧ Install.fs_writable e name = true
      ∧ (∃ members,
           Install.json_parse_file e s name = Some (Install.JObject members))
      ∧ Install.files s' = <[name := text]> (Install.files s)
      ∧ ∀ n, n ∈ before →
          Install.fs_writable e n = false
          ∨ ∀ members,
              Install.json_parse_file e s n ≠ Some (Install.JObject members).
Proof. apply write_names_files. Qed.

Lemma write_dependency_writes_first_usable_manifest_witness :
  {| Install.files := {[ "clib.json" := print_json app_manifest_with_foo_bar ]};
     Install.installed := []; Install.trace := [] |} = app_directory
  ∨ ∃ before name after text,
      Install.manifest_names registry_env = before ++ name :: after
      ∧ 0%Z = 0%Z
      ∧ Install.fs_writable registry_env name = true
      ∧ (∃ members,
           Install.json_parse_file registry_env app_directory name
           = Some (Install.JObject members))
      ∧ Install.files
          {| Install.files :=
               {[ "clib.json" := print_json app_manifest_with_foo_bar ]};
             Install.installed := []; Install.trace := [] |}
        = <[name := text]> (Install.files app_directory)
      ∧ ∀ n, n ∈ before →
          Install.fs_writable registry_env n = false
          ∨ ∀ members,
              Install.json_parse_file registry_env app_directory n
              ≠ Some (Install.JObject members).
Proof.
  apply (write_dependency_writes_first_usable_manifest registry_env foo_bar
           "dependencies" app_directory).
  vm_compute. reflexivity.
Defined.

Section InstallEffects.
Import Install.
Variables (e : env) (o : options).

Lemma install_local_packages_with_package_name_code file s :
  install_local_packages_with_package_name e o file s = 0%Z
  ∨ install_local_packages_with_package_name e o file s = 1%Z.
Proof.
  unfold install_local_packages_with_package_name.
  repeat (case_decide || case_match); auto.
Qed.

Lemma install_local_packages_names_code names rc s :
  rc = 0%Z ∨ rc = 1%Z →
  install_local_packages_names e o names rc s = 0%Z
  ∨ install_local_packages_names e o names rc s = 1%Z.
Proof.
  revert rc. induction names as [|name names IH]; intros rc Hrc;
    cbn [install_local_packages_names]; [done|].
  case_decide as Hz; [by left|].
  apply IH, install_local_packages_with_package_name_code.
Qed.

Lemma install_local_packages_names_zero names rc s :
  install_local_packages_names e o names rc s = 0%Z ↔
  (names = [] ∧ rc = 0%Z)
  ∨ ∃ name, name ∈ names
            ∧ install_local_packages_with_package_name e o name s = 0%Z.
Proof.
  revert rc. induction names as [|name names IH]; intros rc;
    cbn [install_local_packages_names].
  - split; [by left|]. intros [[_ ->] | (n & Hn & _)]; [done|].
    by apply elem_of_nil in Hn.
  - case_decide as Hz.
    + split; [|done]. intros _. right. exists name. split; [by left|done].
    + rewrite IH. split.
      * intros [[_ ?] | (n & Hn & Hzero)]; [done|].
        right. exists n. split; [by right|done].
      * intros [[? _] | (n & Hn & Hzero)]; [done|].
        apply elem_of_cons in Hn as [-> | Hn]; [done|].
        right. by exists n.
Qed.
End InstallEffects.

(** X3: an argument that names the working directory ([.] or [./]) or an
    existing file is installed locally, and [install_package] then
    returns 0 or 1, never -1.  So whatever the local install did,
    [install_packages] goes on with the next argument, and [main]
    called with only such an argument returns 0 even when the local
    install failed. *)
Theorem local_argument_never_stops_the_loop (e : Install.env)
    (o : Install.options) (slug : string) (rest : list string)
    (s : Install.state) :
  slug = "." ∨ slug = "./" ∨ is_Some (Install.files s !! slug) →
  ∃ rc s1,
    Install.install_package e o slug
      {| Install.files := Install.files s;
         Install.installed := Install.installed s;
         Install.trace := Install.trace s ++ [slug] |}
    = Some (rc, s1)
    ∧ (rc = 0%Z ∨ rc = 1%Z)
    ∧ Install.install_packages e o (slug :: rest) s
      = Install.install_packages e o rest s1
    ∧ Install.main e o [slug] s = Some (0%Z, s1).
Proof.
  intros Hlocal.
  assert (∃ rc s1, (rc = 0%Z ∨ rc = 1%Z)
            ∧ Install.install_package e o slug
                {| Install.files := Install.files s;
                   Install.installed := Install.installed s;
                   Install.trace := Install.trace s ++ [slug] |}
              = Some (rc, s1))
    as (rc & s1 & Hrc & Hinstall).
  { unfold Install.install_package. cbn [Install.files].
    destruct (decide (slug = "." ∨ slug = "./")) as [Hdot|Hdot].
    - eexists _, _. split; [|done].
      apply install_local_packages_names_code. by left.
    - rewrite decide_True by (by destruct Hlocal as [?|[?|?]]; [destruct Hdot; auto..|]).
      eexists _, _. split; [|done].
      apply install_local_packages_with_package_name_code. }
  assert (rc ≠ (-1)%Z) as Hne by (by destruct Hrc as [-> | ->]).
  exists rc, s1. split; [done|]. split; [done|].
  unfold Install.main. cbn [Install.install_packages].
  rewrite Hinstall. cbn [mbind option_bind].
  by destruct (decide (rc = (-1)%Z)).
Qed.

Lemma local_argument_never_stops_the_loop_witness :
  ∃ rc s1,
    Install.install_package registry_env save_options "."
      {| Install.files := Install.files app_directory;
         Install.installed := Install.installed app_directory;
         Install.trace := Install.trace app_directory ++ ["."] |}
    = Some (rc, s1)
    ∧ (rc = 0%Z ∨ rc = 1%Z)
    ∧ Install.install_packages registry_env save_options ("." :: ["foo/bar"])
        app_directory
      = Install.install_packages registry_env save_options ["foo/bar"] s1
    ∧ Install.main registry_env save_options ["."] app_directory
      = Some (0%Z, s1).
Proof.
  apply (local_argument_never_stops_the_loop registry_env save_options "."
           ["foo/bar"] app_directory).
  left. reflexivity.
Defined.

(** X4: [install_local_packages] tries the manifest names in order and
    stops at the first that installs: it returns 0 exactly when one of
    the names installs, and 1 otherwise (there is at least one manifest
    name). *)
Theorem install_local_packages_first_success (e : Install.env)
    (o : Install.options) (s : Install.state) :
  Install.manifest_names e ≠ [] →
  (Install.install_local_packages e o s = 0%Z ↔
   ∃ name, name ∈ Install.manifest_names e
           ∧ Install.install_local_packages_with_package_name e o name s = 0%Z)
  ∧ (Install.install_local_packages e o s = 0%Z
     ∨ Install.install_local_packages e o s = 1%Z).
Proof.
  intros Hnames. unfold Install.install_local_packages. split.
  - rewrite install_local_packages_names_zero. split.
    + by intros [[? _] | ?].
    + intros ?. by right.
  - apply install_local_packages_names_code. by left.
Qed.

Lemma install_local_packages_first_success_witness :
  (Install.install_local_packages registry_env save_options app_directory = 0%Z ↔
   ∃ name, name ∈ Install.manifest_names registry_env
           ∧ Install.install_local_packages_with_package_name registry_env
               save_options name app_directory = 0%Z)
  ∧ (Install.install_local_packages registry_env save_options app_directory
     = 0%Z
     ∨ Install.install_local_packages registry_env save_options app_directory
       = 1%Z).
Proof.
  apply (install_local_packages_first_success registry_env save_options
           app_directory).
  vm_compute. discriminate.
Defined.

Section Backfill.
Import Install.

Lemma c_string_strdup (s : string) :
  zero ∉ String.list_ascii_of_string s → c_string (strdup s) = Some s.
Proof.
  intros Hz. unfold strdup.
  rewrite (c_string_strdup_prefix _ []) by done.
  by rewrite String.string_of_list_ascii_of_string.
Qed.

Lemma backfill_repo_fields slug pkg pkg' :
  backfill_repo slug pkg = Some pkg' →
  p_name pkg' = p_name pkg ∧ p_version pkg' = p_version pkg.
Proof.
  unfold backfill_repo. intros H.
  destruct (p_repo pkg) as [memory|]; simpl in H.
  - destruct (c_string memory); simpl in H; [|done].
    case_decide; by simplify_eq.
  - by simplify_eq.
Qed.
End Backfill.

(** X5: the back-fill for an argument without a version.  When the slug
    has no ['@'] and the resolved package has no repo, or a repo that is
    a well-formed string, the package after the back-fill has the slug
    itself as its repo, as a well-formed string ([strdup]), and its name
    and version are untouched. *)
Theorem backfill_without_version_gives_the_slug (slug : string)
    (pkg : Install.package) :
  String.index 0 "@" slug = None →
  zero ∉ String.list_ascii_of_string slug →
  Install.p_repo pkg = None
  ∨ is_Some (Install.p_repo pkg ≫= Install.c_string) →
  ∃ pkg', Install.backfill_repo slug pkg = Some pkg'
          ∧ Install.p_repo pkg' ≫= Install.c_string = Some slug
          ∧ Install.p_name pkg' = Install.p_name pkg
          ∧ Install.p_version pkg' = Install.p_version pkg.
Proof.
  intros Hidx Hz Hrepo. unfold Install.backfill_repo, Install.derived_repo.
  rewrite Hidx.
  destruct (Install.p_repo pkg) as [memory|] eqn:Hmem.
  - destruct Hrepo as [? | [repo Hrepo]]; [done|]. simpl in Hrepo.
    rewrite Hrepo. simpl. case_decide as Heq.
    + exists pkg. rewrite Hmem. simpl. by rewrite Hrepo, Heq.
    + eexists. split; [done|]. simpl. by rewrite c_string_strdup.
  - eexists. split; [done|]. simpl. by rewrite c_string_strdup.
Qed.

Lemma backfill_without_version_gives_the_slug_witness :
  ∃ pkg', Install.backfill_repo "baz/qux" foo_bar = Some pkg'
          ∧ Install.p_repo pkg' ≫= Install.c_string = Some "baz/qux"
          ∧ Install.p_name pkg' = Install.p_name foo_bar
          ∧ Install.p_version pkg' = Install.p_version foo_bar.
Proof.
  apply (backfill_without_version_gives_the_slug "baz/qux" foo_bar).
  - reflexivity.
  - vm_compute. intros H. repeat (apply elem_of_cons in H as [H|H]; [discriminate H|]).
    by apply elem_of_nil in H.
  - right. vm_compute. by eexists.
Defined.

(** X6: the back-fill for an argument with a version.  Whenever the slug
    has an ['@'] at offset [n] and the resolved package has no repo, or a
    repo that is a string other than the slug, the back-fill leaves in
    [pkg->repo] exactly the [n] characters before the ['@'], with no
    terminating NUL; no C string starts there, and saving the dependency
    into any manifest that parses to an object reads past the
    allocation. *)
Theorem backfill_with_version_is_unterminated (slug : string) (n : nat)
    (pkg : Install.package) :
  String.index 0 "@" slug = Some n →
  zero ∉ String.list_ascii_of_string slug →
  Install.p_repo pkg = None
  ∨ (∃ repo, Install.p_repo pkg ≫= Install.c_string = Some repo
             ∧ repo ≠ slug) →
  ∃ pkg', Install.backfill_repo slug pkg = Some pkg'
          ∧ Install.p_repo pkg'
            = Some (take n (String.list_ascii_of_string slug))
          ∧ Install.p_repo pkg' ≫= Install.c_string = None
          ∧ ∀ e prefix file s members,
              Install.json_parse_file e s file
              = Some (Install.JObject members) →
              Install.write_dependency_with_package_name e pkg' prefix file s
              = None.
Proof.
  intros Hidx Hz Hrepo.
  destruct (derived_repo_unterminated slug n Hidx Hz) as [Hderived Hnone].
  exists {| Install.p_name := Install.p_name pkg;
            Install.p_version := Install.p_version pkg;
            Install.p_repo := Some (Install.derived_repo slug) |}.
  split; [|split; [|split]].
  - unfold Install.backfill_repo.
    destruct Hrepo as [-> | (repo & Hrepo & Hne)]; [done|].
    destruct (Install.p_repo pkg) as [memory|]; [|done].
    simpl in Hrepo. rewrite Hrepo. simpl. by rewrite decide_False.
  - simpl. by rewrite Hderived.
  - simpl. exact Hnone.
  - intros e prefix file s members Hparse.
    unfold Install.write_dependency_with_package_name.
    rewrite Hparse. simpl. by rewrite Hnone.
Qed.

Lemma backfill_with_version_is_unterminated_witness :
  ∃ pkg', Install.backfill_repo "foo/bar@1.2.0" foo_bar = Some pkg'
          ∧ Install.p_repo pkg'
            = Some (take 7 (String.list_ascii_of_string "foo/bar@1.2.0"))
          ∧ Install.p_repo pkg' ≫= Install.c_string = None
          ∧ ∀ e prefix file s members,
              Install.json_parse_file e s file
              = Some (Install.JObject members) →
              Install.write_dependency_with_package_name e pkg' prefix file s
              = None.
Proof.
  apply (backfill_with_version_is_unterminated "foo/bar@1.2.0" 7 foo_bar).
  - reflexivity.
  - vm_compute. intros H.
    repeat (apply elem_of_cons in H as [H|H]; [discriminate H|]).
    by apply elem_of_nil in H.
  - right. exists "foo/bar". split; [reflexivity | discriminate].
Defined.

Section MergeOrder.
Import Install.

Lemma get_value_key members name v :
  json_object_get_value members name = Some v → name ∈ members.*1.
Proof.
  induction members as [|[k x] members IH]; cbn [json_object_get_value];
    [done|].
  case_decide as Hk; [subst; intros _; by left|].
  intros H. right. by apply IH.
Qed.

Lemma set_value_keys members name value :
  (json_object_set_value members name value).*1
  = if decide (name ∈ members.*1) then members.*1 else members.*1 ++ [name].
Proof.
  induction members as [|[k x] members IH]; cbn [json_object_set_value].
  - by rewrite decide_False by (by intros ?%elem_of_nil).
  - destruct (decide (k = name)) as [->|Hk].
    + rewrite decide_True; [done|]. by left.
    + rewrite !fmap_cons. cbn [fst]. rewrite IH.
      destruct (decide (name ∈ members.*1)) as [Hin|Hin].
      * rewrite decide_True; [done|]. by right.
      * rewrite decide_False; [done|].
        intros [?|?]%elem_of_cons; [by subst|done].
Qed.
End MergeOrder.

(** X7: saving into a manifest that already has the section keeps what
    is there.  The merged document has the top-level members of the old
    one, in the same order; in the section every other entry keeps its
    value and its place; the entry of the repo is overwritten where it
    stands, or appended at the end when the repo is new. *)
Theorem merge_dependency_keeps_other_entries
    (members section : list (string * Install.json_value))
    (prefix repo version : string) :
  Install.json_object_dotget_object members prefix = Some section →
  ∃ section',
    Install.json_object_dotget_object
      (Install.merge_dependency members prefix repo version) prefix
    = Some section'
    ∧ (Install.merge_dependency members prefix repo version).*1 = members.*1
    ∧ section'.*1 = (if decide (repo ∈ section.*1) then section.*1
                     else section.*1 ++ [repo])
    ∧ Install.json_object_get_value section' repo
      = Some (Install.JString version)
    ∧ ∀ key, key ≠ repo →
        Install.json_object_get_value section' key
        = Install.json_object_get_value section key.
Proof.
  intros Hsec. unfold Install.merge_dependency. rewrite Hsec.
  exists (Install.json_object_set_value section repo (Install.JString version)).
  split; [|split; [|split; [|split]]].
  - unfold Install.json_object_dotget_object. by rewrite get_set_value_eq.
  - rewrite set_value_keys. rewrite decide_True; [done|].
    unfold Install.json_object_dotget_object in Hsec.
    destruct (Install.json_object_get_value members prefix) as [v|] eqn:Hget;
      [|done].
    by eapply get_value_key.
  - apply set_value_keys.
  - apply get_set_value_eq.
  - intros key Hkey. by apply get_set_value_ne.
Qed.

Lemma merge_dependency_keeps_other_entries_witness :
  ∃ section',
    Install.json_object_dotget_object
      (Install.merge_dependency
         [("name", Install.JString "app");
          ("dependencies",
           Install.JObject [("foo/bar", Install.JString "1.2.0")]);
          ("version", Install.JString "0.1.0")]
         "dependencies" "baz/qux" "0.3.0") "dependencies"
    = Some section'
    ∧ (Install.merge_dependency
         [("name", Install.JString "app");
          ("dependencies",
           Install.JObject [("foo/bar", Install.JString "1.2.0")]);
          ("version", Install.JString "0.1.0")]
         "dependencies" "baz/qux" "0.3.0").*1
      = ["name"; "dependencies"; "version"]
    ∧ section'.*1 = ["foo/bar"; "baz/qux"]
    ∧ Install.json_object_get_value section' "baz/qux"
      = Some (Install.JString "0.3.0")
    ∧ ∀ key, key ≠ "baz/qux" →
        Install.json_object_get_value section' key
        = Install.json_object_get_value
            [("foo/bar", Install.JString "1.2.0")] key.
Proof.
  apply (merge_dependency_keeps_other_entries
           [("name", Install.JString "app");
            ("dependencies",
             Install.JObject [("foo/bar", Install.JString "1.2.0")]);
            ("version", Install.JString "0.1.0")]
           [("foo/bar", Install.JString "1.2.0")]
           "dependencies" "baz/qux" "0.3.0").
  reflexivity.
Defined.

(** X8: [opts.savedev] selects the section, and nothing else.  A
    successful install of a remote slug with saving enabled, into a first
    manifest that parses to an object and can be written, rewrites that
    manifest with the entry [repo -> version] placed under
    ["development"] when [opts.savedev] is set and under ["dependencies"]
    otherwise; every other top-level member of the manifest, the other
    section among them, keeps its value; the result is 0. *)
Theorem install_saves_under_the_selected_section (e : Install.env)
    (o : Install.options) (slug : string) (s : Install.state)
    (pkg pkg' : Install.package) (first : string) (others : list string)
    (members : list (string * Install.json_value)) (repo : string) :
  slug ≠ "." → slug ≠ "./" →
  Install.files s !! slug = None →
  Install.clib_package_new_from_slug e slug = Some pkg →
  Install.clib_package_install e pkg = 0%Z →
  (Install.opts_dev o = true →
   Install.clib_package_install_development e pkg = 0%Z) →
  Install.opts_nosave o = false →
  Install.manifest_names e = first :: others →
  Install.json_parse_file e s first = Some (Install.JObject members) →
  Install.fs_writable e first = true →
  Install.backfill_repo slug pkg = Some pkg' →
  Install.p_repo pkg' ≫= Install.c_string = Some repo →
  let section_name :=
    if Install.opts_savedev o then "development" else "dependencies" in
  let merged :=
    Install.merge_dependency members section_name repo (Install.p_version pkg) in
  Install.install_package e o slug s
  = Some (0%Z,
          {| Install.files :=
               <[first := Install.json_serialize_to_string_pretty e
                            (Install.JObject merged)]> (Install.files s);
             Install.installed := Install.installed s ++ [Install.p_name pkg];
             Install.trace := Install.trace s |})
  ∧ (∃ section,
       Install.json_object_dotget_object merged section_name = Some section
       ∧ Install.json_object_get_value section repo
         = Some (Install.JString (Install.p_version pkg)))
  ∧ ∀ key, key ≠ section_name →
      Install.json_object_get_value merged key
      = Install.json_object_get_value members key.
Proof.
  intros Hdot Hdotslash Hfile Hresolve Hfetch Hdev Hnosave Hnames Hparse
    Hwritable Hpkg' Hrepo section_name merged.
  split; [|split; [apply merge_dependency_entry|]];
    [|intros key Hkey; by apply merge_dependency_other].
  destruct (backfill_repo_fields _ _ _ Hpkg') as [_ Hversion].
  unfold Install.install_package, Install.fetch.
  rewrite decide_False by (intros [? | ?]; congruence).
  rewrite decide_False by (by apply eq_None_not_Some).
  rewrite Hresolve, Hfetch.
  rewrite (decide_False (P := 0%Z ≠ 0%Z)) by (by intros ?).
  rewrite (decide_True (P := 0%Z = 0%Z)) by done.
  assert ((if Install.opts_dev o
           then Install.clib_package_install_development e pkg
           else 0%Z) = 0%Z) as ->.
  { destruct (Install.opts_dev o); [by apply Hdev | done]. }
  rewrite (decide_False (P := 0%Z ≠ 0%Z)) by (by intros ?).
  rewrite Hpkg', Hnosave. cbn [mbind option_bind].
  unfold Install.save_dev_dependency, Install.save_dependency,
    Install.write_dependency.
  rewrite Hnames. cbn [Install.write_dependency_names].
  subst merged section_name.
  destruct (Install.opts_savedev o).
  - rewrite (write_with_valid_repo e pkg' "development" first _ members repo)
      by done.
    rewrite Hwritable, Hversion. done.
  - rewrite (write_with_valid_repo e pkg' "dependencies" first _ members repo)
      by done.
    rewrite Hwritable, Hversion. done.
Qed.

Lemma install_saves_under_the_selected_section_witness :
  let o := {| Install.opts_dev := true; Install.opts_savedev := true;
              Install.opts_nosave := false |} in
  let merged :=
    Install.merge_dependency
      [("name", Install.JString "app"); ("version", Install.JString "0.1.0")]
      "development" "foo/bar" "1.2.0" in
  Install.install_package registry_env o "foo/bar" app_directory
  = Some (0%Z,
          {| Install.files :=
               <["clib.json" := print_json (Install.JObject merged)]>
                 (Install.files app_directory);
             Install.installed := ["bar"];
             Install.trace := [] |})
  ∧ (∃ section,
       Install.json_object_dotget_object merged "development" = Some section
       ∧ Install.json_object_get_value section "foo/bar"
         = Some (Install.JString "1.2.0"))
  ∧ ∀ key, key ≠ "development" →
      Install.json_object_get_value merged key
      = Install.json_object_get_value
          [("name", Install.JString "app");
           ("version", Install.JString "0.1.0")] key.
Proof.
  apply (install_saves_under_the_selected_section registry_env
           {| Install.opts_dev := true; Install.opts_savedev := true;
              Install.opts_nosave := false |}
           "foo/bar" app_directory foo_bar foo_bar "clib.json"
           ["package.json"]
           [("name", Install.JString "app");
            ("version", Install.JString "0.1.0")] "foo/bar");
    try discriminate; try reflexivity.
Defined.

(** * Further properties of the build without threads *)

Section SequentialAccounting.
Import Sequential Accounting.
Variables (w : world) (o : options).

Lemma event_flag_work_event dir path package :
  event_flag (work_event o dir path package) = built_flag package.
Proof.
  unfold event_flag, work_event, built_flag. cbn [ev_command].
  by destruct (pkg_makefile package).
Qed.

Lemma event_status_work_event dir path package :
  event_status w (work_event o dir path package)
  = match pkg_makefile package with
    | Some makefile => system w (build_command o dir makefile)
    | None => 0%Z
    end.
Proof.
  unfold event_status, work_event. cbn [ev_command].
  by destruct (pkg_makefile package).
Qed.

Lemma replay_app r l1 l2 : replay r (l1 ++ l2) = replay (replay r l1) l2.
Proof. apply foldl_app. Qed.

Lemma replay_dom r l :
  dom (replay r l) = dom r ∪ list_to_set (ev_path <$> l).
Proof.
  revert r. induction l as [|e l IH]; intros r; cbn [replay foldl].
  - set_solver.
  - fold (replay (record_event r e) l). rewrite IH.
    unfold record_event. rewrite dom_insert_L, fmap_cons.
    cbn [list_to_set]. set_solver.
Qed.

Lemma replay_lookup_old r l k :
  k ∉ ev_path <$> l → replay r l !! k = r !! k.
Proof.
  revert r. induction l as [|e l IH]; intros r Hk; cbn [replay foldl]; [done|].
  fold (replay (record_event r e) l). rewrite fmap_cons in Hk.
  rewrite IH by set_solver. unfold record_event.
  apply lookup_insert_ne. set_solver.
Qed.

Lemma accounts_nil s rc :
  rc = 0%Z ∨ rc = (- ENOENT)%Z ∨ rc = (- ENOMEM)%Z → accounts w s [] rc s.
Proof.
  intros Hrc. unfold accounts. rewrite app_nil_r.
  split; [done|]. split; [done|]. split; [constructor|].
  split; [by intros e ?%elem_of_nil|]. naive_solver.
Qed.

Lemma accounts_app s new1 rc1 s1 new2 rc2 s2 :
  accounts w s new1 rc1 s1 → accounts w s1 new2 rc2 s2 →
  accounts w s (new1 ++ new2) rc2 s2.
Proof.
  intros (Hlog1 & Hbuilt1 & Hnodup1 & Hfresh1 & _)
    (Hlog2 & Hbuilt2 & Hnodup2 & Hfresh2 & Hrc2).
  assert (∀ e, e ∈ new2 → ev_path e ∉ ev_path <$> new1
                           ∧ built s !! ev_path e = None) as Hnew2.
  { intros e He. apply Hfresh2 in He as [Hnone _].
    apply not_elem_of_dom in Hnone. rewrite Hbuilt1, replay_dom in Hnone.
    split; [|apply not_elem_of_dom]; set_solver. }
  split; [by rewrite Hlog2, Hlog1, app_assoc|].
  split; [by rewrite Hbuilt2, Hbuilt1, replay_app|].
  split; [|split].
  - rewrite fmap_app. apply NoDup_app. split; [done|]. split; [|done].
    intros p Hp1 Hp2. apply list_elem_of_fmap in Hp2 as (e & -> & He).
    by apply Hnew2 in He as [? _].
  - intros e [He | He]%elem_of_app; [by apply Hfresh1|].
    split; [by apply Hnew2|by apply Hfresh2].
  - destruct Hrc2 as [?|[?|[?|(e & He & Hst)]]]; auto.
    do 3 right. exists e. split; [|done]. apply elem_of_app. by right.
Qed.

Section WithRec.
Variable rec : string → state → outcome.
Hypothesis rec_accounts :
  ∀ dir s rc s', rec dir s = Ret rc s' → ∃ new, accounts w s new rc s'.

Lemma build_dependencies_accounts deps s rc s' :
  build_dependencies w o rec deps s = Ret rc s' →
  ∃ new, accounts w s new rc s'.
Proof.
  revert s. induction deps as [|dep deps IH]; intros s H;
    cbn [build_dependencies] in H.
  - simplify_eq. exists []. apply accounts_nil. by left.
  - destruct (clib_package_new_from_slug w (dependency_slug dep))
      as [dependency|]; [|done].
    destruct (rec _ s) as [rc1 s1| |] eqn:Hrec; [|done..].
    apply rec_accounts in Hrec as [new1 Hnew1].
    case_decide; [|simplify_eq; by exists new1].
    apply IH in H as [new2 Hnew2]. exists (new1 ++ new2).
    by eapply accounts_app.
Qed.

Lemma build_package_with_package_name_accounts dir file s rc s' :
  build_package_with_package_name w o rec dir file s = Ret rc s' →
  ∃ new, accounts w s new rc s'.
Proof.
  unfold build_package_with_package_name. intros H.
  case_decide as Hhas; [simplify_eq; exists []; apply accounts_nil; auto|].
  case_decide as Hexists; [simplify_eq; exists []; apply accounts_nil; auto|].
  destruct (load_package w dir (path_join w dir file)) as [package|];
    [|simplify_eq; exists []; apply accounts_nil; auto].
  set (path := path_join w dir file) in *.
  set (s1 := {| built := _; log := _ |}) in H.
  set (rc1 := match pkg_makefile package with
              | Some makefile => system w (build_command o dir makefile)
              | None => 0%Z
              end) in *.
  assert (accounts w s [work_event o dir path package] rc1 s1) as Hfirst.
  { unfold accounts, s1. cbn [built log replay foldl].
    split; [done|]. split.
    { unfold record_event. by rewrite event_flag_work_event. }
    split; [apply NoDup_singleton|]. split.
    - intros e ->%list_elem_of_singleton. cbn [work_event ev_path].
      split; [by apply eq_None_not_Some|].
      unfold fs_exists in Hexists.
      destruct (fs_files w !! path); [by eexists|done].
    - do 3 right. eexists. split; [by apply list_elem_of_singleton|].
      apply event_status_work_event. }
  case_decide as Hrc1; [|simplify_eq; by eexists].
  assert (∃ rc2 s2 new2,
            match pkg_dependencies package with
            | Some deps => build_dependencies w o rec deps s1
            | None => Ret rc1 s1
            end = Ret rc2 s2
            ∧ accounts w s new2 rc2 s2) as (rc2 & s2 & new2 & Hdeps & Hnew2).
  { destruct (pkg_dependencies package) as [deps|].
    - destruct (build_dependencies w o rec deps s1) as [rc2 s2| |] eqn:Hb;
        [|done..].
      apply build_dependencies_accounts in Hb as [new2 Hnew2].
      exists rc2, s2, ([work_event o dir path package] ++ new2).
      split; [done|]. by eapply accounts_app.
    - by exists rc1, s1, [work_event o dir path package]. }
  rewrite Hdeps in H.
  case_decide; [|simplify_eq; by eexists].
  destruct (pkg_development package) as [deps|];
    [|simplify_eq; by eexists].
  destruct (opts_dev o); [|simplify_eq; by eexists].
  apply build_dependencies_accounts in H as [new3 Hnew3].
  exists (new2 ++ new3). by eapply accounts_app.
Qed.

Lemma build_package_names_accounts dir names s0 new0 rc0 s rc s' :
  accounts w s0 new0 rc0 s →
  build_package_names w o rec dir names rc0 s = Ret rc s' →
  ∃ new, accounts w s0 new rc s'.
Proof.
  revert new0 rc0 s. induction names as [|name names IH];
    intros new0 rc0 s Hnew0 H; cbn [build_package_names] in H.
  - simplify_eq. by exists new0.
  - destruct (build_package_with_package_name w o rec dir name s)
      as [rc1 s1| |] eqn:Hname; [|done..].
    apply build_package_with_package_name_accounts in Hname as [new1 Hnew1].
    pose proof (accounts_app _ _ _ _ _ _ _ Hnew0 Hnew1) as Hboth.
    case_decide; [simplify_eq; by eexists|].
    by eapply IH.
Qed.
End WithRec.

Lemma build_package_accounts fuel dir s rc s' :
  build_package w o fuel dir s = Ret rc s' → ∃ new, accounts w s new rc s'.
Proof.
  revert dir s rc s'. induction fuel as [|fuel IH]; intros dir s rc s' H;
    [done|].
  cbn [build_package] in H.
  eapply (build_package_names_accounts (build_package w o fuel) IH); [|done].
  apply accounts_nil. by left.
Qed.


End SequentialAccounting.

Section TotalBuilt.
Import Accounting.


End TotalBuilt.

(** X9: the registry is an exact account of the work of a call.  When
    [build_package] returns (with any result), the work it did was
    appended to the log and the registry is the one before the call
    with one new entry per unit of work, flagged ["t"] when a command
    was run and ["f"] otherwise.  Each unit of work is for a manifest
    file that exists and was not in the registry before the call, no
    path is worked on twice, and no entry that was in the registry is
    removed or overwritten. *)
Theorem sequential_registry_accounts_for_the_work (w : world) (o : options)
    (fuel : nat) (dir : string) (s s' : Sequential.state) (rc : Z) :
  Sequential.build_package w o fuel dir s = Sequential.Ret rc s' →
  ∃ new,
    Sequential.log s' = Sequential.log s ++ new
    ∧ Sequential.built s' = Accounting.replay (Sequential.built s) new
    ∧ NoDup (ev_path <$> new)
    ∧ (∀ e, e ∈ new →
            Sequential.built s !! ev_path e = None
            ∧ is_Some (fs_files w !! ev_path e))
    ∧ ∀ k v, Sequential.built s !! k = Some v →
             Sequential.built s' !! k = Some v.
Proof.
  intros H. apply build_package_accounts in H
    as (new & Hlog & Hbuilt & Hnodup & Hfresh & _).
  exists new. do 4 (split; [done|]).
  intros k v Hk. rewrite Hbuilt, replay_lookup_old; [done|].
  intros (e & -> & He)%list_elem_of_fmap.
  apply Hfresh in He as [Hnone _]. congruence.
Qed.

Lemma sequential_registry_accounts_for_the_work_witness :
  ∃ s', Sequential.build_package diamond default_options 4 "/proj"
          (BuildMain.initial_state diamond) = Sequential.Ret 0 s'
  ∧ ∃ new,
    Sequential.log s' = Sequential.log (BuildMain.initial_state diamond) ++ new
    ∧ Sequential.built s'
      = Accounting.replay (Sequential.built (BuildMain.initial_state diamond))
          new
    ∧ NoDup (ev_path <$> new)
    ∧ (∀ e, e ∈ new →
            Sequential.built (BuildMain.initial_state diamond) !! ev_path e
            = None
            ∧ is_Some (fs_files diamond !! ev_path e))
    ∧ ∀ k v, Sequential.built (BuildMain.initial_state diamond) !! k = Some v →
             Sequential.built s' !! k = Some v.
Proof.
  eexists. split; [vm_compute; reflexivity|].
  apply (sequential_registry_accounts_for_the_work diamond default_options 4
           "/proj" (BuildMain.initial_state diamond) _ 0%Z).
  vm_compute. reflexivity.
Defined.

(** X10: what [build_package] can return without threads: 0, [-ENOENT]
    (no manifest under the last name tried), [-ENOMEM] (a manifest that
    gives no package), or the non-zero status that [system] returned for
    a build command run during the call. *)
Theorem sequential_result_is_a_code_or_a_command_status (w : world)
    (o : options) (fuel : nat) (dir : string) (s s' : Sequential.state)
    (rc : Z) :
  Sequential.build_package w o fuel dir s = Sequential.Ret rc s' →
  rc = 0%Z ∨ rc = (- ENOENT)%Z ∨ rc = (- ENOMEM)%Z
  ∨ ∃ e command,
      e ∈ drop (length (Sequential.log s)) (Sequential.log s')
      ∧ ev_command e = Some command
      ∧ system w command = rc ∧ rc ≠ 0%Z.
Proof.
  intros H. apply build_package_accounts in H
    as (new & Hlog & _ & _ & _ & Hrc).
  destruct Hrc as [?|[?|[?|(e & He & Hst)]]]; auto.
  destruct (decide (rc = 0%Z)); [by left|].
  do 3 right. unfold Accounting.event_status in Hst.
  destruct (ev_command e) as [command|] eqn:Hcommand; [|congruence].
  exists e, command. rewrite Hlog, drop_app_length. done.
Qed.

Lemma sequential_result_is_a_code_or_a_command_status_witness :
  ∃ s', Sequential.build_package two_manifests default_options 2 "/proj"
          (BuildMain.initial_state two_manifests) = Sequential.Ret 512 s'
  ∧ (512%Z = 0%Z ∨ 512%Z = (- ENOENT)%Z ∨ 512%Z = (- ENOMEM)%Z
     ∨ ∃ e command,
         e ∈ drop (length (Sequential.log (BuildMain.initial_state two_manifests)))
               (Sequential.log s')
         ∧ ev_command e = Some command
         ∧ system two_manifests command = 512%Z ∧ 512%Z ≠ 0%Z).
Proof.
  eexists. split; [vm_compute; reflexivity|].
  apply (sequential_result_is_a_code_or_a_command_status two_manifests
           default_options 2 "/proj" (BuildMain.initial_state two_manifests)).
  vm_compute. reflexivity.
Defined.



Section FailingDependency.
Import Sequential.
Variables (w : world) (o : options) (rec : string → state → outcome).

Lemma build_dependencies_stops pre dep post dependency s s1 rc s2 :
  build_dependencies w o rec pre s = Ret 0 s1 →
  clib_package_new_from_slug w (dependency_slug dep) = Some dependency →
  rec (path_join w (opts_dir o) (pkg_name dependency)) s1 = Ret rc s2 →
  rc ≠ 0%Z →
  build_dependencies w o rec (pre ++ dep :: post) s = Ret rc s2.
Proof.
  intros Hpre Hresolve Hrec Hrc. revert s Hpre.
  induction pre as [|d pre IH]; intros s Hpre; cbn [build_dependencies app] in *.
  - simplify_eq. rewrite Hresolve, Hrec. by rewrite decide_False.
  - destruct (clib_package_new_from_slug w (dependency_slug d)); [|done].
    destruct (rec _ s) as [rc' s'| |]; [|done..].
    case_decide; [by apply IH|]. by simplify_eq.
Qed.
End FailingDependency.

(** X12: without threads a failing dependency ends the build of its
    parent.  When the command of a package succeeds and, in its
    dependency loop, the dependencies before [dep] return 0 and the
    build of [dep] returns [rc], not 0, then the attempt on the package
    returns this [rc] in the state the build of [dep] left: the
    dependencies after [dep] and the development dependencies are not
    built. *)
Theorem failing_dependency_ends_the_build (w : world) (o : options)
    (fuel : nat) (dir file : string) (s s1 s2 : Sequential.state)
    (package dependency : clib_package)
    (pre post : list clib_package_dependency) (dep : clib_package_dependency)
    (rc : Z) :
  Sequential.built s !! path_join w dir file = None →
  is_Some (fs_files w !! path_join w dir file) →
  load_package w dir (path_join w dir file) = Some package →
  Graph.command_succeeds w o dir package = true →
  pkg_dependencies package = Some (pre ++ dep :: post) →
  Sequential.build_dependencies w o (Sequential.build_package w o fuel) pre
    {| Sequential.built :=
         <[path_join w dir file := built_flag package]> (Sequential.built s);
       Sequential.log :=
         Sequential.log s ++ [work_event o dir (path_join w dir file) package] |}
  = Sequential.Ret 0 s1 →
  clib_package_new_from_slug w (dependency_slug dep) = Some dependency →
  Sequential.build_package w o fuel
    (path_join w (opts_dir o) (pkg_name dependency)) s1
  = Sequential.Ret rc s2 →
  rc ≠ 0%Z →
  Sequential.build_package_with_package_name w o
    (Sequential.build_package w o fuel) dir file s
  = Sequential.Ret rc s2.
Proof.
  intros Hnone [content Hfile] Hload Hcommand Hdeps Hpre Hresolve Hdep Hrc.
  unfold Sequential.build_package_with_package_name.
  rewrite decide_False by (rewrite Hnone; by intros [? ?]).
  rewrite decide_False by (unfold fs_exists; by rewrite Hfile).
  rewrite Hload.
  assert (match pkg_makefile package with
          | Some makefile => system w (build_command o dir makefile)
          | None => 0%Z
          end = 0%Z) as ->.
  { unfold Graph.command_succeeds in Hcommand.
    destruct (pkg_makefile package); [|done].
    by apply bool_decide_eq_true in Hcommand. }
  rewrite decide_True by done. rewrite Hdeps.
  rewrite (build_dependencies_stops w o _ pre dep post dependency _ s1 rc s2)
    by done.
  by rewrite decide_False.
Qed.

Lemma failing_dependency_ends_the_build_witness :
  Sequential.build_package_with_package_name failing_sibling default_options
    (Sequential.build_package failing_sibling default_options 2)
    "/proj" "clib.json" (BuildMain.initial_state failing_sibling)
  = Sequential.Ret (- ENOENT)
      {| Sequential.built :=
           <["/proj/clib.json" := "t"]>
             (Sequential.built (BuildMain.initial_state failing_sibling));
         Sequential.log :=
           [work_event default_options "/proj" "/proj/clib.json"
              (make_package "root" ["x"; "y"])] |}.
Proof.
  apply (failing_dependency_ends_the_build failing_sibling default_options 2
           "/proj" "clib.json" (BuildMain.initial_state failing_sibling)
           {| Sequential.built :=
                <["/proj/clib.json" := "t"]>
                  (Sequential.built (BuildMain.initial_state failing_sibling));
              Sequential.log :=
                [work_event default_options "/proj" "/proj/clib.json"
                   (make_package "root" ["x"; "y"])] |}
           {| Sequential.built :=
                <["/proj/clib.json" := "t"]>
                  (Sequential.built (BuildMain.initial_state failing_sibling));
              Sequential.log :=
                [work_event default_options "/proj" "/proj/clib.json"
                   (make_package "root" ["x"; "y"])] |}
           (make_package "root" ["x"; "y"]) (plain_package "x")
           [] [dependency "y"] (dependency "x") (- ENOENT)).
  - reflexivity.
  - vm_compute. by eexists.
  - reflexivity.
  - reflexivity.
  - reflexivity.
  - reflexivity.
  - reflexivity.
  - vm_compute. reflexivity.
  - discriminate.
Defined.

(** * Further properties of the build with threads *)

Section ThreadMoves.
Import Pthreads Moves.
Variables (w : world) (o : options).

(** Every step is a fault in one of the loops (arrays without an
    element, or a dependency that does not resolve) or one of the cases
    of [effect]. *)
Lemma step_effect tid s s' :
  step w o tid s = Some s' →
  crashed s = false
  ∧ ∃ t, threads s !! tid = Some t
    ∧ ((s' = {| built := built s; log := log s; threads := threads s;
                crashed := true |}
        ∧ ∃ package dev rest wave,
            t_pc t = PSpawn package dev rest wave
            ∧ (opts_concurrency o = 0
               ∨ ∃ dep rest',
                   rest = dep :: rest'
                   ∧ clib_package_new_from_slug w (dependency_slug dep)
                     = None))
       ∨ ∃ p b l children,
           effect w o s t p b l children
           ∧ s' = after s tid t p b l children).
Proof.
  unfold step. intros H.
  destruct (crashed s) eqn:Hcrashed; [done|]. split; [done|].
  destruct (threads s !! tid) as [t|] eqn:Ht; [|done]. simpl in H.
  exists t. split; [done|].
  assert (∀ p, with_pc s tid t p = after s tid t p (built s) (log s) [])
    as Hwith.
  { intros p. unfold with_pc, after. by rewrite Hcrashed, app_nil_r. }
  destruct (t_pc t) as [file others|file others|path package
                       |package dev rest wave|package dev rest wave|rc]
    eqn:Hpc.
  - right. case_decide as Hseen; simplify_eq; rewrite Hwith.
    + eexists _, _, _, _. split; [|done]. by eapply effect_seen.
    + eexists _, _, _, _. split; [|done]. eapply effect_unseen; [done|].
      by apply eq_None_not_Some.
  - right. unfold fs_exists in H.
    destruct (fs_files w !! path_join w (t_dir t) file) as [content|] eqn:Hfile.
    + rewrite decide_False in H by done.
      destruct (load_package w (t_dir t) (path_join w (t_dir t) file))
        as [package|] eqn:Hload; simplify_eq.
      * eexists _, _, _, _. split.
        -- eapply effect_work; [done| |done]. rewrite Hfile. by eexists.
        -- unfold after. by rewrite ?Hcrashed, ?app_nil_r.
      * rewrite Hwith. eexists _, _, _, _. split; [|done].
        eapply effect_unloadable; [done| |done]. rewrite Hfile. by eexists.
    + rewrite decide_True in H by done. simplify_eq. rewrite Hwith.
      eexists _, _, _, _. split; [|done]. by eapply effect_missing.
  - right. simplify_eq. eexists _, _, _, _. split.
    + by eapply effect_record.
    + unfold after. by rewrite ?Hcrashed, ?app_nil_r.
  - case_decide as Hzero.
    { left. simplify_eq. split; [done|]. eexists _, _, _, _.
      split; [done|]. by left. }
    destruct rest as [|dep rest].
    + right. simplify_eq. rewrite Hwith. eexists _, _, _, _.
      split; [|done]. by eapply effect_loop_end.
    + destruct (clib_package_new_from_slug w (dependency_slug dep))
        as [dependency|] eqn:Hresolve; simplify_eq.
      * right. eexists _, _, _, _. split.
        -- by eapply effect_create.
        -- unfold after. by rewrite ?Hcrashed.
      * left. rewrite ?Hcrashed. split; [done|]. eexists _, _, _, _.
        split; [done|]. right. by eexists _, _.
  - right. destruct wave as [|c wave].
    + destruct rest as [|dep rest]; simplify_eq; rewrite Hwith;
        eexists _, _, _, _; (split; [|done]).
      * by eapply effect_leave.
      * by eapply effect_resume.
    + assert ((c_t ← threads s !! c;
               if is_done c_t
               then Some (with_pc s tid t (PJoin package dev rest wave))
               else None) = Some s') as H' by (by destruct rest).
      destruct (threads s !! c) as [c_t|] eqn:Hc; [|done]. simpl in H'.
      destruct (is_done c_t) eqn:Hdone; simplify_eq. rewrite Hwith.
      eexists _, _, _, _. split; [|done]. by eapply effect_join.
  - done.
Qed.

(** A thread that moves was [runnable]. *)
Lemma step_runnable tid s s' :
  step w o tid s = Some s' →
  ∃ t, threads s !! tid = Some t ∧ runnable s t.
Proof.
  intros H. apply step_effect in H as (_ & t & Ht & H). exists t.
  split; [done|]. unfold runnable.
  destruct H as [(_ & package & dev & rest & wave & -> & _)
                | (p & b & l & children & Heffect & _)]; [done|].
  destruct Heffect as [? ? -> | ? ? -> | ? ? -> | ? ? -> | ? ? ? -> | ? ? ->
                      | ? ? ? -> | ? ? ? ? ? ? -> | ? ? ? ? ? ? -> | ? ? ? ? ->
                      | ? ? ->]; try done.
  by eexists.
Qed.

(** The threads after a step: the one that moved, the others as they
    were, and the threads created. *)
Lemma after_lookup s tid t p b l children i x :
  threads s !! tid = Some t →
  threads (after s tid t p b l children) !! i = Some x →
  (i = tid ∧ x = {| t_dir := t_dir t; t_pc := p |})
  ∨ (i ≠ tid ∧ threads s !! i = Some x)
  ∨ (length (threads s) ≤ i
     ∧ children !! (i - length (threads s)) = Some x).
Proof.
  intros Ht. unfold after. cbn [threads]. intros Hx.
  apply lookup_app_Some in Hx as [Hx | [Hlen Hx]].
  - destruct (decide (i = tid)) as [->|Hne].
    + left. split; [done|].
      rewrite list_lookup_insert_eq in Hx by (by eapply lookup_lt_Some).
      by simplify_eq.
    + right. left. split; [done|]. by rewrite list_lookup_insert_ne in Hx.
  - rewrite length_insert in Hlen, Hx. right. right. done.
Qed.

Lemma after_lookup_other s tid t p b l children i x :
  i ≠ tid → threads s !! i = Some x →
  threads (after s tid t p b l children) !! i = Some x.
Proof.
  intros Hne Hx. unfold after. cbn [threads].
  apply lookup_app_l_Some. by rewrite list_lookup_insert_ne.
Qed.

Lemma after_lookup_self s tid t p b l children :
  threads s !! tid = Some t →
  threads (after s tid t p b l children) !! tid
  = Some {| t_dir := t_dir t; t_pc := p |}.
Proof.
  intros Ht. unfold after. cbn [threads].
  apply lookup_app_l_Some, list_lookup_insert_eq. by eapply lookup_lt_Some.
Qed.

(** The threads created by a step. *)
Lemma effect_children s t p b l children :
  effect w o s t p b l children →
  children = []
  ∨ ∃ dir, children = [ {| t_dir := dir; t_pc := PCheck "clib.json"
                                                  ["package.json"] |} ].
Proof. destruct 1; try (by left). right. by eexists. Qed.

(** A property of single threads that every move keeps, and that the
    threads created have, holds of every thread in every run. *)
Lemma run_thread_invariant (Q : thread → Prop) sched s :
  (∀ s t p b l children,
     Q t → effect w o s t p b l children →
     Q {| t_dir := t_dir t; t_pc := p |} ∧ Forall Q children) →
  Forall Q (threads s) → Forall Q (threads (run w o sched s)).
Proof.
  intros Hkeep. revert s. unfold run.
  induction sched as [|tid sched IH]; intros s HQ; cbn [foldl]; [done|].
  apply IH. destruct (step w o tid s) as [s'|] eqn:Hstep; [|done].
  cbn [default].
  apply step_effect in Hstep
    as (_ & t & Ht & [[-> _] | (p & b & l & children & Heffect & ->)]);
    [done|].
  destruct (Hkeep s t p b l children) as [Hp Hchildren]; [|done|].
  { by eapply Forall_lookup_1. }
  unfold after. cbn [threads]. apply Forall_app. split; [|done].
  apply Forall_insert; [done|done].
Qed.

(** A property of states that every step keeps holds in every run. *)
Lemma run_state_invariant (P : state → Prop) sched s :
  (∀ tid s s', P s → step w o tid s = Some s' → P s') →
  P s → P (run w o sched s).
Proof.
  intros Hkeep. revert s. unfold run.
  induction sched as [|tid sched IH]; intros s HP; cbn [foldl]; [done|].
  apply IH. destruct (step w o tid s) as [s'|] eqn:Hstep; [|done].
  by eapply Hkeep.
Qed.
End ThreadMoves.

(** X13: what a thread of the pthread build can return.  In every
    state of every run, a thread that has returned from [build_package]
    returned 0, or [-ENOENT] with no [package.json] in its directory, or
    [-ENOMEM] with a [package.json] there that gives no package.  The
    status of a build command and the results of the threads it created
    never reach its result. *)
Theorem thread_result_reports_only_a_missing_manifest (w : world)
    (o : options) (sched : list nat) (registry : gmap string string)
    (dir : string) (tid : nat) (t : Pthreads.thread) (rc : Z) :
  Pthreads.threads (Pthreads.run w o sched (Pthreads.init registry dir)) !! tid
  = Some t →
  Pthreads.t_pc t = Pthreads.PDone rc →
  rc = 0%Z
  ∨ (rc = (- ENOENT)%Z
     ∧ fs_files w !! path_join w (Pthreads.t_dir t) "package.json" = None)
  ∨ (rc = (- ENOMEM)%Z
     ∧ is_Some (fs_files w !! path_join w (Pthreads.t_dir t) "package.json")
     ∧ load_package w (Pthreads.t_dir t)
         (path_join w (Pthreads.t_dir t) "package.json") = None).
Proof.
  set (code := λ (d : string) (rc : Z),
         rc = 0%Z
         ∨ (rc = (- ENOENT)%Z
            ∧ fs_files w !! path_join w d "package.json" = None)
         ∨ (rc = (- ENOMEM)%Z
            ∧ is_Some (fs_files w !! path_join w d "package.json")
            ∧ load_package w d (path_join w d "package.json") = None)).
  set (Q := λ t : Pthreads.thread,
         match Pthreads.t_pc t with
         | Pthreads.PCheck file others | Pthreads.PBuild file others =>
           (file = "clib.json" ∧ others = ["package.json"])
           ∨ (file = "package.json" ∧ others = [])
         | Pthreads.PDone rc => code (Pthreads.t_dir t) rc
         | _ => True
         end).
  intros Ht Hpc.
  assert (Forall Q (Pthreads.threads
                      (Pthreads.run w o sched (Pthreads.init registry dir))))
    as HQ.
  { apply run_thread_invariant.
    - clear. intros s t p b l children Ht Heffect. unfold Q in *.
      destruct Heffect as [? ? Hpc ?| ? ? Hpc ?| ? ? Hpc ?| ? ? Hpc ? ?
                          | ? ? ? Hpc ? ?| ? ? Hpc| ? ? ? Hpc| ? ? ? ? ? ? Hpc ?
                          | ? ? ? ? ? ? Hpc ? ?| ? ? ? ? Hpc| ? ? Hpc];
        rewrite Hpc in Ht; cbn [Pthreads.t_pc Pthreads.t_dir].
      + split; [by left|done].
      + done.
      + split; [|done]. destruct Ht as [[-> ->] | [-> ->]];
          cbn [Pthreads.attempt Pthreads.t_pc Pthreads.t_dir]; [by right|].
        right. by left.
      + split; [|done]. destruct Ht as [[-> ->] | [-> ->]];
          cbn [Pthreads.attempt Pthreads.t_pc Pthreads.t_dir]; [by right|].
        right. by right.
      + done.
      + split; [|done]. unfold Pthreads.enter_dependencies,
          Pthreads.enter_development.
        destruct (pkg_dependencies package); [done|].
        destruct (pkg_development package); [|by left].
        destruct (opts_dev o); [done|by left].
      + done.
      + split; [by case_decide|].
        apply Forall_singleton. cbn. by left.
      + done.
      + done.
      + split; [|done]. destruct dev; [by left|].
        unfold Pthreads.enter_development.
        destruct (pkg_development package); [|by left].
        destruct (opts_dev o); [done|by left].
    - apply Forall_singleton. cbn. by left. }
  eapply Forall_lookup_1 in HQ; [|exact Ht].
  unfold Q in HQ. by rewrite Hpc in HQ.
Qed.

Lemma thread_result_reports_only_a_missing_manifest_witness :
  (- ENOENT)%Z = 0%Z
  ∨ ((- ENOENT)%Z = (- ENOENT)%Z
     ∧ fs_files failing_sibling
         !! path_join failing_sibling "/deps/x" "package.json" = None)
  ∨ ((- ENOENT)%Z = (- ENOMEM)%Z
     ∧ is_Some (fs_files failing_sibling
                  !! path_join failing_sibling "/deps/x" "package.json")
     ∧ load_package failing_sibling "/deps/x"
         (path_join failing_sibling "/deps/x" "package.json") = None).
Proof.
  apply (thread_result_reports_only_a_missing_manifest failing_sibling
           default_options failing_sibling_schedule ∅ "/proj" 1
           {| Pthreads.t_dir := "/deps/x";
              Pthreads.t_pc := Pthreads.PDone (- ENOENT) |}).
  - vm_compute. reflexivity.
  - reflexivity.
Defined.

(** X14: the threads a thread has created and not yet joined fit its
    arrays.  With a concurrency of at least 1, in every state of every
    run a thread waits for at most [opts.concurrency] threads, and a
    thread that is about to create one has fewer than
    [opts.concurrency] outstanding: the index [i] into [wraps] and
    [threads], both of length [opts.concurrency], stays in bounds. *)
Theorem waves_fit_the_thread_arrays (w : world) (o : options)
    (sched : list nat) (registry : gmap string string) (dir : string)
    (tid : nat) (t : Pthreads.thread) :
  0 < opts_concurrency o →
  Pthreads.threads (Pthreads.run w o sched (Pthreads.init registry dir)) !! tid
  = Some t →
  length (Agreement.wave_of (Pthreads.t_pc t)) ≤ opts_concurrency o
  ∧ ∀ package dev rest wave,
      Pthreads.t_pc t = Pthreads.PSpawn package dev rest wave →
      length wave < opts_concurrency o.
Proof.
  set (Q := λ t : Pthreads.thread,
         match Pthreads.t_pc t with
         | Pthreads.PSpawn _ _ _ wave => length wave < opts_concurrency o
         | Pthreads.PJoin _ _ _ wave => length wave ≤ opts_concurrency o
         | _ => True
         end).
  intros Hpos Ht.
  assert (Forall Q (Pthreads.threads
                      (Pthreads.run w o sched (Pthreads.init registry dir))))
    as HQ.
  { apply run_thread_invariant.
    - clear -Hpos. intros s t p b l children Ht Heffect. unfold Q in *.
      destruct Heffect as [? ? Hpc ?| ? ? Hpc ?| ? ? Hpc ?| ? ? Hpc ? ?
                          | ? ? ? Hpc ? ?| ? ? Hpc| ? ? ? Hpc| ? ? ? ? ? ? Hpc ?
                          | ? ? ? ? ? ? Hpc ? ?| ? ? ? ? Hpc| ? ? Hpc];
        rewrite Hpc in Ht; cbn [Pthreads.t_pc Pthreads.t_dir].
      all: split; [|first [done | by apply Forall_singleton]].
      all: unfold Pthreads.enter_dependencies, Pthreads.enter_development,
             Pthreads.attempt.
      all: repeat case_match; try done; simplify_eq.
      all: repeat match goal with H : decide _ = _ |- _ => clear H end.
      all: rewrite ?length_app in *; cbn [length] in *; lia.
    - by apply Forall_singleton. }
  eapply Forall_lookup_1 in HQ; [|exact Ht].
  unfold Q in HQ. unfold Agreement.wave_of.
  destruct (Pthreads.t_pc t); (split; [cbn [length]; lia|]); try done.
  by intros ? ? ? ? [= _ _ _ <-].
Qed.

Lemma waves_fit_the_thread_arrays_witness :
  length (Agreement.wave_of
            (Pthreads.PSpawn (make_package "root" ["a"; "b"]) false
               [dependency "b"] [1])) ≤ opts_concurrency default_options
  ∧ ∀ package dev rest wave,
      Pthreads.PSpawn (make_package "root" ["a"; "b"]) false
        [dependency "b"] [1]
      = Pthreads.PSpawn package dev rest wave →
      length wave < opts_concurrency default_options.
Proof.
  apply (waves_fit_the_thread_arrays diamond default_options [0; 0; 0; 0] ∅
           "/proj" 0
           {| Pthreads.t_dir := "/proj";
              Pthreads.t_pc :=
                Pthreads.PSpawn (make_package "root" ["a"; "b"]) false
                  [dependency "b"] [1] |}).
  - vm_compute. lia.
  - vm_compute. reflexivity.
Defined.

Section ThreadAccounting.
Import Pthreads Moves.
Variables (w : world) (o : options) (registry : gmap string string).

Lemma init_registry_accounted dir :
  registry_accounted w registry (init registry dir).
Proof.
  unfold registry_accounted, init. cbn [built log threads].
  split; [done|]. split; [by left|]. split; [by intros e ?%elem_of_nil|].
  intros tid t Ht. apply list_lookup_singleton_Some in Ht as [_ <-]. done.
Qed.

Lemma step_keeps_registry_accounted tid s s' :
  registry_accounted w registry s → step w o tid s = Some s' →
  registry_accounted w registry s'.
Proof.
  intros (Hkept & Hentry & Hlogged & Hthreads) Hstep.
  apply step_effect in Hstep
    as (_ & t & Ht & [[-> _] | (p & b & l & children & Heffect & ->)]);
    [done|].
  pose proof (Hthreads tid t Ht) as Htid.
  (* the parts that do not depend on the case *)
  assert (∀ e, e ∈ log s → e ∈ l) as Hlog.
  { destruct Heffect; try done. intros e He. apply elem_of_app. by left. }
  assert (∀ k, k ∈ dom (built s) → k ∈ dom b) as Hdom.
  { destruct Heffect; try done. intros k Hk. rewrite dom_insert_L.
    set_solver. }
  split; [|split; [|split]].
  - destruct Heffect; try done.
    intros k v Hk. cbn [after built].
    rewrite H in Htid. destruct Htid as [Hnone _].
    rewrite lookup_insert_ne; [by apply Hkept|]. congruence.
  - cbn [after built log].
    assert (∀ k v, built s !! k = Some v →
              registry !! k = Some v
              ∨ ∃ e, e ∈ l ∧ ev_path e = k ∧ Accounting.event_flag e = v)
      as Hold.
    { intros k v Hk. destruct (Hentry k v Hk) as [?|(e & He & ? & ?)];
        [by left|]. right. exists e. auto. }
    destruct Heffect; try done.
    intros k v Hk. rewrite H in Htid.
    destruct Htid as [_ (e & He & Hpath & Hflag)].
    destruct (decide (k = path)) as [->|Hne].
    + rewrite lookup_insert_eq in Hk. simplify_eq. right. by exists e.
    + rewrite lookup_insert_ne in Hk by done. by apply Hold.
  - cbn [after built log]. intros e He.
    assert (e ∈ log s → ev_path e ∈ dom b
            ∨ ∃ tid' t' package,
                threads (after s tid t p b l children) !! tid' = Some t'
                ∧ t_pc t' = PSet (ev_path e) package) as Hold.
    { intros Hin. destruct (Hlogged e Hin)
        as [Hrec | (tid' & t' & package & Ht' & Hpc')]; [left; by apply Hdom|].
      destruct (decide (tid' = tid)) as [->|Hne].
      - simplify_eq. destruct Heffect; try congruence.
        left. rewrite H in Hpc'. simplify_eq.
        rewrite dom_insert_L. set_solver.
      - right. exists tid', t', package. split; [|done].
        by apply after_lookup_other. }
    destruct Heffect; try (by apply Hold).
    apply elem_of_app in He as [He | ->%list_elem_of_singleton];
      [by apply Hold|].
    right. eexists tid, _, _. split; [by apply after_lookup_self|]. done.
  - intros tid' t' Ht'.
    apply (after_lookup _ _ _ _ _ _ _ _ _ Ht) in Ht'
      as [[-> ->] | [[Hne Ht'] | [_ Hchild]]].
    + cbn [t_pc t_dir].
      destruct Heffect; try done; rewrite ?H in Htid;
        unfold enter_dependencies, enter_development, attempt;
        repeat case_match; try done; simplify_eq.
      * apply eq_None_ne_Some. intros v Hv. apply Hkept in Hv. congruence.
      * split; [done|]. eexists. split; [apply elem_of_app; right; by left|].
        split; [done|]. apply event_flag_work_event.
    + pose proof (Hthreads tid' t' Ht') as Hother.
      destruct (t_pc t'); try done.
      destruct Hother as [Hnone (e & He & Hpath & Hflag)].
      split; [done|]. exists e. split; [by apply Hlog|done].
    + destruct (effect_children w o _ _ _ _ _ _ Heffect) as [-> | [d ->]];
        [done|].
      apply list_lookup_singleton_Some in Hchild as [_ <-]. done.
Qed.

Lemma run_registry_accounted sched dir :
  registry_accounted w registry (run w o sched (init registry dir)).
Proof.
  apply (run_state_invariant w o (registry_accounted w registry)).
  - intros tid s s'. apply step_keeps_registry_accounted.
  - apply init_registry_accounted.
Qed.
End ThreadAccounting.

(** X15: in the pthread build the registry accounts for the work in
    every run, whatever the schedule.  The entries the registry had at
    the start are kept as they were; every other entry is the path of a
    unit of work that was done, flagged ["t"] when a command was run
    for it and ["f"] otherwise; and once every thread has returned, the
    path of every unit of work done is in the registry. *)
Theorem threads_registry_accounts_for_the_work (w : world) (o : options)
    (sched : list nat) (registry : gmap string string) (dir : string) :
  let s := Pthreads.run w o sched (Pthreads.init registry dir) in
  (∀ k v, registry !! k = Some v → Pthreads.built s !! k = Some v)
  ∧ (∀ k v, Pthreads.built s !! k = Some v →
            registry !! k = Some v
            ∨ ∃ e, e ∈ Pthreads.log s ∧ ev_path e = k
                   ∧ Accounting.event_flag e = v)
  ∧ (Pthreads.all_done s = true →
     ∀ e, e ∈ Pthreads.log s → ev_path e ∈ dom (Pthreads.built s)).
Proof.
  intros s.
  destruct (run_registry_accounted w o registry sched dir)
    as (Hkept & Hentry & Hlogged & _).
  fold s in Hkept, Hentry, Hlogged.
  split; [done|]. split; [done|].
  intros Hdone e He.
  destruct (Hlogged e He) as [?|(tid & t & package & Ht & Hpc)]; [done|].
  unfold Pthreads.all_done in Hdone.
  apply andb_true_iff in Hdone as [_ Hdone].
  rewrite forallb_forall in Hdone.
  assert (Pthreads.is_done t = true) as Ht_done.
  { apply Hdone. apply list_elem_of_In. by eapply list_elem_of_lookup_2. }
  unfold Pthreads.is_done in Ht_done. by rewrite Hpc in Ht_done.
Qed.

Section OneAtATime.
Import Pthreads Moves.
Variables (w : world) (o : options).
Hypothesis one_at_a_time : opts_concurrency o ≤ 1.

Lemma runnable_not_done s t : runnable s t → is_done t = false.
Proof. unfold runnable, is_done. by destruct (t_pc t). Qed.

(** Of the threads in a chain only the youngest that has not returned
    can move. *)
Lemma chain_runnable_unique s tid1 tid2 t1 t2 :
  chain s →
  threads s !! tid1 = Some t1 → threads s !! tid2 = Some t2 →
  runnable s t1 → runnable s t2 → tid1 = tid2.
Proof.
  intros Hchain Ht1 Ht2 Hr1 Hr2.
  assert (∀ a b ta tb, threads s !! a = Some ta → threads s !! b = Some tb →
            runnable s ta → runnable s tb → ¬ a < b) as Hlt.
  { intros a b ta tb Ha Hb Hra Hrb Hab.
    destruct (Hchain a b ta tb Ha Hb Hab)
      as (package & dev & rest & c & c_t & Hpc & Hc & Hc_done & _);
      [by eapply runnable_not_done..|].
    unfold runnable in Hra. rewrite Hpc in Hra.
    destruct Hra as (c_t' & Hc' & Hdone'). congruence. }
  destruct (lt_eq_lt_dec tid1 tid2) as [[Hlt'|?]|Hlt']; [|done|].
  - by destruct (Hlt tid1 tid2 t1 t2).
  - by destruct (Hlt tid2 tid1 t2 t1).
Qed.

Lemma effect_single_wave s t p b l children :
  single_wave t → effect w o s t p b l children →
  single_wave {| t_dir := t_dir t; t_pc := p |} ∧ Forall single_wave children.
Proof.
  intros Ht Heffect. unfold single_wave in *.
  destruct Heffect as [? ? Hpc ?| ? ? Hpc ?| ? ? Hpc ?| ? ? Hpc ? ?
                      | ? ? ? Hpc ? ?| ? ? Hpc| ? ? ? Hpc| ? ? ? ? ? ? Hpc ?
                      | ? ? ? ? ? ? Hpc ? ?| ? ? ? ? Hpc| ? ? Hpc];
    rewrite Hpc in Ht; cbn [t_pc t_dir].
  all: split; [|first [done | by apply Forall_singleton]].
  all: unfold enter_dependencies, enter_development, attempt.
  all: repeat case_match; try done; simplify_eq.
  all: repeat match goal with H : decide _ = _ |- _ => clear H end.
  all: rewrite ?length_app in *; cbn [length] in *; first [done | lia].
Qed.

Lemma step_keeps_chain tid s s' :
  Forall single_wave (threads s) → chain s →
  step w o tid s = Some s' →
  Forall single_wave (threads s') ∧ chain s'.
Proof.
  intros Hwaves Hchain Hstep.
  pose proof (step_runnable w o _ _ _ Hstep) as (t0 & Ht0 & Hrun).
  apply step_effect in Hstep
    as (_ & t & Ht & [[-> _] | (p & b & l & children & Heffect & ->)]);
    [done|].
  simplify_eq.
  pose proof (Forall_lookup_1 _ _ _ _ Hwaves Ht) as Hwave.
  destruct (effect_single_wave _ _ _ _ _ _ Hwave Heffect) as [Hp Hchildren].
  split.
  { unfold after. cbn [threads]. apply Forall_app. split; [|done].
    by apply Forall_insert. }
  pose proof (runnable_not_done _ _ Hrun) as Hnot_done.
  (* every younger thread has returned *)
  assert (∀ i x, threads s !! i = Some x → tid < i → is_done x = true)
    as Hyounger.
  { intros i x Hx Hlt. destruct (is_done x) eqn:Hdone; [done|].
    destruct (Hchain tid i t x Ht Hx Hlt Hnot_done Hdone)
      as (package & dev & rest & c & c_t & Hpc & Hc & Hc_done & _).
    unfold runnable in Hrun. rewrite Hpc in Hrun.
    destruct Hrun as (c_t' & Hc' & Hdone'). congruence. }
  (* a thread that waited for a thread that had not returned still does *)
  assert (∀ c c_t, threads s !! c = Some c_t → is_done c_t = false →
            is_done {| t_dir := t_dir t; t_pc := p |} = false →
            ∃ c_t', threads (after s tid t p b l children) !! c = Some c_t'
                    ∧ is_done c_t' = false) as Hwait.
  { intros c c_t Hc Hc_done Hnew. destruct (decide (c = tid)) as [->|Hne].
    - eexists. split; [by apply after_lookup_self|done].
    - exists c_t. split; [by apply after_lookup_other|done]. }
  intros tid1 tid2 t1 t2 Ht1 Ht2 Hlt Hd1 Hd2.
  apply (after_lookup _ _ _ _ _ _ _ _ _ Ht) in Ht1
    as [[-> ->] | [[Hne1 Ht1] | [Hlen1 Hchild1]]];
  apply (after_lookup _ _ _ _ _ _ _ _ _ Ht) in Ht2
    as [[-> ->] | [[Hne2 Ht2] | [Hlen2 Hchild2]]]; try lia.
  - (* the thread that moved and a younger one that was there *)
    apply Hyounger in Ht2; [congruence|done].
  - (* the thread that moved and the thread it has just created *)
    destruct Heffect; try done.
    unfold single_wave in Hwave. rewrite H in Hwave. subst wave.
    cbn [app length] in *. rewrite decide_True by lia.
    assert (tid2 = length (threads s)) as ->.
    { apply lookup_lt_Some in Hchild2. cbn [length] in Hchild2. lia. }
    eexists package, dev, rest, _, t2. split; [done|].
    split; [|split; [done|]].
    + unfold after. cbn [threads].
      rewrite lookup_app_r by (rewrite length_insert; lia).
      rewrite length_insert. done.
    + apply lookup_lt_Some in Ht. lia.
  - (* an older thread and the thread that moved *)
    destruct (Hchain tid1 tid t1 t Ht1 Ht Hlt Hd1 Hnot_done)
      as (package & dev & rest & c & c_t & Hpc & Hc & Hc_done & Hrange).
    destruct (Hwait c c_t Hc Hc_done Hd2) as (c_t' & Hc' & Hc_done').
    by exists package, dev, rest, c, c_t'.
  - (* two threads that did not move *)
    assert (tid2 < tid) as Hlt2.
    { destruct (lt_eq_lt_dec tid2 tid) as [[?|?]|Hgt]; [done|done|].
      apply Hyounger in Ht2; [congruence|done]. }
    destruct (Hchain tid1 tid2 t1 t2 Ht1 Ht2 Hlt Hd1 Hd2)
      as (package & dev & rest & c & c_t & Hpc & Hc & Hc_done & Hrange).
    exists package, dev, rest, c, c_t. split; [done|].
    split; [|done]. apply after_lookup_other; [lia|done].
  - (* an older thread and a thread just created *)
    destruct (lt_eq_lt_dec tid1 tid) as [[Hlt1|?]|Hgt]; [|done|].
    + destruct (Hchain tid1 tid t1 t Ht1 Ht Hlt1 Hd1 Hnot_done)
        as (package & dev & rest & c & c_t & Hpc & Hc & Hc_done & Hrange).
      assert (is_done {| t_dir := t_dir t; t_pc := p |} = false) as Hnew.
      { destruct Heffect; try done. cbn [is_done t_pc]. by case_decide. }
      destruct (Hwait c c_t Hc Hc_done Hnew) as (c_t' & Hc' & Hc_done').
      exists package, dev, rest, c, c_t'. split; [done|].
      split; [done|]. split; [done|]. apply lookup_lt_Some in Ht. lia.
    + apply Hyounger in Ht1; [congruence|done].
  - (* a thread just created is younger than the thread that moved *)
    apply lookup_lt_Some in Ht. lia.
  - (* and younger than every thread that was there *)
    apply lookup_lt_Some in Ht2. lia.
  - (* two threads just created: there is at most one *)
    destruct (effect_children w o _ _ _ _ _ _ Heffect) as [-> | [d ->]];
      [done|].
    apply lookup_lt_Some in Hchild1, Hchild2. cbn [length] in *. lia.
Qed.

Lemma init_chain registry dir :
  Forall single_wave (threads (init registry dir))
  ∧ chain (init registry dir).
Proof.
  clear one_at_a_time. split; [by apply Forall_singleton|].
  intros tid1 tid2 t1 t2 Ht1 Ht2 Hlt. unfold init in *. cbn [threads] in *.
  apply lookup_lt_Some in Ht1, Ht2. cbn [length] in *. lia.
Qed.

Lemma run_chain sched registry dir :
  Forall single_wave (threads (run w o sched (init registry dir)))
  ∧ chain (run w o sched (init registry dir)).
Proof.
  apply (run_state_invariant w o
           (λ s, Forall single_wave (threads s) ∧ chain s)).
  - intros tid s s' [? ?]. by apply step_keeps_chain.
  - apply init_chain.
Qed.
End OneAtATime.

Section OneAtATimeRuns.
Import Pthreads Moves.
Variables (w : world) (o : options).
Hypothesis one_at_a_time : opts_concurrency o ≤ 1.

Lemma step_deterministic s tid1 tid2 s1 s2 :
  chain s → step w o tid1 s = Some s1 → step w o tid2 s = Some s2 → s1 = s2.
Proof.
  intros Hchain H1 H2.
  pose proof (step_runnable w o _ _ _ H1) as (t1 & Ht1 & Hr1).
  pose proof (step_runnable w o _ _ _ H2) as (t2 & Ht2 & Hr2).
  assert (tid1 = tid2) as -> by (by eapply chain_runnable_unique).
  congruence.
Qed.

Lemma ended_no_step s tid : ended s = true → step w o tid s = None.
Proof.
  unfold ended, step. intros Hended.
  destruct (crashed s); [done|]. cbn [orb] in Hended.
  destruct (threads s !! tid) as [t|] eqn:Ht; [|done]. cbn.
  rewrite forallb_forall in Hended.
  assert (is_done t = true) as Hdone.
  { apply Hended, list_elem_of_In. by eapply list_elem_of_lookup_2. }
  unfold is_done in Hdone. by destruct (t_pc t).
Qed.

Lemma ended_run s sched : ended s = true → run w o sched s = s.
Proof.
  intros Hended. unfold run. induction sched as [|tid sched IH]; [done|].
  cbn [foldl]. by rewrite ended_no_step.
Qed.

Lemma runs_agree sched1 sched2 s :
  Forall single_wave (threads s) → chain s →
  ended (run w o sched1 s) = true → ended (run w o sched2 s) = true →
  run w o sched1 s = run w o sched2 s.
Proof.
  revert sched2 s. induction sched1 as [|tid1 sched1 IH1]; intros sched2 s.
  { intros _ _ Hended _. change (run w o [] s) with s in *.
    symmetry. by apply ended_run. }
  induction sched2 as [|tid2 sched2 IH2]; intros Hwaves Hchain H1 H2.
  { change (run w o [] s) with s in *. by apply ended_run. }
  unfold run in *. cbn [foldl] in *.
  destruct (step w o tid1 s) as [s1|] eqn:Hstep1; cbn [default] in *.
  - destruct (step w o tid2 s) as [s2|] eqn:Hstep2; cbn [default] in *.
    + assert (s1 = s2) as <- by (by eapply step_deterministic).
      destruct (step_keeps_chain w o one_at_a_time _ _ _ Hwaves Hchain Hstep1).
      by apply IH1.
    + by apply IH2.
  - specialize (IH1 (tid2 :: sched2) s Hwaves Hchain H1).
    unfold run in IH1. cbn [foldl] in IH1. by apply IH1.
Qed.

Lemma step_keeps_once registry tid s s' :
  chain s → registry_accounted w registry s → once w s →
  step w o tid s = Some s' → once w s'.
Proof.
  intros Hchain (_ & _ & Hlogged & _) [Hnodup Hfresh] Hstep.
  pose proof (step_runnable w o _ _ _ Hstep) as (t0 & Ht0 & Hrun).
  apply step_effect in Hstep
    as (_ & t & Ht & [[-> _] | (p & b & l & children & Heffect & ->)]);
    [done|].
  simplify_eq.
  (* no other thread is building or recording a path *)
  assert (∀ i x, threads s !! i = Some x → i ≠ tid →
            match t_pc x with PBuild _ _ | PSet _ _ => False | _ => True end)
    as Hothers.
  { intros i x Hx Hne.
    destruct (t_pc x) eqn:Hpc; try done;
      destruct Hne; eapply (chain_runnable_unique s i tid x t); try done;
      unfold runnable; by rewrite Hpc. }
  split.
  - cbn [after log]. destruct Heffect; try done.
    rewrite fmap_app. apply NoDup_app. split; [done|].
    split; [|apply NoDup_singleton].
    intros path' Hin ->%list_elem_of_singleton. cbn [work_event ev_path] in Hin.
    apply list_elem_of_fmap in Hin as (e & Hpath & He).
    destruct (Hlogged e He) as [Hrec | (i & x & package' & Hx & Hpc)].
    + rewrite <- Hpath in Hrec. apply elem_of_dom in Hrec.
      rewrite (Hfresh tid t file others Ht H) in Hrec. by destruct Hrec.
    + destruct (decide (i = tid)) as [->|Hne]; [congruence|].
      specialize (Hothers i x Hx Hne). by rewrite Hpc in Hothers.
  - intros i x file others Hx Hpc.
    apply (after_lookup _ _ _ _ _ _ _ _ _ Ht) in Hx
      as [[-> ->] | [[Hne Hx] | [_ Hchild]]].
    + cbn [t_pc t_dir] in *.
      destruct Heffect; cbn [after built];
        unfold enter_dependencies, enter_development, attempt in Hpc;
        repeat case_match; simplify_eq; done.
    + specialize (Hothers i x Hx Hne). by rewrite Hpc in Hothers.
    + destruct (effect_children w o _ _ _ _ _ _ Heffect) as [-> | [d ->]];
        [done|].
      apply list_lookup_singleton_Some in Hchild as [_ <-]. done.
Qed.

Lemma run_once sched registry dir :
  once w (run w o sched (init registry dir)).
Proof.
  assert ((λ s, (Forall single_wave (threads s) ∧ chain s)
                ∧ registry_accounted w registry s ∧ once w s)
            (run w o sched (init registry dir))) as (_ & _ & Honce);
    [|done].
  apply run_state_invariant.
  - intros tid s s' ([Hwaves Hchain] & Haccounted & Honce) Hstep.
    split; [by apply (step_keeps_chain w o one_at_a_time tid s)|].
    split; [by eapply step_keeps_registry_accounted|].
    by eapply step_keeps_once.
  - split; [apply init_chain|]. split; [apply init_registry_accounted|].
    split; [constructor|].
    intros tid t file others Ht Hpc. unfold init in Ht. cbn [threads] in Ht.
    apply list_lookup_singleton_Some in Ht as [_ <-]. done.
Qed.
End OneAtATimeRuns.

(** X16: with a concurrency of 1 the outcome of the pthread build does
    not depend on the schedule.  Every thread joins the thread it
    created before it goes on, so at any time only one thread can move;
    two runs from the same state that have ended (every thread has
    returned, or the process has faulted) have ended in the same state:
    the same registry, the same work in the same order, the same
    results. *)
Theorem one_at_a_time_is_schedule_independent (w : world) (o : options)
    (registry : gmap string string) (dir : string)
    (sched1 sched2 : list nat) :
  opts_concurrency o ≤ 1 →
  Moves.ended (Pthreads.run w o sched1 (Pthreads.init registry dir)) = true →
  Moves.ended (Pthreads.run w o sched2 (Pthreads.init registry dir)) = true →
  Pthreads.run w o sched1 (Pthreads.init registry dir)
  = Pthreads.run w o sched2 (Pthreads.init registry dir).
Proof.
  intros Hone H1 H2.
  destruct (init_chain registry dir) as [Hwaves Hchain].
  by apply runs_agree.
Qed.

Lemma one_at_a_time_is_schedule_independent_witness :
  let o := {| opts_dir := "/deps"; opts_force := false; opts_verbose := true;
              opts_dev := false; opts_clean := None; opts_test := None;
              opts_concurrency := 1 |} in
  Pthreads.run diamond o (mjoin (replicate 30 [0; 1; 2; 3; 4]))
    (Pthreads.init ∅ "/proj")
  = Pthreads.run diamond o (mjoin (replicate 30 [4; 3; 2; 1; 0]))
      (Pthreads.init ∅ "/proj").
Proof.
  apply (one_at_a_time_is_schedule_independent diamond
           {| opts_dir := "/deps"; opts_force := false; opts_verbose := true;
              opts_dev := false; opts_clean := None; opts_test := None;
              opts_concurrency := 1 |} ∅ "/proj"
           (mjoin (replicate 30 [0; 1; 2; 3; 4]))
           (mjoin (replicate 30 [4; 3; 2; 1; 0]))).
  - vm_compute. lia.
  - vm_compute. reflexivity.
  - vm_compute. reflexivity.
Defined.

(** X17: with a concurrency of 1 the pthread build works on each path
    at most once.  In every state of every run no path has its work
    logged twice: the race between the registry test and the registry
    update needs two threads that can move at the same time. *)
Theorem one_at_a_time_works_each_path_once (w : world) (o : options)
    (registry : gmap string string) (dir : string) (sched : list nat) :
  opts_concurrency o ≤ 1 →
  NoDup (ev_path <$> Pthreads.log (Pthreads.run w o sched
                                     (Pthreads.init registry dir)))
  ∧ ∀ path, work_count path (Pthreads.log (Pthreads.run w o sched
                                             (Pthreads.init registry dir)))
            ≤ 1.
Proof.
  intros Hone.
  destruct (run_once w o Hone sched registry dir) as [Hnodup _].
  split; [done|]. intros path. unfold work_count.
  revert Hnodup.
  generalize (Pthreads.log (Pthreads.run w o sched (Pthreads.init registry dir))).
  intros l. induction l as [|e l IH]; intros Hnodup; [cbn; lia|].
  rewrite fmap_cons in Hnodup. apply NoDup_cons in Hnodup as [Hnotin Hnodup].
  rewrite filter_cons. case_decide as Hpath; [|by apply IH].
  cbn [length].
  assert (filter (λ e0, ev_path e0 = path) l = []) as ->; [|cbn; lia].
  destruct (filter (λ e0, ev_path e0 = path) l) as [|e' l'] eqn:Hfilter;
    [done|].
  assert (e' ∈ filter (λ e0, ev_path e0 = path) l) as He'
    by (rewrite Hfilter; by left).
  apply list_elem_of_filter in He' as [Hpath' He'].
  destruct Hnotin. rewrite Hpath, <- Hpath'. apply list_elem_of_fmap.
  by exists e'.
Qed.

Lemma one_at_a_time_works_each_path_once_witness :
  let o := {| opts_dir := "/deps"; opts_force := false; opts_verbose := true;
              opts_dev := false; opts_clean := None; opts_test := None;
              opts_concurrency := 1 |} in
  NoDup (ev_path <$> Pthreads.log (Pthreads.run diamond o
                                     (mjoin (replicate 30 [4; 3; 2; 1; 0]))
                                     (Pthreads.init ∅ "/proj")))
  ∧ ∀ path, work_count path (Pthreads.log (Pthreads.run diamond o
                                             (mjoin (replicate 30 [4; 3; 2; 1; 0]))
                                             (Pthreads.init ∅ "/proj")))
            ≤ 1.
Proof.
  apply (one_at_a_time_works_each_path_once diamond
           {| opts_dir := "/deps"; opts_force := false; opts_verbose := true;
              opts_dev := false; opts_clean := None; opts_test := None;
              opts_concurrency := 1 |} ∅ "/proj"
           (mjoin (replicate 30 [4; 3; 2; 1; 0]))).
  vm_compute. lia.
Defined.

Section ThreadsAlwaysFinish.
Import Graph Pthreads Agreement Moves.
Variables (w : world) (o : options).
Hypothesis files_readable : readable w = true.

Lemma readable_load dir path :
  is_Some (fs_files w !! path) → load_package w dir path = manifest_at w path.
Proof.
  intros [content Hfile]. unfold load_package, manifest_at, fs_read.
  rewrite Hfile. cbn [default].
  destruct content as [json|]; [done|].
  unfold readable in files_readable. rewrite forallb_forall in files_readable.
  apply elem_of_map_to_list, list_elem_of_In, files_readable in Hfile.
  apply bool_decide_eq_true in Hfile. by destruct Hfile.
Qed.

Lemma effect_holds_manifest s t p b l children :
  holds_manifest w t → effect w o s t p b l children →
  holds_manifest w {| t_dir := t_dir t; t_pc := p |}
  ∧ Forall (holds_manifest w) children.
Proof.
  intros Ht Heffect. unfold holds_manifest in *.
  destruct Heffect as [? ? Hpc ?| ? ? Hpc ?| ? ? Hpc ?| ? ? Hpc ? ?
                      | ? ? ? Hpc Hfile Hload| ? ? Hpc| ? ? ? Hpc
                      | ? ? ? ? ? ? Hpc ?| ? ? ? ? ? ? Hpc ? ?| ? ? ? ? Hpc
                      | ? ? Hpc];
    rewrite Hpc in Ht; cbn [t_pc t_dir].
  all: split; [|first [done | by apply Forall_singleton]].
  all: try (by rewrite <- (readable_load (t_dir t)) by done).
  all: unfold enter_dependencies, enter_development, attempt.
  all: by repeat case_match.
Qed.

(** Every step that is not a fault uses up some of the bound. *)
Lemma effect_lowers_potential s tid t p b l children :
  threads s !! tid = Some t → holds_manifest w t →
  effect w o s t p b l children →
  potential w o (after s tid t p b l children) < potential w o s.
Proof.
  intros Ht Hholds Heffect.
  apply (potential_update w o s _ tid t p children); [done|done|..].
  { cbn [after built]. destruct Heffect; try done.
    rewrite dom_insert_L. set_solver. }
  cbn [after built]. unfold holds_manifest in Hholds.
  destruct Heffect as [file others Hpc Hseen| file others Hpc Hunseen
                      | file others Hpc Hfile| file others Hpc Hfile Hload
                      | file others package Hpc Hfile Hload| path package Hpc
                      | package dev wave Hpc
                      | package dev dep rest wave dependency Hpc Hresolve
                      | package dev rest c wave c_t Hpc Hc Hdone
                      | package dev dep rest Hpc| package dev Hpc];
    cbn [sum_list_with].
  - unfold thread_cost. rewrite Hpc. cbn [t_pc]. unfold name_cost. lia.
  - unfold thread_cost. rewrite Hpc. cbn [t_pc t_dir].
    destruct (fs_files w !! path_join w (t_dir t) file) eqn:Hfile.
    + rewrite (remaining_unrecorded w (built s) (path_join w (t_dir t) file));
        [|by rewrite Hfile|done].
      unfold name_cost. lia.
    + unfold name_cost. lia.
  - rewrite attempt_cost. unfold thread_cost. rewrite Hpc, Hfile. lia.
  - rewrite attempt_cost. unfold thread_cost. rewrite Hpc.
    destruct Hfile as [content ->]. lia.
  - unfold thread_cost. rewrite Hpc. cbn [t_pc t_dir].
    destruct Hfile as [content ->]. lia.
  - rewrite Hpc in Hholds.
    pose proof (enter_dependencies_cost w o
                  (<[path := built_flag package]> (built s))
                  (t_dir t) package) as Hle.
    rewrite remaining_insert in Hle.
    pose proof (widest_bound w o path package Hholds) as Hwide.
    unfold thread_cost at 2. rewrite Hpc. unfold loops_cost. nia.
  - unfold thread_cost. rewrite Hpc. cbn. lia.
  - unfold thread_cost at 3. rewrite Hpc.
    rewrite (pending_cons o package dev dep rest).
    assert (thread_cost w o (built s)
              {| t_dir := path_join w (opts_dir o) (pkg_name dependency);
                 t_pc := attempt package_names 0 |}
            = fresh_cost w o (remaining w (built s) ∅)) as ->.
    { rewrite fresh_cost_names. unfold thread_cost. cbn. lia. }
    case_decide; unfold thread_cost; cbn [t_pc t_dir];
      rewrite length_app; cbn [length];
      destruct rest, dev; lia.
  - unfold thread_cost. rewrite Hpc. cbn [t_pc length]. lia.
  - unfold thread_cost. rewrite Hpc. cbn [t_pc]. lia.
  - unfold thread_cost at 2. rewrite Hpc. destruct dev.
    + unfold thread_cost. cbn. lia.
    + pose proof (enter_development_cost w o (built s) (t_dir t) package).
      cbn [length]. lia.
Qed.

Lemma all_done_ended s : ended s = false → all_done s = false.
Proof.
  unfold ended, all_done. destruct (crashed s); [done|]. cbn. done.
Qed.

(** From every state of a run there is a schedule that ends the run. *)
Lemma can_finish s :
  Forall (holds_manifest w) (threads s) → waves_ok s →
  ∃ sched, ended (run w o sched s) = true.
Proof.
  remember (potential w o s) as n eqn:Hn. revert s Hn.
  induction n as [n IH] using lt_wf_ind. intros s -> Hholds Hwaves.
  destruct (ended s) eqn:Hended; [by exists []|].
  assert (crashed s = false) as Hcrashed.
  { unfold ended in Hended. by destruct (crashed s). }
  destruct (progress w o s) as (tid & s' & Hstep);
    [done|done|by apply all_done_ended|].
  pose proof (step_preserves_waves w o _ _ _ Hwaves Hstep) as Hwaves'.
  pose proof Hstep as Hstep'.
  apply step_effect in Hstep'
    as (_ & t & Ht & [[Hs' _] | (p & b & l & children & Heffect & Hs')]).
  - exists [tid]. unfold run. cbn [foldl]. rewrite Hstep. cbn [default].
    by rewrite Hs'.
  - pose proof (Forall_lookup_1 _ _ _ _ Hholds Ht) as Hhold.
    destruct (effect_holds_manifest _ _ _ _ _ _ Hhold Heffect)
      as [Hp Hchildren].
    destruct (IH (potential w o s')) with (s := s') as [sched Hsched].
    + rewrite Hs'. by apply effect_lowers_potential.
    + done.
    + rewrite Hs'. unfold after. cbn [threads]. apply Forall_app.
      split; [|done]. by apply Forall_insert.
    + done.
    + exists (tid :: sched). unfold run in *. cbn [foldl]. by rewrite Hstep.
Qed.
End ThreadsAlwaysFinish.

(** X18: the pthread build never hangs.  In every state of every run,
    whatever the environment, as long as the run has not ended (a
    thread has not returned and the process has not faulted) some
    thread can move: no thread waits for a thread that waits for it.
    And when the files that exist can be read, every run can be carried
    to its end, whatever the dependency graph: with cycles, missing
    manifests, failing commands and dependencies that do not resolve. *)
Theorem threads_build_can_always_finish (w : world) (o : options)
    (registry : gmap string string) (dir : string) (sched : list nat) :
  (Moves.ended (Pthreads.run w o sched (Pthreads.init registry dir)) = false →
   ∃ tid s', Pthreads.step w o tid
               (Pthreads.run w o sched (Pthreads.init registry dir))
             = Some s')
  ∧ (Moves.readable w = true →
     ∃ more,
       Moves.ended
         (Pthreads.run w o (sched ++ more) (Pthreads.init registry dir))
       = true).
Proof.
  assert (Agreement.waves_ok
            (Pthreads.run w o sched (Pthreads.init registry dir))) as Hwaves.
  { apply run_preserves_waves, init_waves_ok. }
  split.
  - intros Hended. apply progress; [|done|by apply all_done_ended].
    unfold Moves.ended in Hended.
    by destruct (Pthreads.crashed
                   (Pthreads.run w o sched (Pthreads.init registry dir))).
  - intros Hreadable.
    destruct (can_finish w o Hreadable
                (Pthreads.run w o sched (Pthreads.init registry dir)))
      as [more Hmore]; [|done|].
    + apply run_thread_invariant.
      * intros s t p b l children. by apply effect_holds_manifest.
      * by apply Forall_singleton.
    + exists more. by rewrite run_app.
Qed.

Lemma threads_build_can_always_finish_witness :
  (∃ tid s', Pthreads.step cycle default_options tid
               (Pthreads.run cycle default_options [0; 0; 0; 0; 1; 1; 1]
                  (Pthreads.init ∅ "/proj"))
             = Some s')
  ∧ ∃ more,
      Moves.ended (Pthreads.run cycle default_options
                     ([0; 0; 0; 0; 1; 1; 1] ++ more)
                     (Pthreads.init ∅ "/proj"))
      = true.
Proof.
  split.
  - apply (threads_build_can_always_finish cycle default_options ∅ "/proj"
             [0; 0; 0; 0; 1; 1; 1]).
    vm_compute. reflexivity.
  - apply (threads_build_can_always_finish cycle default_options ∅ "/proj"
             [0; 0; 0; 0; 1; 1; 1]).
    vm_compute. reflexivity.
Defined.

(** * The install tool: failures that are not reported *)

(** X19: [install_packages] reports a failed argument only when
    [install_package] returns exactly -1.  When the fetch of a remote
    slug fails with any other non-zero status, [install_package]
    returns that status and saves nothing, the loop goes on with the
    next argument, and [main] called with this argument alone exits
    with 0. *)
Theorem fetch_failure_other_than_minus_one_is_ignored (e : Install.env)
    (o : Install.options) (slug : string) (rest : list string)
    (s : Install.state) (pkg : Install.package) :
  slug ≠ "." → slug ≠ "./" →
  Install.files s !! slug = None →
  Install.clib_package_new_from_slug e slug = Some pkg →
  Install.clib_package_install e pkg ≠ 0%Z →
  Install.clib_package_install e pkg ≠ (-1)%Z →
  Install.install_package e o slug s
  = Some (Install.clib_package_install e pkg, s)
  ∧ Install.install_packages e o (slug :: rest) s
    = Install.install_packages e o rest
        {| Install.files := Install.files s;
           Install.installed := Install.installed s;
           Install.trace := Install.trace s ++ [slug] |}
  ∧ Install.main e o [slug] s
    = Some (0%Z, {| Install.files := Install.files s;
                    Install.installed := Install.installed s;
                    Install.trace := Install.trace s ++ [slug] |}).
Proof.
  intros Hdot Hdotslash Hfile Hresolve Hfail Hother.
  assert (∀ s0, Install.files s0 = Install.files s →
            Install.install_package e o slug s0
            = Some (Install.clib_package_install e pkg, s0)) as Hinstall.
  { intros s0 Hfiles. unfold Install.install_package, Install.fetch.
    rewrite decide_False by (intros [? | ?]; congruence).
    rewrite decide_False by (rewrite Hfiles; by apply eq_None_not_Some).
    rewrite Hresolve.
    rewrite (decide_False (P := Install.clib_package_install e pkg = 0%Z))
      by done.
    by rewrite decide_True. }
  split; [by apply Hinstall|].
  unfold Install.main. cbn [Install.install_packages].
  rewrite Hinstall by done. cbn [mbind option_bind].
  by destruct (decide (Install.clib_package_install e pkg = (-1)%Z)).
Qed.

Lemma fetch_failure_other_than_minus_one_is_ignored_witness :
  let e := {| Install.manifest_names := ["clib.json"; "package.json"];
              Install.clib_validate := λ _, 0%Z;
              Install.clib_package_new := λ _, None;
              Install.clib_package_new_from_slug := λ _, Some foo_bar;
              Install.clib_package_install := λ _, 1%Z;
              Install.clib_package_install_dependencies := λ _, 0%Z;
              Install.clib_package_install_development := λ _, 0%Z;
              Install.json_parse_string := λ _, None;
              Install.json_serialize_to_string_pretty := print_json;
              Install.fs_writable := λ _, true |} in
  Install.install_package e save_options "foo/bar" app_directory
  = Some (1%Z, app_directory)
  ∧ Install.install_packages e save_options ("foo/bar" :: ["baz/qux"])
      app_directory
    = Install.install_packages e save_options ["baz/qux"]
        {| Install.files := Install.files app_directory;
           Install.installed := Install.installed app_directory;
           Install.trace := Install.trace app_directory ++ ["foo/bar"] |}
  ∧ Install.main e save_options ["foo/bar"] app_directory
    = Some (0%Z, {| Install.files := Install.files app_directory;
                    Install.installed := Install.installed app_directory;
                    Install.trace := Install.trace app_directory ++ ["foo/bar"] |}).
Proof.
  apply (fetch_failure_other_than_minus_one_is_ignored
           {| Install.manifest_names := ["clib.json"; "package.json"];
              Install.clib_validate := λ _, 0%Z;
              Install.clib_package_new := λ _, None;
              Install.clib_package_new_from_slug := λ _, Some foo_bar;
              Install.clib_package_install := λ _, 1%Z;
              Install.clib_package_install_dependencies := λ _, 0%Z;
              Install.clib_package_install_development := λ _, 0%Z;
              Install.json_parse_string := λ _, None;
              Install.json_serialize_to_string_pretty := print_json;
              Install.fs_writable := λ _, true |}
           save_options "foo/bar" ["baz/qux"] app_directory foo_bar);
    try discriminate; reflexivity.
Defined.
